(** * AI Instrumentalist: the notation normalizer and the score display

    A shallow embedding of the TypeScript sources

    - [services/geminiService] ([API_KEY] check, [parseAbcResponse],
      [generateMusic]),
    - [components/MusicDisplay.tsx] (the render effect and its promise
      chain, the two exports, the view),
    - [components/PromptForm.tsx] and [App] (the form and the page),

    with the properties of the specification stated over it.

    JavaScript strings are sequences of UTF-16 code units, modelled as
    [list N]; the regular expressions of the source are kept as syntax and
    run by a small backtracking matcher that follows the ECMAScript
    semantics of the constructs the source uses. *)

From Stdlib Require Import Ascii String DecimalString.
From Stdlib Require Import List NArith ZArith Bool Lia Arith.
Import ListNotations.

Open Scope string_scope.
Open Scope list_scope.

(* ================================================================= *)
(** ** JavaScript strings *)

Module JS.

Definition code_unit := N.
Definition jsstring := list code_unit.

Definition cu (a : ascii) : code_unit := N_of_ascii a.

(** A string literal of the source, as code units. *)
Definition js (s : string) : jsstring := map cu (list_ascii_of_string s).

Definition LF : code_unit := 10%N.
Definition CR : code_unit := 13%N.

(** ECMAScript LineTerminator: LF, CR, LS (U+2028), PS (U+2029). *)
Definition isLineTerminator (c : code_unit) : bool :=
  ((c =? 10) || (c =? 13) || (c =? 8232) || (c =? 8233))%N.

(** ECMAScript WhiteSpace: TAB, VT, FF, ZWNBSP and the space separators. *)
Definition isWhiteSpace (c : code_unit) : bool :=
  ((c =? 9) || (c =? 11) || (c =? 12) || (c =? 32) || (c =? 160)
   || (c =? 5760) || ((8192 <=? c) && (c <=? 8202))
   || (c =? 8239) || (c =? 8287) || (c =? 12288) || (c =? 65279))%N.

(** What [String.prototype.trim] strips and what [\s] matches. *)
Definition isSpace (c : code_unit) : bool :=
  isWhiteSpace c || isLineTerminator c.

(** What [.] matches (no [s] flag). *)
Definition isDot (c : code_unit) : bool := negb (isLineTerminator c).

Fixpoint dropWhile (p : code_unit -> bool) (s : jsstring) : jsstring :=
  match s with
  | c :: s' => if p c then dropWhile p s' else s
  | [] => []
  end.

Fixpoint takeWhile (p : code_unit -> bool) (s : jsstring) : jsstring :=
  match s with
  | c :: s' => if p c then c :: takeWhile p s' else []
  | [] => []
  end.

Definition trimStart (s : jsstring) : jsstring := dropWhile isSpace s.
Definition trimEnd (s : jsstring) : jsstring := rev (dropWhile isSpace (rev s)).

(** [String.prototype.trim]. *)
Definition trim (s : jsstring) : jsstring := trimEnd (trimStart s).

(** ToBoolean on a string: only the empty string is falsy. *)
Definition truthy (s : jsstring) : bool :=
  match s with [] => false | _ :: _ => true end.

Fixpoint eqb (s t : jsstring) : bool :=
  match s, t with
  | [], [] => true
  | c :: s', d :: t' => (c =? d)%N && eqb s' t'
  | _, _ => false
  end.

(** [strip_prefix p s] is the rest of [s] after [p] when [s] starts with [p]. *)
Fixpoint strip_prefix (p s : jsstring) : option jsstring :=
  match p with
  | [] => Some s
  | c :: p' =>
      match s with
      | d :: s' => if (d =? c)%N then strip_prefix p' s' else None
      | [] => None
      end
  end.

Definition startsWith (p s : jsstring) : bool :=
  match strip_prefix p s with Some _ => true | None => false end.

Definition endsWith (p s : jsstring) : bool := startsWith (rev p) (rev s).

(** The lines of a text, split at every line terminator. *)
Fixpoint lines (s : jsstring) : list jsstring :=
  match s with
  | [] => [[]]
  | c :: s' =>
      if isLineTerminator c then [] :: lines s'
      else match lines s' with
           | l :: ls => (c :: l) :: ls
           | [] => [[c]]
           end
  end.

End JS.

Import JS.

(* ================================================================= *)
(** ** Regular expressions

    The constructs the source's patterns use: literals, classes, the
    anchors [^] and [$] under the [m] flag, sequence, alternation, greedy
    [?], greedy [*] over a class, and one capture group. *)

Module RegExp.

Inductive regex :=
| Str (l : jsstring)                 (* a literal run of code units *)
| Cls (p : code_unit -> bool)        (* a class: [\s], [.], [[a-gA-G]] *)
| BolM                               (* [^] with the m flag *)
| EolM                               (* [$] with the m flag *)
| Cat (r1 r2 : regex)
| Alt (r1 r2 : regex)
| Opt (r : regex)                    (* [r?], greedy *)
| StarCls (p : code_unit -> bool)    (* [c*] for a class [c], greedy *)
| Grp (r : regex).                   (* capture group 1 *)

(** [^] under [m]: at the start of input or right after a line terminator. *)
Definition at_bol (prev : option code_unit) : bool :=
  match prev with None => true | Some c => isLineTerminator c end.

(** [$] under [m]: at the end of input or right before a line terminator. *)
Definition at_eol (s : jsstring) : bool :=
  match s with [] => true | c :: _ => isLineTerminator c end.

Definition last_of (prev : option code_unit) (l : jsstring) : option code_unit :=
  match rev l with c :: _ => Some c | [] => prev end.

Section Matcher.
Variable A : Type.

(** Greedy iteration of a class: the longest run first, then one code unit
    less at a time, until the continuation accepts. *)
Fixpoint star (p : code_unit -> bool) (prev : option code_unit) (s : jsstring)
         (k : option code_unit -> jsstring -> option A) : option A :=
  match s with
  | c :: s' =>
      if p c then
        match star p (Some c) s' k with
        | Some a => Some a
        | None => k prev s
        end
      else k prev s
  | [] => k prev s
  end.

(** The backtracking matcher, in continuation-passing style: [prev] is the
    code unit before the current position, [s] the input from the current
    position on, [cap] the text last captured by the group. *)
Fixpoint run (r : regex) (prev : option code_unit) (s : jsstring)
         (cap : option jsstring)
         (k : option code_unit -> jsstring -> option jsstring -> option A)
  : option A :=
  match r with
  | Str l =>
      match strip_prefix l s with
      | Some s' => k (last_of prev l) s' cap
      | None => None
      end
  | Cls p =>
      match s with
      | c :: s' => if p c then k (Some c) s' cap else None
      | [] => None
      end
  | BolM => if at_bol prev then k prev s cap else None
  | EolM => if at_eol s then k prev s cap else None
  | Cat r1 r2 => run r1 prev s cap (fun p' s' c' => run r2 p' s' c' k)
  | Alt r1 r2 =>
      match run r1 prev s cap k with
      | Some a => Some a
      | None => run r2 prev s cap k
      end
  | Opt r1 =>
      match run r1 prev s cap k with
      | Some a => Some a
      | None => k prev s cap
      end
  | StarCls p => star p prev s (fun p' s' => k p' s' cap)
  | Grp r1 =>
      run r1 prev s cap
          (fun p' s' _ => k p' s' (Some (firstn (length s - length s') s)))
  end.
End Matcher.

Arguments star {A} p prev s k.
Arguments run {A} r prev s cap k.

(** A match at the current position: the input left after it and group 1. *)
Definition exec_at (r : regex) (prev : option code_unit) (s : jsstring)
  : option (jsstring * option jsstring) :=
  run r prev s None (fun _ s' c => Some (s', c)).

(** The match object of [String.prototype.match] without the [g] flag. *)
Record MatchResult := {
  before : jsstring;            (* the input before [index] *)
  matched : jsstring;           (* element 0 *)
  group1 : option jsstring;     (* element 1; [None] is undefined *)
  after : jsstring              (* the input after the match *)
}.

Definition shift (c : code_unit) (m : MatchResult) : MatchResult :=
  {| before := c :: before m; matched := matched m;
     group1 := group1 m; after := after m |}.

(** The leftmost match, every position tried from left to right, the end of
    the input included. *)
Fixpoint search (r : regex) (prev : option code_unit) (s : jsstring)
  : option MatchResult :=
  match exec_at r prev s with
  | Some (rest, cap) =>
      Some {| before := []; matched := firstn (length s - length rest) s;
              group1 := cap; after := rest |}
  | None =>
      match s with
      | [] => None
      | c :: s' => option_map (shift c) (search r (Some c) s')
      end
  end.

(** [s.match(r)] for [r] without the [g] flag. *)
Definition String_match (r : regex) (s : jsstring) : option MatchResult :=
  search r None s.

(** Truthiness of [s.match(r)]. *)
Definition test (r : regex) (s : jsstring) : bool :=
  match String_match r s with Some _ => true | None => false end.

(** [s.replace(r, template)] for [r] without the [g] flag; the template is
    given as a function of the match ([$1] is [group1]). *)
Definition replace (r : regex) (template : MatchResult -> jsstring) (s : jsstring)
  : jsstring :=
  match String_match r s with
  | Some m => before m ++ template m ++ after m
  | None => s
  end.

(** [s.replace(r, repl)] for [r] with the [g] flag and a constant [repl]:
    after a match the scan resumes behind it; [skip] counts the code units of
    the current match still to be dropped; an empty match advances by one
    code unit. *)
Fixpoint replace_all_from (r : regex) (repl : jsstring)
         (prev : option code_unit) (s : jsstring) (skip : nat) : jsstring :=
  match s with
  | [] =>
      match skip with
      | O => match exec_at r prev [] with Some _ => repl | None => [] end
      | S _ => []
      end
  | c :: s' =>
      match skip with
      | S n => replace_all_from r repl (Some c) s' n
      | O =>
          match exec_at r prev s with
          | Some (rest, _) =>
              match length s - length rest with
              | O => repl ++ c :: replace_all_from r repl (Some c) s' 0
              | S n => repl ++ replace_all_from r repl (Some c) s' n
              end
          | None => c :: replace_all_from r repl (Some c) s' 0
          end
      end
  end.

Definition replace_all (r : regex) (repl : jsstring) (s : jsstring) : jsstring :=
  replace_all_from r repl None s 0.

End RegExp.

Import RegExp.

(* ================================================================= *)
(** ** services/geminiService: [parseAbcResponse] *)

Module GeminiService.

Definition group1_text (m : MatchResult) : jsstring :=
  match group1 m with Some g => g | None => [] end.

(** [/```(abc)?|```/g] *)
Definition re_fence : regex :=
  Alt (Cat (Str (js "```")) (Opt (Grp (Str (js "abc"))))) (Str (js "```")).

(** [/^T:\s*G$/m] where the group G is [.*] in parentheses *)
Definition re_title : regex :=
  Cat BolM (Cat (Str (js "T:")) (Cat (StarCls isSpace) (Cat (Grp (StarCls isDot)) EolM))).

(** [/^X:\s*1$/m] *)
Definition re_index : regex :=
  Cat BolM (Cat (Str (js "X:")) (Cat (StarCls isSpace) (Cat (Str (js "1")) EolM))).

(** [/^K:\s*.*\n/m], and the same with [M:] and [Q:] *)
Definition re_field (tag : jsstring) : regex :=
  Cat BolM (Cat (Str tag) (Cat (StarCls isSpace) (Cat (StarCls isDot) (Str [LF])))).

Definition re_key : regex := re_field (js "K:").
Definition re_meter : regex := re_field (js "M:").
Definition re_tempo : regex := re_field (js "Q:").

(** [/G/m] where the group G is [^X:.*] in parentheses *)
Definition re_xline : regex := Grp (Cat BolM (Cat (Str (js "X:")) (StarCls isDot))).

(** [/\|/] *)
Definition re_bar : regex := Str (js "|").

(** [/[a-gA-G]/] *)
Definition isPitchLetter (c : code_unit) : bool :=
  (((97 <=? c) && (c <=? 103)) || ((65 <=? c) && (c <=? 71)))%N.
Definition re_pitch : regex := Cls isPitchLetter.

Definition default_title : jsstring := js "Untitled Composition".

(** [GeneratedMusic] of [types.ts]: what [parseAbcResponse] returns and what
    [MusicDisplay] is given as [musicData]. *)
Record GeneratedMusic := { title : jsstring; abcNotation : jsstring }.

(** The replacement [`$1\n<line>`] of the three header insertions. *)
Definition after_group1 (line : jsstring) (m : MatchResult) : jsstring :=
  group1_text m ++ LF :: line.

(** Step 1: drop the code fences and trim. *)
Definition strip_fences (abcText : jsstring) : jsstring :=
  trim (replace_all re_fence [] abcText).

(** Step 2: the title, and the text with a default title line when none was
    found (or the one found is empty). *)
Definition with_title (cleanedAbc : jsstring) : jsstring * jsstring :=
  match String_match re_title cleanedAbc with
  | Some titleMatch =>
      if truthy (group1_text titleMatch)
      then (group1_text titleMatch, cleanedAbc)
      else (default_title, js "T:Untitled Composition" ++ LF :: cleanedAbc)
  | None => (default_title, js "T:Untitled Composition" ++ LF :: cleanedAbc)
  end.

(** Step 3: [X:1]. *)
Definition ensure_index (cleanedAbc : jsstring) : jsstring :=
  if negb (test re_index cleanedAbc)
  then js "X:1" ++ LF :: cleanedAbc
  else cleanedAbc.

(** Steps 4 to 6: a header line put behind the first [X:] line when the
    check for its tag finds none. *)
Definition ensure_field (check : regex) (line : jsstring) (cleanedAbc : jsstring)
  : jsstring :=
  if negb (test check cleanedAbc)
  then replace re_xline (after_group1 line) cleanedAbc
  else cleanedAbc.

(** Step 7: the placeholder bar. *)
Definition ensure_content (cleanedAbc : jsstring) : jsstring :=
  if negb (test re_bar cleanedAbc) && negb (test re_pitch cleanedAbc)
  then cleanedAbc ++ LF :: js "C |"
  else cleanedAbc.

(** Steps 3 to 7. *)
Definition complete (cleanedAbc : jsstring) : jsstring :=
  ensure_content
    (ensure_field re_tempo (js "Q:1/4=120")
       (ensure_field re_meter (js "M:4/4")
          (ensure_field re_key (js "K:C")
             (ensure_index cleanedAbc)))).

Definition parseAbcResponse (abcText : jsstring) : GeneratedMusic :=
  let (title, cleanedAbc) := with_title (strip_fences abcText) in
  {| title := title; abcNotation := complete cleanedAbc |}.

End GeminiService.

Import GeminiService.

(* ================================================================= *)
(** ** services/geminiService: the credential check at module load *)

Module ServiceInit.

(** What evaluating the module body leaves: either the exception it threw,
    with the line written to the console before, or the client it built. *)
Inductive ModuleLoad :=
| LoadThrows (console_error : jsstring) (error : jsstring)
| Loaded (apiKey : jsstring).

Definition msg_console : jsstring :=
  js "VITE_GEMINI_API_KEY environment variable is not set. Please ensure it is configured correctly.".

Definition msg_missing : jsstring :=
  js "VITE_GEMINI_API_KEY environment variable is missing or invalid. Please configure your API key to use the Gemini API.".

(** [!API_KEY]: undefined and the empty string are falsy. *)
Definition absent (API_KEY : option jsstring) : bool :=
  match API_KEY with
  | None => true
  | Some k => negb (truthy k)
  end.

(** The module body: [const API_KEY = ...; if (!API_KEY) { console.error;
    throw }; const ai = new GoogleGenAI({ apiKey: API_KEY })]. *)
Definition load_service (API_KEY : option jsstring) : ModuleLoad :=
  match API_KEY with
  | Some k => if negb (truthy k) then LoadThrows msg_console msg_missing else Loaded k
  | None => LoadThrows msg_console msg_missing
  end.

(** The client [ai] that [generateMusic] closes over. *)
Definition client (l : ModuleLoad) : option jsstring :=
  match l with
  | Loaded k => Some k
  | LoadThrows _ _ => None
  end.

(** [generateMusic], given the module's client and the text the model
    answered with ([None] when [musicResponse.text] is undefined): without a
    client there is no function to call. *)
Definition generateMusic (l : ModuleLoad) (musicText : option jsstring)
  : option (jsstring + GeneratedMusic) :=
  match client l with
  | None => None
  | Some _ =>
      match musicText with
      | Some t =>
          if truthy t then Some (inr (parseAbcResponse t))
          else Some (inl (js "Music generation failed to return any text."))
      | None => Some (inl (js "Music generation failed to return any text."))
      end
  end.

End ServiceInit.

(* ================================================================= *)
(** ** components/MusicDisplay.tsx *)

Module MusicDisplay.

Definition html := jsstring.
Definition VisualObj := nat.

(** A thrown or rejected value: [err.message] ([None] when undefined) and
    [String(err)]. *)
Record JsError := { message : option jsstring; as_string : jsstring }.

(** [err.message || String(err)] *)
Definition err_text (e : JsError) : jsstring :=
  match message e with
  | Some m => if truthy m then m else as_string e
  | None => as_string e
  end.

(** A call that returns or throws. *)
Inductive outcome (A : Type) :=
| Returns (a : A)
| Throws (e : JsError).
Arguments Returns {A} a.
Arguments Throws {A} e.

(** A call that throws, or returns a promise that rejects or resolves. *)
Inductive settled (A : Type) :=
| ThrowsSync (e : JsError)
| Rejects (e : JsError)
| Resolves (a : A).
Arguments ThrowsSync {A} e.
Arguments Rejects {A} e.
Arguments Resolves {A} a.

(** [window.ABCJS], the rendering and synthesis collaborator.  [renderAbc]
    gives what it drew into its target and the list it returned ([None] for
    null or undefined); its second argument is [staffwidth] when given. *)
Record Abcjs := {
  renderAbc : jsstring -> option Z -> outcome (html * option (list VisualObj));
  CreateSynth : outcome unit;
  synth_init : VisualObj -> settled unit;
  synth_prime : VisualObj -> settled unit;
  renderMidi : jsstring -> outcome html;
  getMidiFile : VisualObj -> settled (list N)
}.

Record Window := {
  ABCJS : option Abcjs;                 (* [None]: typeof is 'undefined' *)
  newAudioContext : outcome unit        (* [new AudioContext()] *)
}.

(** The calls made to the collaborators, for counting. *)
Inductive Call :=
| CallRenderAbc
| CallCreateSynth
| CallNewAudioContext
| CallInit
| CallPrime
| CallRenderMidi
| CallGetMidiFile
| CallClose (ctx : nat).

Definition is_CreateSynth (c : Call) : bool :=
  match c with CallCreateSynth => true | _ => false end.

Definition is_Prime (c : Call) : bool :=
  match c with CallPrime => true | _ => false end.

Definition is_Init (c : Call) : bool :=
  match c with CallInit => true | _ => false end.

Inductive ContextState := Running | Closed.

(** The component's state, the content of its two containers, and the audio
    contexts constructed so far (oldest first). *)
Record State := {
  renderError : option jsstring;
  currentStaffWidth : Z;
  visual_innerHTML : html;
  audio_innerHTML : html;
  contexts : list ContextState;
  calls : list Call
}.

Definition initial : State :=
  {| renderError := None; currentStaffWidth := 0%Z;
     visual_innerHTML := []; audio_innerHTML := [];
     contexts := []; calls := [] |}.

Definition setRenderError (e : option jsstring) (st : State) : State :=
  {| renderError := e; currentStaffWidth := currentStaffWidth st;
     visual_innerHTML := visual_innerHTML st; audio_innerHTML := audio_innerHTML st;
     contexts := contexts st; calls := calls st |}.

Definition setCurrentStaffWidth (w : Z) (st : State) : State :=
  {| renderError := renderError st; currentStaffWidth := w;
     visual_innerHTML := visual_innerHTML st; audio_innerHTML := audio_innerHTML st;
     contexts := contexts st; calls := calls st |}.

Definition set_visual (h : html) (st : State) : State :=
  {| renderError := renderError st; currentStaffWidth := currentStaffWidth st;
     visual_innerHTML := h; audio_innerHTML := audio_innerHTML st;
     contexts := contexts st; calls := calls st |}.

Definition set_audio (h : html) (st : State) : State :=
  {| renderError := renderError st; currentStaffWidth := currentStaffWidth st;
     visual_innerHTML := visual_innerHTML st; audio_innerHTML := h;
     contexts := contexts st; calls := calls st |}.

Definition set_contexts (cs : list ContextState) (st : State) : State :=
  {| renderError := renderError st; currentStaffWidth := currentStaffWidth st;
     visual_innerHTML := visual_innerHTML st; audio_innerHTML := audio_innerHTML st;
     contexts := cs; calls := calls st |}.

Definition log (c : Call) (st : State) : State :=
  {| renderError := renderError st; currentStaffWidth := currentStaffWidth st;
     visual_innerHTML := visual_innerHTML st; audio_innerHTML := audio_innerHTML st;
     contexts := contexts st; calls := calls st ++ [c] |}.

(** The JSX gives [visualRef] to the [sheet-music] element only, and renders
    that element only while [renderError] is null: with an error set the
    ref is detached, so [visualRef.current] is null. *)
Definition visualRef_current (st : State) : bool :=
  match renderError st with None => true | Some _ => false end.

(** What stands in the score's place in the document.  The two branches of
    the JSX are both a [div] without key in the same position, so the one
    DOM node is kept when [renderError] changes: its attributes are
    swapped and the two paragraphs of the alert are appended to it.  What
    [renderAbc] drew into the node was not rendered by React and is not
    removed: the alert holds it still ([kept]). *)
Inductive View :=
| Alert (msg : jsstring) (kept : html)
| SheetMusic (content : html).

Definition view (st : State) : View :=
  match renderError st with
  | Some msg => Alert msg (visual_innerHTML st)
  | None => SheetMusic (visual_innerHTML st)
  end.

(** The drawn score as the document holds it, in whichever box. *)
Definition score_in_document (st : State) : html :=
  match view st with
  | Alert _ kept => kept
  | SheetMusic content => content
  end.

(** A score is on display when the document holds a drawn one. *)
Definition score_displayed (st : State) : bool := truthy (score_in_document st).

(** [calculateStaffWidth], run at mount and on every resize. *)
Definition calculateStaffWidth (clientWidth : Z) (st : State) : State :=
  if visualRef_current st then setCurrentStaffWidth (clientWidth - 40)%Z st else st.

Definition msg_visual : jsstring :=
  js "Failed to render sheet music visually. This usually means the generated ABC notation is invalid or incomplete.".

Definition msg_audio (e : JsError) : jsstring :=
  js "Could not prepare audio for playback. This can happen if the ABC notation is malformed or if the browser blocks audio. Error: "
  ++ err_text e.

Definition msg_display (e : JsError) : jsstring :=
  js "The generated music notation could not be displayed. Error: " ++ err_text e.

(** [!visualObjs || visualObjs.length === 0] *)
Definition no_visual (visualObjs : option (list VisualObj)) : option VisualObj :=
  match visualObjs with
  | Some (v :: _) => Some v
  | _ => None
  end.

(** Where one run of the effect stands. *)
Inductive Phase :=
| Idle                       (* the guard returned before anything was done *)
| VisualError
| DisplayError               (* the outer catch *)
| PrimingAudio (v : VisualObj) (ctx : nat)   (* the promise chain is pending *)
| AudioError
| Ready.

Definition close (ctx : nat) (st : State) : State :=
  match nth_error (contexts st) ctx with
  | Some Running =>
      log (CallClose ctx)
          (set_contexts (firstn ctx (contexts st) ++ Closed :: skipn (S ctx) (contexts st)) st)
  | _ => st
  end.

(** The body of the effect up to the return of [midiBuffer.init(...)]. *)
Definition effect_sync (win : Window) (musicData : GeneratedMusic) (st : State)
  : State * Phase :=
  match ABCJS win with
  | None => (st, Idle)
  | Some abcjs =>
      if negb (truthy (abcNotation musicData)) || negb (visualRef_current st)
      then (st, Idle)
      else
        let st := setRenderError None (set_audio [] (set_visual [] st)) in
        let st := log CallRenderAbc st in
        match renderAbc abcjs (abcNotation musicData) (Some (currentStaffWidth st)) with
        | Throws e => (setRenderError (Some (msg_display e)) st, DisplayError)
        | Returns (drawn, visualObjs) =>
            let st := set_visual drawn st in
            match no_visual visualObjs with
            | None => (setRenderError (Some msg_visual) st, VisualError)
            | Some v =>
                let st := log CallCreateSynth st in
                match CreateSynth abcjs with
                | Throws e => (setRenderError (Some (msg_display e)) st, DisplayError)
                | Returns _ =>
                    let st := log CallNewAudioContext st in
                    match newAudioContext win with
                    | Throws e => (setRenderError (Some (msg_display e)) st, DisplayError)
                    | Returns _ =>
                        let ctx := length (contexts st) in
                        let st := set_contexts (contexts st ++ [Running]) st in
                        let st := log CallInit st in
                        match synth_init abcjs v with
                        | ThrowsSync e =>
                            (setRenderError (Some (msg_display e)) st, DisplayError)
                        | _ => (st, PrimingAudio v ctx)
                        end
                    end
                end
            end
        end
  end.

(** The state in which the chain of a run starts. *)
Definition primed_state (drawn : html) (st : State) : State :=
  log CallInit
    (set_contexts (contexts st ++ [Running])
       (log CallNewAudioContext
          (log CallCreateSynth
             (set_visual drawn
                (log CallRenderAbc
                   (setRenderError None (set_audio [] (set_visual [] st)))))))).

(** The [.catch] handler of the chain. *)
Definition audio_failed (e : JsError) (ctx : nat) (st : State) : State * Phase :=
  (close ctx (setRenderError (Some (msg_audio e)) st), AudioError).

(** The promise chain [init().then(prime).then(renderMidi).catch(...)]. *)
Definition effect_settle (abcjs : Abcjs) (musicData : GeneratedMusic)
           (v : VisualObj) (ctx : nat) (st : State) : State * Phase :=
  match synth_init abcjs v with
  | ThrowsSync e => (st, DisplayError)
  | Rejects e => audio_failed e ctx st
  | Resolves _ =>
      let st := log CallPrime st in
      match synth_prime abcjs v with
      | ThrowsSync e => audio_failed e ctx st
      | Rejects e => audio_failed e ctx st
      | Resolves _ =>
          let st := log CallRenderMidi st in
          match renderMidi abcjs (abcNotation musicData) with
          | Throws e => audio_failed e ctx st
          | Returns controls => (set_audio controls st, Ready)
          end
      end
  end.

(** The reason the chain rejects with, if it does. *)
Definition chain_rejection (abcjs : Abcjs) (musicData : GeneratedMusic) (v : VisualObj)
  : option JsError :=
  match synth_init abcjs v with
  | ThrowsSync _ => None
  | Rejects e => Some e
  | Resolves _ =>
      match synth_prime abcjs v with
      | ThrowsSync e => Some e
      | Rejects e => Some e
      | Resolves _ =>
          match renderMidi abcjs (abcNotation musicData) with
          | Throws e => Some e
          | Returns _ => None
          end
      end
  end.

(** One run of the effect, to the end of its promise chain. *)
Definition render_effect (win : Window) (musicData : GeneratedMusic) (st : State)
  : State * Phase :=
  match effect_sync win musicData st with
  | (st1, PrimingAudio v ctx) =>
      match ABCJS win with
      | Some abcjs => effect_settle abcjs musicData v ctx st1
      | None => (st1, PrimingAudio v ctx)
      end
  | r => r
  end.

(** What a click on "Export as MIDI" ends with. *)
Inductive ExportResult :=
| Alerted (msg : jsstring)
| Downloaded (filename : jsstring) (midi : list N).

Definition msg_no_music : jsstring := js "No music to export.".
Definition msg_no_abcjs : jsstring := js "ABCJS library is not loaded. Cannot export MIDI.".
Definition msg_export_failed : jsstring := js "Failed to export MIDI. Please try again.".

(** [`${musicData.title || 'untitled'}.mid`] *)
Definition midi_filename (musicData : GeneratedMusic) : jsstring :=
  (if truthy (title musicData) then title musicData else js "untitled") ++ js ".mid".

Definition handleDownloadMidi (win : Window) (musicData : GeneratedMusic) (st : State)
  : State * ExportResult :=
  if negb (truthy (abcNotation musicData)) then (st, Alerted msg_no_music)
  else
    match ABCJS win with
    | None => (st, Alerted msg_no_abcjs)
    | Some abcjs =>
        if negb (visualRef_current st) then (st, Alerted msg_export_failed)
        else
          let st := log CallRenderAbc st in
          match renderAbc abcjs (abcNotation musicData) None with
          | Throws _ => (st, Alerted msg_export_failed)
          | Returns (_, visualObjs) =>
              match no_visual visualObjs with
              | None => (st, Alerted msg_export_failed)
              | Some v =>
                  let st := log CallCreateSynth st in
                  match CreateSynth abcjs with
                  | Throws _ => (st, Alerted msg_export_failed)
                  | Returns _ =>
                      let st := log CallNewAudioContext st in
                      match newAudioContext win with
                      | Throws _ => (st, Alerted msg_export_failed)
                      | Returns _ =>
                          let st := set_contexts (contexts st ++ [Running]) st in
                          let st := log CallInit st in
                          match synth_init abcjs v with
                          | Resolves _ =>
                              let st := log CallGetMidiFile st in
                              match getMidiFile abcjs v with
                              | Resolves midi =>
                                  (st, Downloaded (midi_filename musicData) midi)
                              | _ => (st, Alerted msg_export_failed)
                              end
                          | _ => (st, Alerted msg_export_failed)
                          end
                      end
                  end
              end
          end
    end.

Definition count_calls (p : Call -> bool) (st : State) : nat :=
  length (filter p (calls st)).

Definition running_contexts (st : State) : nat :=
  length (filter (fun c => match c with Running => true | Closed => false end)
                 (contexts st)).

End MusicDisplay.

(* ================================================================= *)
(** ** Structural lines of a notation document *)

Module Abc.

Definition is_title_line (l : jsstring) : bool := startsWith (js "T:") l.
Definition is_index_line (l : jsstring) : bool := startsWith (js "X:") l.
Definition is_key_line (l : jsstring) : bool := startsWith (js "K:") l.
Definition is_meter_line (l : jsstring) : bool := startsWith (js "M:") l.
Definition is_tempo_line (l : jsstring) : bool := startsWith (js "Q:") l.

(** An index line with value 1: [X:], optional white space, [1], line end. *)
Definition is_index1_line (l : jsstring) : bool :=
  match strip_prefix (js "X:") l with
  | Some v => JS.eqb (dropWhile isSpace v) (js "1")
  | None => false
  end.

Definition is_bar (c : code_unit) : bool := (c =? 124)%N.

(** A bar separator or a pitch letter somewhere in the text. *)
Definition has_content (s : jsstring) : bool :=
  existsb (fun c => is_bar c || isPitchLetter c) s.

Definition count_lines (P : jsstring -> bool) (s : jsstring) : nat :=
  length (filter P (lines s)).

(** The structural guarantees with "exactly one" index line of value 1 and
    "exactly one" title line. *)
Definition structure_exact (body : jsstring) : bool :=
  Nat.eqb (count_lines is_index1_line body) 1
  && Nat.eqb (count_lines is_title_line body) 1
  && Nat.leb 1 (count_lines is_key_line body)
  && Nat.leb 1 (count_lines is_meter_line body)
  && Nat.leb 1 (count_lines is_tempo_line body)
  && has_content body.

End Abc.

Import Abc.

(* ================================================================= *)
(** ** The text seen line by line *)

(** The first line of a text: up to the first line terminator. *)
Definition first_line (s : jsstring) : jsstring := takeWhile isDot s.

(** The lines that start at or after the current position, when the code
    unit before it is [prev]: the rest of a line already begun is not one. *)
Definition lines_from (prev : option code_unit) (s : jsstring) : list jsstring :=
  if at_bol prev then lines s else tl (lines s).

(** The replacement of the three header insertions, from any position. *)
Definition insert_from (line : jsstring) (prev : option code_unit) (s : jsstring)
  : jsstring :=
  match search re_xline prev s with
  | Some m => before m ++ after_group1 line m ++ after m
  | None => s
  end.

(** What the insertion does to the list of lines: the new line goes right
    behind the first line that begins with [X:]. *)
Fixpoint insert_after_index (line : jsstring) (ls : list jsstring) : list jsstring :=
  match ls with
  | [] => []
  | l :: ls' =>
      if startsWith (js "X:") l then l :: line :: ls'
      else l :: insert_after_index line ls'
  end.

(** [titleMatch && titleMatch[1]]: the title pattern matched and its group
    captured a text that is not empty. *)
Definition title_found (cleanedAbc : jsstring) : bool :=
  match String_match re_title cleanedAbc with
  | Some titleMatch => truthy (group1_text titleMatch)
  | None => false
  end.

(** The text after steps 3 to 6, as the content check of step 7 reads it. *)
Definition with_headers (cleanedAbc : jsstring) : jsstring :=
  ensure_field re_tempo (js "Q:1/4=120")
    (ensure_field re_meter (js "M:4/4")
       (ensure_field re_key (js "K:C")
          (ensure_index cleanedAbc))).

(** A text of several lines, each ended by LF except the last. *)
Fixpoint unlines (ls : list string) : jsstring :=
  match ls with
  | [] => []
  | [l] => js l
  | l :: ls' => js l ++ LF :: unlines ls'
  end.

(** The same with CR LF line ends, every line ended. *)
Definition crlf_lines (ls : list string) : jsstring :=
  concat (map (fun l => js l ++ [CR; LF]) ls).

(** *** Sample model answers *)


(** An index whose value stands on the next line. *)
Definition index_value_on_next_line : jsstring := unlines ["T:t"; "X:"; "1"].

(** A fenced answer with two title lines. *)
Definition fenced_my_song : jsstring :=
  unlines ["```abc"; "X:1"; "T:My Song"; "T:Other"; "M:4/4"; "Q:1/4=100"; "K:G";
           "GAB|"; "```"].

(** A tune whose title line is empty. *)
Definition empty_title_tune : jsstring := unlines ["X:1"; "T:"; "K:C"; "CDE|"].

(** The same with blanks after the tag. *)
Definition blank_title_tune : jsstring :=
  unlines ["X:1"; "T:   "; "M:4/4"; "K:C"; "CDE|"].

(** An answer that ends with its index line. *)
Definition index_last : jsstring := unlines ["T:Song"; "X:1"].

(** A complete tune with CR LF line ends. *)
Definition crlf_tune : jsstring := crlf_lines ["X:1"; "T:Song"; "K:G"; "GAB|"].

(** An answer whose last line is an empty title line. *)
Definition empty_title_last : jsstring := unlines ["X:1"; "T:"].

(** An answer with a title and a key that hold no pitch letter, and no notes. *)
Definition no_letters_tune : jsstring := unlines ["T:x"; "K:"; "1"].

(** An answer of one blank. *)
Definition blank_answer : jsstring := js " ".

(** An empty fenced block. *)
Definition empty_fence : jsstring := unlines ["```"; "```"].

(** *** Sample collaborators *)

Import MusicDisplay.

Definition svg : html := js "<svg>score</svg>".

Definition song : GeneratedMusic :=
  {| title := js "Song";
     abcNotation := unlines ["X:1"; "T:Song"; "M:4/4"; "Q:1/4=120"; "K:C"; "CDE|"] |}.

(** A collaborator for which every call succeeds. *)
Definition good_abcjs : Abcjs :=
  {| renderAbc := fun _ _ => Returns (svg, Some [0]);
     CreateSynth := Returns tt;
     synth_init := fun _ => Resolves tt;
     synth_prime := fun _ => Resolves tt;
     renderMidi := fun _ => Returns (js "<div>controls</div>");
     getMidiFile := fun _ => Resolves [77; 84; 104; 100]%N |}.

Definition no_audio : JsError :=
  {| message := Some (js "no audio"); as_string := js "Error: no audio" |}.

(** A collaborator that renders the score, but whose priming rejects. *)
Definition prime_fails_abcjs : Abcjs :=
  {| renderAbc := fun _ _ => Returns (svg, Some [0]);
     CreateSynth := Returns tt;
     synth_init := fun _ => Resolves tt;
     synth_prime := fun _ => Rejects no_audio;
     renderMidi := fun _ => Returns (js "<div>controls</div>");
     getMidiFile := fun _ => Resolves [77; 84; 104; 100]%N |}.

(** A collaborator that renders the score, but whose initialization rejects. *)
Definition init_fails_abcjs : Abcjs :=
  {| renderAbc := fun _ _ => Returns (svg, Some [0]);
     CreateSynth := Returns tt;
     synth_init := fun _ => Rejects no_audio;
     synth_prime := fun _ => Resolves tt;
     renderMidi := fun _ => Returns (js "<div>controls</div>");
     getMidiFile := fun _ => Resolves [77; 84; 104; 100]%N |}.

(** A collaborator whose rendering returns an empty list. *)
Definition empty_render_abcjs : Abcjs :=
  {| renderAbc := fun _ _ => Returns ([], Some []);
     CreateSynth := Returns tt;
     synth_init := fun _ => Resolves tt;
     synth_prime := fun _ => Resolves tt;
     renderMidi := fun _ => Returns (js "<div>controls</div>");
     getMidiFile := fun _ => Resolves [77; 84; 104; 100]%N |}.

Definition window_with (abcjs : Abcjs) : Window :=
  {| ABCJS := Some abcjs; newAudioContext := Returns tt |}.

(** The component right after mount, its first effect run done, and after a
    resize with the effect run again. *)
Definition after_first_run : State := fst (render_effect (window_with good_abcjs) song initial).

Definition after_resize : State :=
  fst (render_effect (window_with good_abcjs) song
         (calculateStaffWidth 800 after_first_run)).

(** The component while the promise chain of its first run is pending. *)
Definition while_priming : State := fst (effect_sync (window_with good_abcjs) song initial).

(* ================================================================= *)
(** ** services/geminiService: [generateMusic] *)

Module GeminiRequest.

Definition MIN_MUSIC_LENGTH_SECONDS : N := 150.

(** A number in a template literal. *)
Definition ToString (n : N) : jsstring := js (NilZero.string_of_uint (N.to_uint n)).

Definition textModel : jsstring := js "gemini-3-flash-preview".

Definition quote : code_unit := 34%N.

(** The instruction built around the user's prompt. *)
Definition musicPrompt (prompt : jsstring) : jsstring :=
  js "You are an expert music composer specializing in ABC notation. Generate a single-voice instrumental melody in ABC notation based on the following theme: "
  ++ quote :: prompt ++ quote
  :: js ". The melody should be at least "
  ++ ToString MIN_MUSIC_LENGTH_SECONDS
  ++ js " seconds long. Respond ONLY with the complete ABC notation code, starting with 'X:1'. You must include a title line (T:), a key line (K:), a meter line (M:), and a tempo line (Q:). Do not include any explanations, comments, or markdown formatting. Your entire response must be valid ABC notation.".

(** [ai.models.generateContent({ model, contents })]: it throws, or its
    promise rejects, or resolves with a response whose [text] may be
    undefined ([None]). *)
Record GoogleGenAI := {
  generateContent : jsstring -> jsstring -> settled (option jsstring)
}.

(** [new Error("Music generation failed to return any text.")] *)
Definition no_text : JsError :=
  {| message := Some (js "Music generation failed to return any text.");
     as_string := js "Error: Music generation failed to return any text." |}.

(** What the promise of [generateMusic] settles with, given how the one
    call to the model ended: a rejection reason or the parsed music. *)
Definition generateMusic_settles (answer : settled (option jsstring))
  : JsError + GeneratedMusic :=
  match answer with
  | ThrowsSync e => inl e
  | Rejects e => inl e
  | Resolves None => inl no_text
  | Resolves (Some musicText) =>
      if negb (truthy musicText) then inl no_text
      else inr (parseAbcResponse musicText)
  end.

(** [generateMusic(prompt)]: the one call made, and what it settles with. *)
Definition generateMusic (ai : GoogleGenAI) (prompt : jsstring)
  : (jsstring * jsstring) * (JsError + GeneratedMusic) :=
  ((textModel, musicPrompt prompt),
   generateMusic_settles (generateContent ai textModel (musicPrompt prompt))).

End GeminiRequest.

(* ================================================================= *)
(** ** components/PromptForm.tsx *)

Module PromptForm.

(** What one key press does: whether the default action is prevented and
    whether [onSubmit] is called. *)
Record KeyResult := { defaultPrevented : bool; submits : bool }.

Definition handleKeyDown (key : jsstring) (shiftKey isLoading : bool) : KeyResult :=
  if JS.eqb key (js "Enter") && negb shiftKey
  then {| defaultPrevented := true; submits := negb isLoading |}
  else {| defaultPrevented := false; submits := false |}.

(** The button carries [disabled={isLoading}] and [onClick={onSubmit}]: a
    disabled button dispatches no click. *)
Definition button_submits (isLoading : bool) : bool := negb isLoading.

End PromptForm.

(* ================================================================= *)
(** ** App *)

Module App.

(** The state of [App], with the instructions sent to the model so far and
    the promises of [generateMusic] not yet settled (oldest first), each
    with what it will settle with. *)
Record State := {
  prompt : jsstring;
  isLoading : bool;
  generatedMusic : option GeneratedMusic;
  error : option jsstring;
  sent : list (jsstring * jsstring);
  pending : list (JsError + GeneratedMusic)
}.

Definition initial : State :=
  {| prompt := js "Epic cinematic score for a space battle, orchestral with intense drums";
     isLoading := false; generatedMusic := None; error := None;
     sent := []; pending := [] |}.

Definition setPrompt (v : jsstring) (st : State) : State :=
  {| prompt := v; isLoading := isLoading st; generatedMusic := generatedMusic st;
     error := error st; sent := sent st; pending := pending st |}.

Definition msg_enter_prompt : jsstring := js "Please enter a prompt.".

(** [`Failed to generate music. ${e.message || 'Please try again.'}`] *)
Definition msg_failed (e : JsError) : jsstring :=
  js "Failed to generate music. "
  ++ match message e with
     | Some m => if truthy m then m else js "Please try again."
     | None => js "Please try again."
     end.

(** [handleGenerate] up to its [await]. *)
Definition handleGenerate (ai : GeminiRequest.GoogleGenAI) (st : State) : State :=
  if negb (truthy (trim (prompt st)))
  then {| prompt := prompt st; isLoading := isLoading st;
          generatedMusic := generatedMusic st;
          error := Some msg_enter_prompt; sent := sent st; pending := pending st |}
  else
    let call := GeminiRequest.generateMusic ai (prompt st) in
    {| prompt := prompt st; isLoading := true; generatedMusic := None;
       error := None; sent := sent st ++ [fst call];
       pending := pending st ++ [snd call] |}.

(** [handleGenerate] from its [await] on, for the oldest pending promise:
    [try] or [catch], then [finally]. *)
Definition settle (st : State) : State :=
  match pending st with
  | [] => st
  | inr result :: rest =>
      {| prompt := prompt st; isLoading := false; generatedMusic := Some result;
         error := error st; sent := sent st; pending := rest |}
  | inl e :: rest =>
      {| prompt := prompt st; isLoading := false; generatedMusic := generatedMusic st;
         error := Some (msg_failed e); sent := sent st; pending := rest |}
  end.

(** What the user and the model can do to the page. *)
Inductive Event :=
| Typed (value : jsstring)                 (* [onChange] of the textarea *)
| KeyDown (key : jsstring) (shiftKey : bool)
| Click                                    (* the button *)
| Settle.                                  (* the oldest pending promise settles *)

Definition step (ai : GeminiRequest.GoogleGenAI) (ev : Event) (st : State) : State :=
  match ev with
  | Typed v => setPrompt v st
  | KeyDown key shiftKey =>
      if PromptForm.submits (PromptForm.handleKeyDown key shiftKey (isLoading st))
      then handleGenerate ai st else st
  | Click => if PromptForm.button_submits (isLoading st) then handleGenerate ai st else st
  | Settle => settle st
  end.

Fixpoint run (ai : GeminiRequest.GoogleGenAI) (evs : list Event) (st : State) : State :=
  match evs with
  | [] => st
  | ev :: evs' => run ai evs' (step ai ev st)
  end.

(** The four conditional blocks of [main]. *)
Inductive Panel :=
| ErrorPanel (msg : jsstring)
| Spinner
| MusicPanel (musicData : GeneratedMusic)
| Placeholder.

(** [error && ...] renders its block for a non-empty string only. *)
Definition error_shown (st : State) : option jsstring :=
  match error st with
  | Some e => if truthy e then Some e else None
  | None => None
  end.

Definition panels (st : State) : list Panel :=
  (match error_shown st with Some e => [ErrorPanel e] | None => [] end)
  ++ (if isLoading st then [Spinner] else [])
  ++ (match generatedMusic st with
      | Some m => if negb (isLoading st) then [MusicPanel m] else []
      | None => []
      end)
  ++ (match generatedMusic st, isLoading st, error_shown st with
      | None, false, None => [Placeholder]
      | _, _, _ => []
      end).

(** What the page is meant to keep at every moment. *)
Definition consistent (st : State) : Prop :=
  length (pending st) <= 1
  /\ (isLoading st = true <-> pending st <> [])
  /\ (isLoading st = true -> error st = None /\ generatedMusic st = None)
  /\ (forall e m, error st = Some e -> generatedMusic st = Some m ->
                  e = msg_enter_prompt)
  /\ Forall (fun i => exists p, truthy (trim p) = true
                                /\ i = (GeminiRequest.textModel, GeminiRequest.musicPrompt p))
            (sent st)
  /\ (forall m, generatedMusic st = Some m ->
                exists raw, truthy raw = true /\ m = parseAbcResponse raw)
  /\ Forall (fun r => match r with
                      | inr m => exists raw, truthy raw = true /\ m = parseAbcResponse raw
                      | inl _ => True
                      end) (pending st).

End App.

(* ================================================================= *)
(** ** components/MusicDisplay.tsx: the SVG export and the component's life *)

Module DisplayLife.

Inductive SvgResult :=
| SvgAlerted (msg : jsstring)
| SvgDownloaded (filename : jsstring) (data : jsstring).

Definition msg_no_sheet : jsstring := js "No sheet music to export as SVG.".
Definition msg_no_svg : jsstring := js "Could not find SVG content to export.".

(** [`${musicData.title || 'untitled'}.svg`] *)
Definition svg_filename (musicData : GeneratedMusic) : jsstring :=
  (if truthy (title musicData) then title musicData else js "untitled") ++ js ".svg".

(** [handleDownloadSvg]; [serialize] stands for
    [visualRef.current.querySelector('svg')] followed by
    [XMLSerializer.serializeToString], [None] when no [svg] element is found. *)
Definition handleDownloadSvg (serialize : html -> option jsstring)
           (musicData : GeneratedMusic) (st : State) : SvgResult :=
  if negb (truthy (abcNotation musicData)) || negb (visualRef_current st)
  then SvgAlerted msg_no_sheet
  else
    match serialize (visual_innerHTML st) with
    | Some svgData => SvgDownloaded (svg_filename musicData) svgData
    | None => SvgAlerted msg_no_svg
    end.

(** Where a promise chain of the effect stands: it waits for the promise
    of [init] or for the promise of [prime]. *)
Inductive Stage := AwaitsInit | AwaitsPrime.

(** A chain that has not come to its end, with what its run closed over:
    the library, the props, the visual object and the audio context. *)
Record Chain := {
  chain_abcjs : Abcjs;
  chain_music : GeneratedMusic;
  chain_visual : VisualObj;
  chain_context : nat;
  chain_stage : Stage
}.

Definition awaiting_prime (c : Chain) : Chain :=
  {| chain_abcjs := chain_abcjs c; chain_music := chain_music c;
     chain_visual := chain_visual c; chain_context := chain_context c;
     chain_stage := AwaitsPrime |}.

(** The promise a chain waits for settles, and the handlers behind it run,
    up to the next promise or to the end of the chain ([None]): [prime] is
    called when [init] resolved, [renderMidi] when [prime] resolved, and the
    [.catch] handler on any rejection or throw.  The handlers work on the
    state the component has by then. *)
Definition chain_step (c : Chain) (st : State) : State * option Chain :=
  match chain_stage c with
  | AwaitsInit =>
      match synth_init (chain_abcjs c) (chain_visual c) with
      | ThrowsSync _ => (st, None)
      | Rejects e => (fst (audio_failed e (chain_context c) st), None)
      | Resolves _ =>
          let st := log CallPrime st in
          match synth_prime (chain_abcjs c) (chain_visual c) with
          | ThrowsSync e => (fst (audio_failed e (chain_context c) st), None)
          | _ => (st, Some (awaiting_prime c))
          end
      end
  | AwaitsPrime =>
      match synth_prime (chain_abcjs c) (chain_visual c) with
      | ThrowsSync _ => (st, None)
      | Rejects e => (fst (audio_failed e (chain_context c) st), None)
      | Resolves _ =>
          let st := log CallRenderMidi st in
          match renderMidi (chain_abcjs c) (abcNotation (chain_music c)) with
          | Throws e => (fst (audio_failed e (chain_context c) st), None)
          | Returns controls => (set_audio controls st, None)
          end
      end
  end.

(** A mounted [MusicDisplay]: the component's state and the chains of its
    effect runs that are still pending, oldest first. *)
Record Life := { shown : State; chains : list Chain }.

Definition mounted (st : State) : Life := {| shown := st; chains := [] |}.

(** One run of the effect's body: it ends when [init] has returned its
    promise, and leaves the chain pending. *)
Definition start_effect (win : Window) (musicData : GeneratedMusic) (life : Life) : Life :=
  match effect_sync win musicData (shown life) with
  | (st, PrimingAudio v ctx) =>
      match ABCJS win with
      | Some abcjs =>
          {| shown := st;
             chains := chains life
                       ++ [{| chain_abcjs := abcjs; chain_music := musicData;
                              chain_visual := v; chain_context := ctx;
                              chain_stage := AwaitsInit |}] |}
      | None => {| shown := st; chains := chains life |}
      end
  | (st, _) => {| shown := st; chains := chains life |}
  end.

(** The [i]-th pending chain moves on. *)
Definition settle (i : nat) (life : Life) : Life :=
  match nth_error (chains life) i with
  | None => life
  | Some c =>
      {| shown := fst (chain_step c (shown life));
         chains := firstn i (chains life)
                   ++ match snd (chain_step c (shown life)) with
                      | Some c' => [c']
                      | None => []
                      end
                   ++ skipn (S i) (chains life) |}
  end.

(** What React and the user do to a mounted [MusicDisplay]: the effect runs
    (for a new notation or a new width), the window is resized, the MIDI
    export is clicked.  The export awaits too, but what it does behind its
    awaits changes nothing of the component's state except the record of
    calls, so it is taken in one piece. *)
Inductive Action :=
| EffectRun (win : Window) (musicData : GeneratedMusic)
| Resized (clientWidth : Z)
| ExportMidi (win : Window) (musicData : GeneratedMusic).

Definition act (a : Action) (life : Life) : Life :=
  match a with
  | EffectRun win musicData => start_effect win musicData life
  | Resized clientWidth =>
      {| shown := calculateStaffWidth clientWidth (shown life); chains := chains life |}
  | ExportMidi win musicData =>
      {| shown := fst (handleDownloadMidi win musicData (shown life));
         chains := chains life |}
  end.

(** What happens in the life of the component: an action, or a promise that
    a pending chain waits for settles.  The chains settle in any order and
    at any time between the actions. *)
Inductive Event :=
| Does (a : Action)
| ChainSettles (i : nat).

Definition step (ev : Event) (life : Life) : Life :=
  match ev with
  | Does a => act a life
  | ChainSettles i => settle i life
  end.

Fixpoint run (evs : list Event) (life : Life) : Life :=
  match evs with
  | [] => life
  | ev :: evs' => run evs' (step ev life)
  end.

(** A context that no pending chain holds. *)
Definition unheld (i : nat) (life : Life) : Prop :=
  forall c, In c (chains life) -> chain_context c <> i.

(** The calls of a run that gets through, in their order. *)
Definition full_run : list Call :=
  [CallRenderAbc; CallCreateSynth; CallNewAudioContext; CallInit; CallPrime;
   CallRenderMidi].

End DisplayLife.

(* ================================================================= *)
(** ** Vocabulary for the normalizer's further properties *)

(** [subseq xs ys]: [xs] is [ys] with some elements left out. *)
Inductive subseq {A : Type} : list A -> list A -> Prop :=
| subseq_nil : subseq [] []
| subseq_skip (y : A) (xs ys : list A) : subseq xs ys -> subseq xs (y :: ys)
| subseq_keep (x : A) (xs ys : list A) : subseq xs ys -> subseq (x :: xs) (x :: ys).

(** The text holds three backticks in a row somewhere. *)
Fixpoint has_fence (s : jsstring) : bool :=
  match s with
  | [] => false
  | c :: s' => startsWith (js "```") s || has_fence s'
  end.

(** The text neither begins nor ends with white space. *)
Definition is_trimmed (s : jsstring) : bool :=
  match s with [] => true | c :: _ => negb (isSpace c) end
  && match rev s with [] => true | c :: _ => negb (isSpace c) end.

(** One step that leaves the lines in place and adds at most one. *)
Definition adds_a_line (s s' : jsstring) : Prop :=
  subseq (lines s) (lines s') /\ length (lines s') <= S (length (lines s)).

(** The global replacement of the fences, from any position. *)
Definition unfence_from (prev : option code_unit) (s : jsstring) (skip : nat) : jsstring :=
  replace_all_from re_fence [] prev s skip.

(** A model that answers every instruction with the same text. *)
Definition answering (text : jsstring) : GeminiRequest.GoogleGenAI :=
  {| GeminiRequest.generateContent := fun _ _ => Resolves (Some text) |}.

(** A model whose call rejects. *)
Definition unreachable_model : GeminiRequest.GoogleGenAI :=
  {| GeminiRequest.generateContent := fun _ _ => Rejects no_audio |}.

(** A click, the answer, then a blank prompt and another click. *)
Definition blank_after_success : list App.Event :=
  [App.Click; App.Settle; App.Typed (js "  "); App.Click].

(* ================================================================= *)
(** ** Lines of a text *)

Section LinesFacts.

Lemma lines_not_nil (s : jsstring) : lines s <> [].
Proof.
  destruct s as [|c s]; simpl; [discriminate|].
  destruct (isLineTerminator c); [discriminate|].
  destruct (lines s); discriminate.
Qed.

Lemma lines_cons (c : code_unit) (s : jsstring) :
  lines (c :: s) =
  if isLineTerminator c then [] :: lines s
  else (c :: hd [] (lines s)) :: tl (lines s).
Proof.
  simpl. destruct (isLineTerminator c); [reflexivity|].
  destruct (lines s) eqn:E; [now apply lines_not_nil in E|reflexivity].
Qed.

Lemma hd_lines (s : jsstring) : hd [] (lines s) = first_line s.
Proof.
  induction s as [|c s IH]; [reflexivity|].
  rewrite lines_cons. unfold first_line, isDot in *. simpl.
  destruct (isLineTerminator c); simpl; [reflexivity|now rewrite IH].
Qed.

Lemma lines_from_cons (prev : option code_unit) (c : code_unit) (s : jsstring) :
  lines_from prev (c :: s) =
  if at_bol prev then first_line (c :: s) :: lines_from (Some c) s
  else lines_from (Some c) s.
Proof.
  unfold lines_from. rewrite lines_cons. simpl at_bol.
  unfold first_line, isDot. simpl takeWhile.
  destruct (isLineTerminator c); simpl; destruct (at_bol prev); simpl;
    try reflexivity.
  now rewrite hd_lines.
Qed.

Lemma lines_from_nil (prev : option code_unit) :
  lines_from prev [] = if at_bol prev then [[]] else [].
Proof. unfold lines_from. now destruct (at_bol prev). Qed.

Lemma lines_app_dots (l s : jsstring) :
  forallb isDot l = true ->
  lines (l ++ s) = (l ++ hd [] (lines s)) :: tl (lines s).
Proof.
  induction l as [|c l IH]; simpl app; intros H.
  - destruct (lines s) eqn:E; [now apply lines_not_nil in E|reflexivity].
  - simpl in H. apply andb_true_iff in H as [Hc Hl].
    rewrite lines_cons. unfold isDot in Hc.
    destruct (isLineTerminator c); [discriminate|].
    now rewrite (IH Hl).
Qed.

(** A line, a terminator, and the rest. *)
Lemma lines_app_break (l : jsstring) (c : code_unit) (s : jsstring) :
  forallb isDot l = true -> isLineTerminator c = true ->
  lines (l ++ c :: s) = l :: lines s.
Proof.
  intros Hl Hc. rewrite (lines_app_dots _ _ Hl), lines_cons, Hc. simpl.
  now rewrite app_nil_r.
Qed.

Lemma lines_dots (l : jsstring) :
  forallb isDot l = true -> lines l = [l].
Proof.
  intros Hl. rewrite <- (app_nil_r l) at 1.
  rewrite (lines_app_dots _ _ Hl). simpl. now rewrite app_nil_r.
Qed.

Lemma takeWhile_dropWhile (p : code_unit -> bool) (s : jsstring) :
  takeWhile p s ++ dropWhile p s = s.
Proof.
  induction s as [|c s IH]; [reflexivity|]. simpl.
  destruct (p c); simpl; [now rewrite IH|reflexivity].
Qed.

Lemma takeWhile_all (p : code_unit -> bool) (s : jsstring) :
  forallb p (takeWhile p s) = true.
Proof.
  induction s as [|c s IH]; [reflexivity|]. simpl.
  destruct (p c) eqn:E; simpl; [now rewrite E|reflexivity].
Qed.

Lemma dropWhile_head (p : code_unit -> bool) (s : jsstring) :
  match dropWhile p s with [] => True | c :: _ => p c = false end.
Proof.
  induction s as [|c s IH]; [exact I|]. simpl.
  destruct (p c) eqn:E; [exact IH|exact E].
Qed.

Lemma takeWhile_app_stop (p : code_unit -> bool) (l r : jsstring) :
  forallb p l = true ->
  match r with [] => True | c :: _ => p c = false end ->
  takeWhile p (l ++ r) = l /\ dropWhile p (l ++ r) = r.
Proof.
  intros Hl Hr. induction l as [|c l IH]; simpl.
  - destruct r as [|d r]; [now split|]. simpl. now rewrite Hr.
  - simpl in Hl. apply andb_true_iff in Hl as [Hc Hl]. rewrite Hc.
    destruct (IH Hl) as [-> ->]. now split.
Qed.

Lemma length_dropWhile (p : code_unit -> bool) (s : jsstring) :
  length s - length (dropWhile p s) = length (takeWhile p s).
Proof.
  rewrite <- (takeWhile_dropWhile p s) at 1. rewrite length_app. lia.
Qed.

Lemma firstn_takeWhile (p : code_unit -> bool) (s : jsstring) :
  firstn (length s - length (dropWhile p s)) s = takeWhile p s.
Proof.
  rewrite length_dropWhile.
  rewrite <- (takeWhile_dropWhile p s) at 2.
  now rewrite firstn_app, Nat.sub_diag, firstn_all, app_nil_r.
Qed.

Lemma strip_prefix_app (p s : jsstring) : strip_prefix p (p ++ s) = Some s.
Proof.
  induction p as [|c p IH]; [reflexivity|]. simpl. now rewrite N.eqb_refl.
Qed.

Lemma strip_prefix_some (p s r : jsstring) :
  strip_prefix p s = Some r -> s = p ++ r.
Proof.
  revert s. induction p as [|c p IH]; simpl; intros s H.
  - now inversion H.
  - destruct s as [|d s]; [discriminate|].
    destruct (N.eqb_spec d c); [|discriminate]. subst. now rewrite (IH _ H).
Qed.

Lemma startsWith_app (p s : jsstring) : startsWith p (p ++ s) = true.
Proof. unfold startsWith. now rewrite strip_prefix_app. Qed.

(** A tag without line terminators is a prefix of a text exactly when it is
    a prefix of the text's first line. *)
Lemma startsWith_first_line (p s : jsstring) :
  forallb isDot p = true ->
  startsWith p (first_line s) = startsWith p s.
Proof.
  unfold startsWith, first_line. revert s.
  induction p as [|c p IH]; intros s Hp; [reflexivity|].
  simpl in Hp. apply andb_true_iff in Hp as [Hc Hp].
  destruct s as [|d s]; [reflexivity|]. simpl.
  destruct (N.eqb_spec d c) as [->|Hne].
  - rewrite Hc. simpl. rewrite N.eqb_refl. now apply IH.
  - destruct (isDot d); simpl; [|reflexivity].
    destruct (N.eqb_spec d c); [contradiction|reflexivity].
Qed.

Lemma eqb_eq (s t : jsstring) : JS.eqb s t = true -> s = t.
Proof.
  revert t. induction s as [|c s IH]; intros [|d t]; simpl; try discriminate.
  - reflexivity.
  - intros H. apply andb_true_iff in H as [H1 H2].
    apply N.eqb_eq in H1. subst. now rewrite (IH _ H2).
Qed.

Lemma at_eol_dropWhile (s : jsstring) : at_eol (dropWhile isDot s) = true.
Proof.
  pose proof (dropWhile_head isDot s) as H.
  destruct (dropWhile isDot s) as [|c r]; [reflexivity|].
  simpl. unfold isDot in H. now destruct (isLineTerminator c).
Qed.

End LinesFacts.

(* ================================================================= *)
(** ** Facts about the matcher *)

Section MatcherFacts.

Lemma last_of_cons (prev : option code_unit) (c : code_unit) (l : jsstring) :
  last_of prev (c :: l) = last_of (Some c) l.
Proof.
  unfold last_of. simpl. destruct (rev l) as [|d r]; reflexivity.
Qed.

(** The greedy choice wins whenever the continuation accepts it. *)
Lemma star_accept (A : Type) (p : code_unit -> bool) (s : jsstring) :
  forall (prev : option code_unit) (k : option code_unit -> jsstring -> option A) (a : A),
    k (last_of prev (takeWhile p s)) (dropWhile p s) = Some a ->
    star p prev s k = Some a.
Proof.
  induction s as [|c s IH]; intros prev k a H; simpl in *.
  - exact H.
  - destruct (p c).
    + rewrite last_of_cons in H. now rewrite (IH _ _ _ H).
    + exact H.
Qed.

(** A pattern that opens with [^] and a tag matches only at a line start
    where the tag stands. *)
Lemma exec_anchored_inv (tag : jsstring) (r : regex) (prev : option code_unit)
      (s : jsstring) (res : jsstring * option jsstring) :
  exec_at (Cat BolM (Cat (Str tag) r)) prev s = Some res ->
  at_bol prev = true /\ startsWith tag s = true.
Proof.
  unfold exec_at, startsWith. simpl.
  destruct (at_bol prev); [|discriminate].
  destruct (strip_prefix tag s); [now split|discriminate].
Qed.

Lemma exec_xline (prev : option code_unit) (s : jsstring) :
  exec_at re_xline prev s =
  if at_bol prev then
    match strip_prefix (js "X:") s with
    | Some s2 => Some (dropWhile isDot s2, Some (js "X:" ++ takeWhile isDot s2))
    | None => None
    end
  else None.
Proof.
  unfold exec_at, re_xline. cbn [run].
  destruct (at_bol prev); [|reflexivity].
  destruct (strip_prefix (js "X:") s) as [s2|] eqn:E; [|reflexivity].
  apply star_accept. apply strip_prefix_some in E. subst s.
  do 3 f_equal.
  replace (length (js "X:" ++ s2) - length (dropWhile isDot s2))
    with (length (js "X:") + (length s2 - length (dropWhile isDot s2))).
  - rewrite firstn_app_2. now rewrite firstn_takeWhile.
  - rewrite length_app.
    pose proof (f_equal (@length _) (takeWhile_dropWhile isDot s2)) as Hlen.
    rewrite length_app in Hlen. lia.
Qed.

(** The title pattern at the start of a title line: group 1 is the text of
    the line behind the tag and the white space after it.  The text may be
    empty only at the end of the input: elsewhere the white-space run goes
    on across the line break. *)
Lemma exec_title_line (prev : option code_unit) (w t rest : jsstring) :
  at_bol prev = true ->
  forallb isSpace w = true ->
  forallb isDot t = true ->
  match t with [] => rest = [] | c :: _ => isSpace c = false end ->
  at_eol rest = true ->
  exec_at re_title prev (js "T:" ++ w ++ t ++ rest) = Some (rest, Some t).
Proof.
  intros Hb Hw Ht Hsp He.
  unfold exec_at, re_title. cbn [run]. rewrite Hb, strip_prefix_app.
  assert (Hstop : match rest with [] => True | c :: _ => isDot c = false end).
  { destruct rest as [|c rest]; [exact I|]. unfold isDot. simpl in He. now rewrite He. }
  destruct (takeWhile_app_stop isDot t rest Ht Hstop) as [_ Hdw].
  assert (Hstop' : match t ++ rest with [] => True | c :: _ => isSpace c = false end).
  { destruct t as [|c t]; [now rewrite Hsp|exact Hsp]. }
  destruct (takeWhile_app_stop isSpace w (t ++ rest) Hw Hstop') as [_ Hs2].
  apply star_accept. rewrite Hs2. cbn [run].
  apply star_accept. rewrite Hdw, He.
  do 3 f_equal. rewrite length_app.
  replace (length t + length rest - length rest) with (length t) by lia.
  now rewrite firstn_app, Nat.sub_diag, firstn_all, app_nil_r.
Qed.

End MatcherFacts.

(* ================================================================= *)
(** ** The patterns on small texts *)

Example fence_with_language :
  replace_all re_fence [] (js "```abcX:1```") = js "X:1".
Proof. reflexivity. Qed.

Example fence_leaves_shorter_runs :
  replace_all re_fence [] (js "`````abc``` ``x```abcabc") = js "``abc ``xabc".
Proof. reflexivity. Qed.

Example trim_strips_both_ends :
  trim (LF :: js "  X:1 " ++ [CR; LF]) = js "X:1".
Proof. reflexivity. Qed.

Example title_on_its_line :
  option_map group1 (String_match re_title (unlines ["X:1"; "T: My Song"; "K:C"]))
  = Some (Some (js "My Song")).
Proof. reflexivity. Qed.

Example title_space_run_crosses_lines :
  option_map group1 (String_match re_title (unlines ["T:"; "K:C"]))
  = Some (Some (js "K:C")).
Proof. reflexivity. Qed.

Example title_empty_at_end :
  option_map group1 (String_match re_title (unlines ["X:1"; "T:"]))
  = Some (Some []).
Proof. reflexivity. Qed.

Example index_check_on_its_line : test re_index (unlines ["T:t"; "X: 1"; "K:C"]) = true.
Proof. reflexivity. Qed.

Example index_check_wants_value_1 : test re_index (unlines ["X:12"; "K:C"]) = false.
Proof. reflexivity. Qed.

Example index_check_crosses_lines : test re_index index_value_on_next_line = true.
Proof. reflexivity. Qed.

Example key_check_wants_line_feed :
  test re_key (unlines ["X:1"; "K:C"; "CDE|"]) = true
  /\ test re_key (unlines ["X:1"; "K:C"]) = false
  /\ test re_key (crlf_lines ["X:1"; "K:C"; "CDE|"]) = false.
Proof. repeat split. Qed.

Example key_check_backtracks :
  test re_key (unlines ["K:"; "1"]) = true.
Proof. reflexivity. Qed.

Example insertion_behind_first_index_line :
  replace re_xline (after_group1 (js "K:C")) (unlines ["T:t"; "X:1"; "CDE|"; "X:2"])
  = unlines ["T:t"; "X:1"; "K:C"; "CDE|"; "X:2"].
Proof. reflexivity. Qed.

Example index_value_is_lost :
  abcNotation (parseAbcResponse index_value_on_next_line)
  = unlines ["T:t"; "X:"; "Q:1/4=120"; "M:4/4"; "K:C"; "1"]
  /\ test re_index (snd (with_title (strip_fences index_value_on_next_line))) = true
  /\ count_lines is_index1_line (abcNotation (parseAbcResponse index_value_on_next_line)) = 0.
Proof. vm_compute. repeat split. Qed.

Example parse_empty :
  parseAbcResponse [] =
  {| title := js "Untitled Composition";
     abcNotation := unlines ["X:1"; "Q:1/4=120"; "M:4/4"; "K:C";
                             "T:Untitled Composition"; ""] |}.
Proof. vm_compute. reflexivity. Qed.

Example parse_fenced_tune :
  parseAbcResponse fenced_my_song =
  {| title := js "My Song";
     abcNotation := unlines ["X:1"; "T:My Song"; "T:Other"; "M:4/4"; "Q:1/4=100";
                             "K:G"; "GAB|"] |}.
Proof. vm_compute. reflexivity. Qed.

(* ================================================================= *)
(** ** Searching line by line *)

Section SearchFacts.

Lemma search_eq (r : regex) (prev : option code_unit) (s : jsstring) :
  search r prev s =
  match exec_at r prev s with
  | Some (rest, cap) =>
      Some {| before := []; matched := firstn (length s - length rest) s;
              group1 := cap; after := rest |}
  | None =>
      match s with
      | [] => None
      | c :: s' => option_map (shift c) (search r (Some c) s')
      end
  end.
Proof. destruct s; reflexivity. Qed.

(** A match of an anchored pattern stands at the start of a line that
    begins with the pattern's tag. *)
Lemma search_finds_line (tag : jsstring) (r : regex) :
  forallb isDot tag = true ->
  forall (s : jsstring) (prev : option code_unit) (m : MatchResult),
    search (Cat BolM (Cat (Str tag) r)) prev s = Some m ->
    existsb (startsWith tag) (lines_from prev s) = true.
Proof.
  intros Htag. induction s as [|c s IH]; intros prev m H; rewrite search_eq in H.
  - destruct (exec_at _ prev []) as [[rest cap]|] eqn:E; [|discriminate].
    apply exec_anchored_inv in E as [Hb Hs].
    rewrite lines_from_nil, Hb. simpl. now rewrite Hs.
  - destruct (exec_at _ prev (c :: s)) as [[rest cap]|] eqn:E.
    + apply exec_anchored_inv in E as [Hb Hs].
      rewrite lines_from_cons, Hb. simpl existsb.
      now rewrite (startsWith_first_line _ _ Htag), Hs.
    + destruct (search _ (Some c) s) as [m'|] eqn:E2; [|discriminate].
      apply IH in E2. rewrite lines_from_cons.
      destruct (at_bol prev); simpl; rewrite E2; [apply orb_true_r|reflexivity].
Qed.

Lemma replace_xline_insert_from (line s : jsstring) :
  replace re_xline (after_group1 line) s = insert_from line None s.
Proof. reflexivity. Qed.

Lemma first_line_dropWhile (s : jsstring) : first_line (dropWhile isDot s) = [].
Proof.
  unfold first_line. pose proof (dropWhile_head isDot s) as H.
  destruct (dropWhile isDot s) as [|c r]; [reflexivity|]. simpl. now rewrite H.
Qed.

Lemma lines_line_rest (xl s2 : jsstring) :
  forallb isDot xl = true ->
  lines (xl ++ dropWhile isDot s2) = xl :: tl (lines (dropWhile isDot s2)).
Proof.
  intros Hx.
  now rewrite (lines_app_dots _ _ Hx), hd_lines, first_line_dropWhile, app_nil_r.
Qed.

Lemma lines_line_ins (xl line s2 : jsstring) :
  forallb isDot xl = true -> forallb isDot line = true ->
  lines ((xl ++ LF :: line) ++ dropWhile isDot s2)
  = xl :: line :: tl (lines (dropWhile isDot s2)).
Proof.
  intros Hx Hline. rewrite <- app_assoc.
  change ((LF :: line) ++ dropWhile isDot s2) with (LF :: (line ++ dropWhile isDot s2)).
  rewrite (lines_app_break _ LF _ Hx eq_refl).
  now rewrite (lines_line_rest _ s2 Hline).
Qed.

Lemma insert_from_skip (line : jsstring) (prev : option code_unit)
      (c : code_unit) (s : jsstring) :
  exec_at re_xline prev (c :: s) = None ->
  insert_from line prev (c :: s) = c :: insert_from line (Some c) s.
Proof.
  intros E. unfold insert_from. rewrite search_eq, E.
  destruct (search re_xline (Some c) s) as [m|]; reflexivity.
Qed.

Lemma first_line_cons (c : code_unit) (s : jsstring) :
  first_line (c :: s) = if isDot c then c :: first_line s else [].
Proof. reflexivity. Qed.

Lemma insert_from_lines (line : jsstring) :
  forallb isDot line = true ->
  forall (s : jsstring) (prev : option code_unit),
    lines_from prev (insert_from line prev s)
    = insert_after_index line (lines_from prev s)
    /\ (at_bol prev = false ->
        first_line (insert_from line prev s) = first_line s).
Proof.
  intros Hline. induction s as [|c s IH]; intros prev.
  - unfold insert_from. rewrite search_eq, exec_xline.
    destruct (at_bol prev) eqn:Hb; simpl; rewrite lines_from_nil, Hb; now split.
  - destruct (exec_at re_xline prev (c :: s)) as [[rest cap]|] eqn:E.
    + unfold insert_from. rewrite search_eq, E.
      rewrite exec_xline in E.
      destruct (at_bol prev) eqn:Hb; [|discriminate].
      destruct (strip_prefix (js "X:") (c :: s)) as [s2|] eqn:Es; [|discriminate].
      inversion E; subst rest cap; clear E.
      apply strip_prefix_some in Es. rewrite Es.
      split; [|discriminate].
      unfold lines_from. rewrite Hb. unfold after_group1, group1_text.
      cbn [before after group1].
      assert (Hx : forallb isDot (js "X:" ++ takeWhile isDot s2) = true).
      { rewrite forallb_app, takeWhile_all. reflexivity. }
      change (lines (((js "X:" ++ takeWhile isDot s2) ++ LF :: line) ++ dropWhile isDot s2)
              = insert_after_index line (lines (js "X:" ++ s2))).
      rewrite (lines_line_ins _ _ s2 Hx Hline).
      replace (js "X:" ++ s2)
        with ((js "X:" ++ takeWhile isDot s2) ++ dropWhile isDot s2)
        by (now rewrite <- app_assoc, takeWhile_dropWhile).
      rewrite (lines_line_rest _ s2 Hx).
      cbn [insert_after_index]. now rewrite startsWith_app.
    + rewrite (insert_from_skip _ _ _ _ E).
      destruct (IH (Some c)) as [IH1 IH2].
      assert (Hfl : first_line (c :: insert_from line (Some c) s) = first_line (c :: s)).
      { rewrite !first_line_cons. unfold isDot.
        destruct (isLineTerminator c) eqn:Hc; simpl; [reflexivity|].
        fold isDot. now rewrite (IH2 Hc). }
      split; [|intros _; exact Hfl].
      rewrite !lines_from_cons, IH1, Hfl.
      destruct (at_bol prev) eqn:Hb; [|reflexivity].
      cbn [insert_after_index].
      rewrite (startsWith_first_line (js "X:") (c :: s) eq_refl).
      rewrite exec_xline, Hb in E. unfold startsWith.
      destruct (strip_prefix (js "X:") (c :: s)); [discriminate|reflexivity].
Qed.

(** The insertion seen on the lines of the whole text. *)
Lemma replace_xline_lines (line s : jsstring) :
  forallb isDot line = true ->
  lines (replace re_xline (after_group1 line) s)
  = insert_after_index line (lines s).
Proof.
  intros Hline. rewrite replace_xline_insert_from.
  exact (proj1 (insert_from_lines line Hline s None)).
Qed.

Lemma lines_app_terminator (s : jsstring) (c : code_unit) (t : jsstring) :
  isLineTerminator c = true ->
  lines (s ++ c :: t) = lines s ++ lines t.
Proof.
  intros Hc. induction s as [|d s IH]; simpl app.
  - now rewrite lines_cons, Hc.
  - rewrite !lines_cons, IH.
    destruct (isLineTerminator d); [reflexivity|].
    pose proof (lines_not_nil s) as Hn.
    destruct (lines s) as [|l ls]; [contradiction|reflexivity].
Qed.

End SearchFacts.

Section NormalizerSteps.


Lemma ensure_index_lines (c : jsstring) :
  lines (ensure_index c) =
  if negb (test re_index c) then js "X:1" :: lines c else lines c.
Proof.
  unfold ensure_index. destruct (negb (test re_index c)); [|reflexivity].
  now rewrite (lines_app_break (js "X:1") LF c).
Qed.

Lemma ensure_field_lines (check : regex) (line c : jsstring) :
  forallb isDot line = true ->
  lines (ensure_field check line c) =
  if negb (test check c) then insert_after_index line (lines c) else lines c.
Proof.
  intros Hl. unfold ensure_field. destruct (negb (test check c)); [|reflexivity].
  now apply replace_xline_lines.
Qed.

Lemma ensure_content_lines (c : jsstring) :
  lines (ensure_content c) =
  if negb (test re_bar c) && negb (test re_pitch c)
  then lines c ++ [js "C |"] else lines c.
Proof.
  unfold ensure_content.
  destruct (negb (test re_bar c) && negb (test re_pitch c)); [|reflexivity].
  now rewrite (lines_app_terminator c LF (js "C |")).
Qed.

(** Lines are only ever added. *)
Lemma insert_after_index_keeps (P : jsstring -> bool) (line : jsstring)
      (ls : list jsstring) :
  existsb P ls = true -> existsb P (insert_after_index line ls) = true.
Proof.
  induction ls as [|l ls IH]; simpl; [discriminate|].
  intros H. destruct (startsWith (js "X:") l); simpl.
  - destruct (P l); [reflexivity|]. simpl in H. rewrite H. apply orb_true_r.
  - destruct (P l); [reflexivity|]. now apply IH.
Qed.


Lemma insert_after_index_filter (P : jsstring -> bool) (line : jsstring)
      (ls : list jsstring) :
  P line = false -> filter P (insert_after_index line ls) = filter P ls.
Proof.
  intros HP. induction ls as [|l ls IH]; simpl; [reflexivity|].
  destruct (startsWith (js "X:") l); simpl.
  - now rewrite HP.
  - now rewrite IH.
Qed.


Lemma ensure_field_keeps (P : jsstring -> bool) (check : regex) (line c : jsstring) :
  forallb isDot line = true ->
  existsb P (lines c) = true ->
  existsb P (lines (ensure_field check line c)) = true.
Proof.
  intros Hl H. rewrite (ensure_field_lines _ _ _ Hl).
  destruct (negb (test check c)); [|exact H].
  now apply insert_after_index_keeps.
Qed.




(** Step 3 leaves a line that begins with [X:]. *)
Lemma ensure_index_has_index (c : jsstring) :
  existsb is_index_line (lines (ensure_index c)) = true.
Proof.
  rewrite ensure_index_lines. unfold test, String_match.
  destruct (search re_index None c) as [m|] eqn:E; simpl; [|reflexivity].
  exact (search_finds_line (js "X:") _ eq_refl c None m E).
Qed.


(** A match of a one-unit pattern is a code unit of the text. *)
Lemma exec_bar (prev : option code_unit) (c : code_unit) (s : jsstring) :
  exec_at re_bar prev (c :: s) = if is_bar c then Some (s, None) else None.
Proof.
  unfold is_bar. change (exec_at re_bar prev (c :: s))
    with (match (if (c =? 124)%N then Some s else None) with
          | Some s' => Some (s', @None jsstring)
          | None => None
          end).
  now destruct (c =? 124)%N.
Qed.

Lemma search_bar_exists (s : jsstring) :
  forall (prev : option code_unit) (m : MatchResult),
    search re_bar prev s = Some m -> existsb is_bar s = true.
Proof.
  induction s as [|c s IH]; intros prev m H; rewrite search_eq in H.
  - discriminate.
  - rewrite exec_bar in H. cbn [existsb].
    destruct (is_bar c); [reflexivity|].
    destruct (search re_bar (Some c) s) as [m'|] eqn:E; [|discriminate].
    exact (IH _ _ E).
Qed.

Lemma exec_pitch (prev : option code_unit) (c : code_unit) (s : jsstring) :
  exec_at re_pitch prev (c :: s) = if isPitchLetter c then Some (s, None) else None.
Proof. reflexivity. Qed.

Lemma search_pitch_exists (s : jsstring) :
  forall (prev : option code_unit) (m : MatchResult),
    search re_pitch prev s = Some m -> existsb isPitchLetter s = true.
Proof.
  induction s as [|c s IH]; intros prev m H; rewrite search_eq in H.
  - discriminate.
  - rewrite exec_pitch in H. cbn [existsb].
    destruct (isPitchLetter c); [reflexivity|].
    destruct (search re_pitch (Some c) s) as [m'|] eqn:E; [|discriminate].
    exact (IH _ _ E).
Qed.

Lemma has_content_weaken (p : code_unit -> bool) (s : jsstring) :
  (forall c, p c = true -> is_bar c || isPitchLetter c = true) ->
  existsb p s = true -> has_content s = true.
Proof.
  intros Hp. unfold has_content.
  induction s as [|c s IH]; cbn [existsb]; [discriminate|].
  destruct (p c) eqn:E.
  - intros _. now rewrite (Hp c E).
  - intros H. rewrite (IH H). apply orb_true_r.
Qed.

(** Step 7 leaves a bar separator or a pitch letter. *)
Lemma ensure_content_has_content (c : jsstring) :
  has_content (ensure_content c) = true.
Proof.
  unfold ensure_content, test, String_match.
  destruct (search re_bar None c) as [m|] eqn:Eb; simpl.
  - apply (has_content_weaken is_bar); [intros d ->; reflexivity|].
    exact (search_bar_exists c None m Eb).
  - destruct (search re_pitch None c) as [m|] eqn:Ep; simpl.
    + apply (has_content_weaken isPitchLetter); [intros d ->; apply orb_true_r|].
      exact (search_pitch_exists c None m Ep).
    + unfold has_content. rewrite existsb_app. simpl. apply orb_true_r.
Qed.

(** Step 2 leaves a title line, and a title that is not empty. *)
Lemma with_title_has_title (c : jsstring) :
  existsb is_title_line (lines (snd (with_title c))) = true
  /\ truthy (fst (with_title c)) = true.
Proof.
  assert (Hdef : existsb is_title_line
                   (lines (js "T:Untitled Composition" ++ LF :: c)) = true).
  { now rewrite (lines_app_break (js "T:Untitled Composition") LF c). }
  unfold with_title, String_match.
  destruct (search re_title None c) as [m|] eqn:E.
  - destruct (truthy (group1_text m)) eqn:Et; cbn [fst snd].
    + split; [|exact Et].
      exact (search_finds_line (js "T:") _ eq_refl c None m E).
    + split; [exact Hdef|reflexivity].
  - cbn [fst snd]. split; [exact Hdef|reflexivity].
Qed.

End NormalizerSteps.

Section TitleSearch.

Lemma lines_from_all_dots (s : jsstring) :
  forall prev : option code_unit,
    forallb (forallb isDot) (lines_from prev s) = true.
Proof.
  induction s as [|c s IH]; intros prev.
  - rewrite lines_from_nil. now destruct (at_bol prev).
  - rewrite lines_from_cons. destruct (at_bol prev); [|apply IH].
    cbn [forallb]. rewrite IH. unfold first_line. now rewrite takeWhile_all.
Qed.

Lemma lines_all_dots (s : jsstring) (pre : list jsstring) (l : jsstring)
      (post : list jsstring) :
  lines s = pre ++ l :: post -> forallb isDot l = true.
Proof.
  intros E. pose proof (lines_from_all_dots s None) as H.
  unfold lines_from in H. simpl in H. rewrite E, forallb_app in H.
  apply andb_true_iff in H as [_ H]. simpl in H.
  now apply andb_true_iff in H as [H _].
Qed.

Lemma tl_lines_cons (c : code_unit) (s : jsstring) :
  tl (lines (c :: s)) = lines_from (Some c) s.
Proof.
  rewrite lines_cons. unfold lines_from. simpl at_bol.
  now destruct (isLineTerminator c).
Qed.

(** A text of one line holds no line terminator. *)
Lemma single_line (s : jsstring) : tl (lines s) = [] -> dropWhile isDot s = [].
Proof.
  induction s as [|c s IH]; [reflexivity|].
  rewrite lines_cons. cbn [dropWhile]. unfold isDot at 1.
  destruct (isLineTerminator c); simpl.
  - intros H. now apply lines_not_nil in H.
  - exact IH.
Qed.

Lemma exec_title_none (prev : option code_unit) (s : jsstring) :
  at_bol prev && is_title_line (first_line s) = false ->
  exec_at re_title prev s = None.
Proof.
  intros H. destruct (exec_at re_title prev s) as [res|] eqn:E; [|reflexivity].
  apply exec_anchored_inv in E as [Hb Hs].
  unfold is_title_line in H.
  now rewrite (startsWith_first_line (js "T:") s eq_refl), Hb, Hs in H.
Qed.

(** The title pattern finds the first line that begins with [T:]; when its
    text is not empty, group 1 is that text. *)
Lemma search_title_first (w t : jsstring) (post : list jsstring) :
  forallb isSpace w = true ->
  match t with [] => post = [] | c :: _ => isSpace c = false end ->
  forall (s : jsstring) (prev : option code_unit) (pre : list jsstring),
    lines_from prev s = pre ++ (js "T:" ++ w ++ t) :: post ->
    forallb (fun l => negb (is_title_line l)) pre = true ->
    exists m, search re_title prev s = Some m /\ group1 m = Some t.
Proof.
  intros Hw Hsp. induction s as [|c s IH]; intros prev pre E Hpre.
  - rewrite lines_from_nil in E.
    destruct (at_bol prev); destruct pre as [|l [|l' pre]]; discriminate.
  - rewrite lines_from_cons in E. rewrite search_eq.
    destruct (at_bol prev) eqn:Hb.
    + destruct pre as [|l pre]; cbn [app] in E.
      * injection E as Efl Erest.
        change (first_line (c :: s) = js "T:" ++ w ++ t) in Efl.
        assert (Hdots : forallb isDot (js "T:" ++ w ++ t) = true).
        { rewrite <- Efl. apply takeWhile_all. }
        rewrite forallb_app in Hdots. apply andb_true_iff in Hdots as [_ Hdots].
        rewrite forallb_app in Hdots. apply andb_true_iff in Hdots as [_ Ht].
        pose proof (takeWhile_dropWhile isDot (c :: s)) as Hsplit.
        fold (first_line (c :: s)) in Hsplit. rewrite Efl in Hsplit.
        rewrite <- !app_assoc in Hsplit.
        assert (He : at_eol (dropWhile isDot (c :: s)) = true).
        { pose proof (dropWhile_head isDot (c :: s)) as Hh.
          destruct (dropWhile isDot (c :: s)) as [|d r]; [reflexivity|].
          simpl. unfold isDot in Hh. now destruct (isLineTerminator d). }
        assert (Hsp' : match t with
                       | [] => dropWhile isDot (c :: s) = []
                       | d :: _ => isSpace d = false
                       end).
        { destruct t as [|d t]; [|exact Hsp].
          apply single_line. now rewrite tl_lines_cons, Erest. }
        rewrite <- Hsplit.
        rewrite (exec_title_line prev w t _ Hb Hw Ht Hsp' He).
        eexists. split; reflexivity.
      * injection E as Efl Erest. simpl in Hpre.
        apply andb_true_iff in Hpre as [Hl Hpre].
        rewrite exec_title_none
          by (rewrite Efl; apply negb_true_iff in Hl; rewrite Hl; apply andb_false_r).
        destruct (IH (Some c) pre Erest Hpre) as [m [Hm Hg]].
        rewrite Hm. eexists. split; [reflexivity|exact Hg].
    + rewrite exec_title_none by (now rewrite Hb).
      destruct (IH (Some c) pre E Hpre) as [m [Hm Hg]].
      rewrite Hm. eexists. split; [reflexivity|exact Hg].
Qed.

Lemma parseAbcResponse_eq (raw : jsstring) :
  parseAbcResponse raw =
  {| title := fst (with_title (strip_fences raw));
     abcNotation := complete (snd (with_title (strip_fences raw))) |}.
Proof.
  unfold parseAbcResponse. now destruct (with_title (strip_fences raw)).
Qed.

(** Steps 3 to 7 add no title line. *)
Lemma complete_title_lines (c : jsstring) :
  count_lines is_title_line (complete c) = count_lines is_title_line c.
Proof.
  unfold count_lines, complete.
  rewrite ensure_content_lines.
  assert (H : forall check line s, forallb isDot line = true ->
                is_title_line line = false ->
                filter is_title_line (lines (ensure_field check line s))
                = filter is_title_line (lines s)).
  { intros check line s Hl Ht. rewrite (ensure_field_lines _ _ _ Hl).
    destruct (negb (test check s)); [|reflexivity].
    now apply insert_after_index_filter. }
  match goal with
  | |- context [if ?b then _ else _] => destruct b
  end.
  - rewrite filter_app. simpl. rewrite app_nil_r.
    rewrite !H by reflexivity. rewrite ensure_index_lines.
    now destruct (negb (test re_index c)).
  - rewrite !H by reflexivity. rewrite ensure_index_lines.
    now destruct (negb (test re_index c)).
Qed.

Lemma count_lines_zero (P : jsstring -> bool) (s : jsstring) :
  existsb P (lines s) = false -> count_lines P s = 0.
Proof.
  unfold count_lines. induction (lines s) as [|l ls IH]; simpl; [reflexivity|].
  destruct (P l); simpl; [discriminate|exact IH].
Qed.

End TitleSearch.

(* ================================================================= *)
(** ** Counting the lines of a kind *)

Section ExactCounts.

Lemma with_title_eq (c : jsstring) :
  with_title c =
  if title_found c
  then (match String_match re_title c with
        | Some m => group1_text m
        | None => default_title
        end, c)
  else (default_title, js "T:Untitled Composition" ++ LF :: c).
Proof.
  unfold with_title, title_found.
  destruct (String_match re_title c) as [m|]; [|reflexivity].
  now destruct (truthy (group1_text m)).
Qed.









(** A pattern that matches wherever a given line stands finds a match in
    every text that holds the line. *)
Lemma search_reaches_line (r : regex) (l : jsstring) :
  (forall prev rest, at_bol prev = true -> at_eol rest = true ->
                     exec_at r prev (l ++ rest) <> None) ->
  forall (s : jsstring) (prev : option code_unit) (pre post : list jsstring),
    lines_from prev s = pre ++ l :: post -> search r prev s <> None.
Proof.
  intros H. induction s as [|c s IH]; intros prev pre post E; rewrite search_eq.
  - rewrite lines_from_nil in E.
    destruct (at_bol prev) eqn:Hb; [|now destruct pre].
    destruct pre as [|x [|y pre]]; try discriminate.
    injection E as <- _.
    specialize (H prev [] Hb eq_refl). cbn [app] in H.
    destruct (exec_at r prev []) as [[rest cap]|]; [discriminate|contradiction].
  - destruct (exec_at r prev (c :: s)) as [[rest cap]|] eqn:Ex; [discriminate|].
    rewrite lines_from_cons in E.
    assert (Hgo : forall pre', lines_from (Some c) s = pre' ++ l :: post ->
                    option_map (shift c) (search r (Some c) s) <> None).
    { intros pre' E'. specialize (IH (Some c) pre' post E').
      destruct (search r (Some c) s); [discriminate|contradiction]. }
    destruct (at_bol prev) eqn:Hb; [|exact (Hgo pre E)].
    destruct pre as [|x pre]; cbn [app] in E; injection E as Efl Erest;
      [|exact (Hgo pre Erest)].
    exfalso. apply (H prev (dropWhile isDot (c :: s)) Hb (at_eol_dropWhile (c :: s))).
    rewrite <- Efl. unfold first_line. now rewrite takeWhile_dropWhile.
Qed.



End ExactCounts.

(* ================================================================= *)
(** ** Bar separators and pitch letters *)

Section ContentFacts.

Lemma terminator_no_content (c : code_unit) :
  isLineTerminator c = true -> is_bar c || isPitchLetter c = false.
Proof.
  unfold isLineTerminator. intros H.
  apply orb_true_iff in H as [H|H]; [apply orb_true_iff in H as [H|H];
    [apply orb_true_iff in H as [H|H]|]|];
    apply N.eqb_eq in H; subst c; reflexivity.
Qed.

Lemma has_content_cons (c : code_unit) (s : jsstring) :
  has_content (c :: s) = (is_bar c || isPitchLetter c) || has_content s.
Proof. reflexivity. Qed.

Lemma has_content_app (s t : jsstring) :
  has_content (s ++ t) = has_content s || has_content t.
Proof. unfold has_content. apply existsb_app. Qed.

(** A bar separator or a pitch letter of a text stands on one of its lines. *)
Lemma has_content_lines (s : jsstring) :
  has_content s = existsb has_content (lines s).
Proof.
  induction s as [|c s IH]; [reflexivity|].
  rewrite has_content_cons, lines_cons, IH.
  destruct (isLineTerminator c) eqn:Hc.
  - now rewrite (terminator_no_content c Hc).
  - pose proof (lines_not_nil s) as Hn.
    destruct (lines s) as [|l ls]; [contradiction|].
    cbn [hd tl existsb]. rewrite has_content_cons. now rewrite orb_assoc.
Qed.

Lemma insert_after_index_exists (P : jsstring -> bool) (line : jsstring)
      (ls : list jsstring) :
  existsb is_index_line ls = true ->
  existsb P (insert_after_index line ls) = existsb P ls || P line.
Proof.
  induction ls as [|l ls IH]; simpl; [discriminate|].
  unfold is_index_line at 1.
  destruct (startsWith (js "X:") l); simpl.
  - intros _. destruct (P l); destruct (P line); destruct (existsb P ls); reflexivity.
  - intros H. rewrite (IH H). now rewrite orb_assoc.
Qed.

Lemma search_bar_finds (s : jsstring) :
  forall prev : option code_unit,
    existsb is_bar s = true -> search re_bar prev s <> None.
Proof.
  induction s as [|c s IH]; intros prev H; [discriminate|].
  rewrite search_eq, exec_bar. cbn [existsb] in H.
  destruct (is_bar c); [discriminate|].
  specialize (IH (Some c) H). now destruct (search re_bar (Some c) s).
Qed.

Lemma search_pitch_finds (s : jsstring) :
  forall prev : option code_unit,
    existsb isPitchLetter s = true -> search re_pitch prev s <> None.
Proof.
  induction s as [|c s IH]; intros prev H; [discriminate|].
  rewrite search_eq, exec_pitch. cbn [existsb] in H.
  destruct (isPitchLetter c); [discriminate|].
  specialize (IH (Some c) H). now destruct (search re_pitch (Some c) s).
Qed.

(** The two checks of step 7 together say whether the text holds a bar
    separator or a pitch letter. *)
Lemma has_content_tests (c : jsstring) :
  test re_bar c || test re_pitch c = has_content c.
Proof.
  unfold test, String_match.
  destruct (has_content c) eqn:Hc.
  - unfold has_content in Hc.
    assert (H : existsb is_bar c = true \/ existsb isPitchLetter c = true).
    { clear - Hc. induction c as [|d c IH]; [discriminate|]. cbn [existsb] in *.
      destruct (is_bar d); [now left|]. destruct (isPitchLetter d); [now right|].
      destruct (IH Hc) as [H|H]; [left|right]; exact H. }
    destruct H as [H|H].
    + pose proof (search_bar_finds c None H). now destruct (search re_bar None c).
    + pose proof (search_pitch_finds c None H).
      destruct (search re_pitch None c); [apply orb_true_r|contradiction].
  - destruct (search re_bar None c) as [m|] eqn:Eb.
    + apply search_bar_exists in Eb.
      rewrite (has_content_weaken is_bar c) in Hc; [discriminate| |exact Eb].
      intros d ->. reflexivity.
    + destruct (search re_pitch None c) as [m|] eqn:Ep; [|reflexivity].
      apply search_pitch_exists in Ep.
      rewrite (has_content_weaken isPitchLetter c) in Hc; [discriminate| |exact Ep].
      intros d ->. apply orb_true_r.
Qed.

Lemma ensure_content_eq (c : jsstring) :
  ensure_content c = if has_content c then c else c ++ LF :: js "C |".
Proof.
  unfold ensure_content. rewrite <- negb_orb, has_content_tests.
  now destruct (has_content c).
Qed.

Lemma ensure_field_content (check : regex) (line c : jsstring) :
  forallb isDot line = true ->
  existsb is_index_line (lines c) = true ->
  has_content (ensure_field check line c)
  = has_content c || (negb (test check c) && has_content line).
Proof.
  intros Hl Hx. rewrite !has_content_lines, (ensure_field_lines _ _ _ Hl).
  destruct (negb (test check c)); cbn [andb].
  - rewrite (insert_after_index_exists has_content line _ Hx).
    f_equal. rewrite (lines_dots line Hl). cbn [existsb]. now rewrite orb_false_r.
  - now rewrite orb_false_r.
Qed.

(** Where the bar separator or pitch letter of the completed text comes
    from: the text itself, the default title line or the default key line. *)
Lemma with_headers_content (c0 : jsstring) :
  has_content (with_headers (snd (with_title c0)))
  = has_content c0 || negb (title_found c0)
    || negb (test re_key (ensure_index (snd (with_title c0)))).
Proof.
  unfold with_headers.
  set (c1 := snd (with_title c0)).
  pose proof (ensure_index_has_index c1) as Hx2.
  set (c2 := ensure_index c1) in *.
  pose proof (ensure_field_keeps is_index_line re_key (js "K:C") c2 eq_refl Hx2) as Hx3.
  set (c3 := ensure_field re_key (js "K:C") c2) in *.
  pose proof (ensure_field_keeps is_index_line re_meter (js "M:4/4") c3 eq_refl Hx3) as Hx4.
  set (c4 := ensure_field re_meter (js "M:4/4") c3) in *.
  rewrite (ensure_field_content re_tempo (js "Q:1/4=120") c4 eq_refl Hx4).
  change (has_content (js "Q:1/4=120")) with false. rewrite andb_false_r, orb_false_r.
  unfold c4. rewrite (ensure_field_content re_meter (js "M:4/4") c3 eq_refl Hx3).
  change (has_content (js "M:4/4")) with false. rewrite andb_false_r, orb_false_r.
  unfold c3. rewrite (ensure_field_content re_key (js "K:C") c2 eq_refl Hx2).
  change (has_content (js "K:C")) with true. rewrite andb_true_r.
  f_equal. unfold c2, ensure_index.
  assert (H1 : has_content c1 = has_content c0 || negb (title_found c0)).
  { unfold c1. rewrite with_title_eq. destruct (title_found c0); cbn [snd negb].
    - now rewrite orb_false_r.
    - change (js "T:Untitled Composition" ++ LF :: c0)
        with ((js "T:Untitled Composition" ++ [LF]) ++ c0).
      rewrite has_content_app.
      change (has_content (js "T:Untitled Composition" ++ [LF])) with true.
      now rewrite orb_true_r. }
  destruct (negb (test re_index c1)); [|exact H1].
  change (js "X:1" ++ LF :: c1) with ((js "X:1" ++ [LF]) ++ c1).
  rewrite has_content_app. exact H1.
Qed.

End ContentFacts.

(* ================================================================= *)
(** ** The normalizer's guarantees *)



(** A tune with one line of each kind is returned as it is, with exactly
    one line of each kind. *)
Example complete_tune_is_kept :
  parseAbcResponse (abcNotation song) = song
  /\ structure_exact (abcNotation (parseAbcResponse (abcNotation song))) = true.
Proof. vm_compute. split; reflexivity. Qed.

(** C8: when the first title line of the unfenced, trimmed text is [T:],
    optional white space and a text [t] that does not begin with white space
    (as in [T:My Song]), the title returned is exactly [t], whatever title
    lines follow; no default title line is put in: the body is the text
    itself taken through steps 3 to 7, with as many title lines as the text
    had. *)
Theorem first_title_line_is_used (raw : jsstring) (pre : list jsstring)
        (w t : jsstring) (post : list jsstring) :
  lines (strip_fences raw) = pre ++ (js "T:" ++ w ++ t) :: post ->
  forallb (fun l => negb (is_title_line l)) pre = true ->
  forallb isSpace w = true ->
  match t with [] => False | c :: _ => isSpace c = false end ->
  title (parseAbcResponse raw) = t
  /\ abcNotation (parseAbcResponse raw) = complete (strip_fences raw)
  /\ count_lines is_title_line (abcNotation (parseAbcResponse raw))
     = count_lines is_title_line (strip_fences raw).
Proof.
  intros E Hpre Hw Hsp.
  assert (Hsp' : match t with [] => post = [] | c :: _ => isSpace c = false end).
  { destruct t as [|c t]; [contradiction|exact Hsp]. }
  destruct (search_title_first w t post Hw Hsp' (strip_fences raw) None pre E Hpre)
    as [m [Hm Hg]].
  assert (Hwt : with_title (strip_fences raw) = (t, strip_fences raw)).
  { unfold with_title, String_match. rewrite Hm. unfold group1_text. rewrite Hg.
    destruct t as [|c t]; [contradiction|reflexivity]. }
  rewrite parseAbcResponse_eq, Hwt. cbn [fst snd title abcNotation].
  repeat split. apply complete_title_lines.
Qed.

(** C8 at a fenced answer with the title lines [T:My Song] and [T:Other]. *)
Lemma first_title_line_is_used_witness :
  title (parseAbcResponse fenced_my_song) = js "My Song"
  /\ abcNotation (parseAbcResponse fenced_my_song) = complete (strip_fences fenced_my_song)
  /\ count_lines is_title_line (abcNotation (parseAbcResponse fenced_my_song))
     = count_lines is_title_line (strip_fences fenced_my_song).
Proof.
  apply (first_title_line_is_used fenced_my_song [js "X:1"] [] (js "My Song")
           (map js ["T:Other"; "M:4/4"; "Q:1/4=100"; "K:G"; "GAB|"])).
  - vm_compute. reflexivity.
  - reflexivity.
  - reflexivity.
  - reflexivity.
Defined.

(** C10 fails on the code: in a tune whose title line [T:] is empty and
    followed by more lines, the white-space run of the title pattern crosses
    the line break, the next line is taken for the title, and no default
    title line is put in. *)
Theorem empty_title_takes_next_line :
  parseAbcResponse empty_title_tune =
  {| title := js "K:C";
     abcNotation := unlines ["X:1"; "Q:1/4=120"; "M:4/4"; "T:"; "K:C"; "CDE|"] |}
  /\ parseAbcResponse blank_title_tune =
     {| title := js "M:4/4";
        abcNotation := unlines ["X:1"; "Q:1/4=120"; "T:   "; "M:4/4"; "K:C"; "CDE|"] |}.
Proof. split; vm_compute; reflexivity. Qed.

(** What the code does for an empty title line that ends the text: the
    default title is returned and a default title line is put before the
    text, which keeps its empty title line. *)
Lemma empty_last_title_line_gets_default (raw : jsstring) (pre : list jsstring)
      (w : jsstring) :
  lines (strip_fences raw) = pre ++ [js "T:" ++ w] ->
  forallb (fun l => negb (is_title_line l)) pre = true ->
  forallb isSpace w = true ->
  parseAbcResponse raw =
  {| title := js "Untitled Composition";
     abcNotation := complete (js "T:Untitled Composition" ++ LF :: strip_fences raw) |}
  /\ count_lines is_title_line (abcNotation (parseAbcResponse raw))
     = S (count_lines is_title_line (strip_fences raw)).
Proof.
  intros E Hpre Hw.
  assert (E' : lines (strip_fences raw) = pre ++ [js "T:" ++ w ++ []])
    by now rewrite app_nil_r.
  destruct (search_title_first w [] [] Hw eq_refl (strip_fences raw) None pre E' Hpre)
    as [m [Hm Hg]].
  assert (Hwt : with_title (strip_fences raw)
                = (default_title, js "T:Untitled Composition" ++ LF :: strip_fences raw)).
  { unfold with_title, String_match. rewrite Hm. unfold group1_text. now rewrite Hg. }
  rewrite parseAbcResponse_eq, Hwt. cbn [fst snd title abcNotation].
  split; [reflexivity|].
  rewrite complete_title_lines. unfold count_lines.
  now rewrite (lines_app_break (js "T:Untitled Composition") LF (strip_fences raw)).
Qed.

(** At an answer that ends with an empty title line. *)
Lemma empty_last_title_line_gets_default_witness :
  parseAbcResponse empty_title_last =
  {| title := js "Untitled Composition";
     abcNotation := complete (js "T:Untitled Composition" ++ LF :: strip_fences empty_title_last) |}
  /\ count_lines is_title_line (abcNotation (parseAbcResponse empty_title_last)) = 2.
Proof.
  apply (empty_last_title_line_gets_default empty_title_last [js "X:1"] []);
    reflexivity.
Defined.

(** C3 fails on the code: for an answer that ends with its index line the
    first run puts the key line at the very end of the body; the key check
    wants a line feed behind the key line, so the second run inserts a
    second key line. *)
Theorem renormalizing_duplicates_key_line :
  let once := abcNotation (parseAbcResponse index_last) in
  let twice := abcNotation (parseAbcResponse once) in
  once = unlines ["T:Song"; "X:1"; "Q:1/4=120"; "M:4/4"; "K:C"]
  /\ twice = unlines ["T:Song"; "X:1"; "K:C"; "Q:1/4=120"; "M:4/4"; "K:C"]
  /\ count_lines is_key_line once = 1
  /\ count_lines is_key_line twice = 2.
Proof. vm_compute. repeat split. Qed.

(** The same with CR LF line ends: a key line ended by CR LF does not pass
    the key check, so every run puts in one more key line. *)
Lemma renormalizing_crlf_duplicates_key_line :
  let once := abcNotation (parseAbcResponse crlf_tune) in
  let twice := abcNotation (parseAbcResponse once) in
  count_lines is_key_line crlf_tune = 1
  /\ count_lines is_key_line once = 2
  /\ count_lines is_key_line twice = 3.
Proof. vm_compute. repeat split. Qed.

(** C4 fails on the code: an answer of one blank holds no bar separator and
    no pitch letter, yet no placeholder bar is appended, because the content
    check reads the header lines put in before, and the default title and
    the default key hold pitch letters. *)
Theorem blank_answer_gets_no_placeholder :
  has_content blank_answer = false
  /\ parseAbcResponse blank_answer =
     {| title := js "Untitled Composition";
        abcNotation := unlines ["X:1"; "Q:1/4=120"; "M:4/4"; "K:C";
                                "T:Untitled Composition"; ""] |}
  /\ abcNotation (parseAbcResponse blank_answer)
     = ensure_field re_tempo (js "Q:1/4=120")
         (ensure_field re_meter (js "M:4/4")
            (ensure_field re_key (js "K:C")
               (ensure_index (snd (with_title (strip_fences blank_answer)))))).
Proof. vm_compute. repeat split. Qed.

(** The same for an empty fenced block. *)
Lemma empty_fence_gets_no_placeholder :
  has_content empty_fence = false
  /\ abcNotation (parseAbcResponse empty_fence)
     = unlines ["X:1"; "Q:1/4=120"; "M:4/4"; "K:C"; "T:Untitled Composition"; ""].
Proof. vm_compute. repeat split. Qed.

(** When the placeholder is appended.  The content check reads the text
    after steps 2 to 6, and that text holds a bar separator or a pitch
    letter exactly when the unfenced text holds one, or the default title
    line was put in, or the default key line was put in (both hold pitch
    letters; the lines [X:1], [M:4/4] and [Q:1/4=120] hold none).  So the
    body is the completed text followed by a line feed and [C |], four code
    units longer, exactly when the unfenced text has no bar separator and no
    pitch letter, its title was taken from a title line and its key check
    passed; in every other case the body is the completed text itself. *)
Theorem placeholder_when_checks_fail (raw : jsstring) :
  let c0 := strip_fences raw in
  let c1 := snd (with_title c0) in
  let content :=
    has_content c0 || negb (title_found c0) || negb (test re_key (ensure_index c1)) in
  has_content (with_headers c1) = content
  /\ abcNotation (parseAbcResponse raw)
     = (if content then with_headers c1 else with_headers c1 ++ LF :: js "C |")
  /\ length (abcNotation (parseAbcResponse raw))
     = length (with_headers c1) + (if content then 0 else 4).
Proof.
  cbv zeta. rewrite parseAbcResponse_eq. cbn [abcNotation].
  change (complete (snd (with_title (strip_fences raw))))
    with (ensure_content (with_headers (snd (with_title (strip_fences raw))))).
  rewrite ensure_content_eq, <- (with_headers_content (strip_fences raw)).
  split; [reflexivity|].
  destruct (has_content (with_headers (snd (with_title (strip_fences raw))))).
  - split; [reflexivity|lia].
  - split; [reflexivity|]. rewrite length_app. reflexivity.
Qed.

Example placeholder_for_no_letters_tune :
  abcNotation (parseAbcResponse no_letters_tune)
  = unlines ["X:1"; "Q:1/4=120"; "M:4/4"; "T:x"; "K:"; "1"; "C |"].
Proof. vm_compute. reflexivity. Qed.

(* ================================================================= *)
(** ** The credential check *)

(** C9: when [VITE_GEMINI_API_KEY] is undefined or empty, evaluating the
    service module logs the error, throws, and builds no client, so no
    request can be made. *)
Theorem missing_key_is_fatal (API_KEY : option jsstring) :
  ServiceInit.absent API_KEY = true ->
  ServiceInit.load_service API_KEY
  = ServiceInit.LoadThrows ServiceInit.msg_console ServiceInit.msg_missing
  /\ ServiceInit.client (ServiceInit.load_service API_KEY) = None
  /\ forall musicText,
       ServiceInit.generateMusic (ServiceInit.load_service API_KEY) musicText = None.
Proof.
  intros H. destruct API_KEY as [k|]; simpl in *.
  - rewrite H. now repeat split.
  - now repeat split.
Qed.

(** C9 at an undefined variable. *)
Lemma missing_key_is_fatal_witness :
  ServiceInit.load_service None
  = ServiceInit.LoadThrows ServiceInit.msg_console ServiceInit.msg_missing
  /\ ServiceInit.client (ServiceInit.load_service None) = None
  /\ forall musicText,
       ServiceInit.generateMusic (ServiceInit.load_service None) musicText = None.
Proof. apply (missing_key_is_fatal None). reflexivity. Defined.

(** With a key the module loads and the client holds it. *)
Lemma present_key_loads (k : jsstring) :
  truthy k = true ->
  ServiceInit.load_service (Some k) = ServiceInit.Loaded k.
Proof. intros H. simpl. now rewrite H. Qed.

(* ================================================================= *)
(** ** The render effect *)

Section RenderEffect.

Lemma close_last (st : State) (cs : list ContextState) :
  contexts st = cs ++ [Running] ->
  contexts (close (length cs) st) = cs ++ [Closed]
  /\ renderError (close (length cs) st) = renderError st
  /\ visual_innerHTML (close (length cs) st) = visual_innerHTML st.
Proof.
  intros E. unfold close. rewrite E.
  rewrite nth_error_app2 by lia. rewrite Nat.sub_diag. cbn [nth_error].
  cbn [log set_contexts contexts renderError visual_innerHTML].
  rewrite firstn_app, Nat.sub_diag, firstn_all, skipn_all2
    by (rewrite length_app; simpl; lia).
  simpl. now rewrite app_nil_r.
Qed.

End RenderEffect.

Section AudioFailure.

Lemma audio_failed_spec (e : JsError) (st : State) (cs : list ContextState) :
  contexts st = cs ++ [Running] ->
  snd (audio_failed e (length cs) st) = AudioError
  /\ renderError (fst (audio_failed e (length cs) st)) = Some (msg_audio e)
  /\ visual_innerHTML (fst (audio_failed e (length cs) st)) = visual_innerHTML st
  /\ contexts (fst (audio_failed e (length cs) st)) = cs ++ [Closed].
Proof.
  intros E. unfold audio_failed. cbn [fst snd].
  destruct (close_last (setRenderError (Some (msg_audio e)) st) cs E) as [Hc [Hr Hv]].
  now rewrite Hc, Hr, Hv.
Qed.

Lemma render_effect_priming (win : Window) (abcjs : Abcjs) (musicData : GeneratedMusic)
      (st st1 : State) (v : VisualObj) (ctx : nat) :
  ABCJS win = Some abcjs ->
  effect_sync win musicData st = (st1, PrimingAudio v ctx) ->
  render_effect win musicData st = effect_settle abcjs musicData v ctx st1.
Proof.
  intros Ha E. unfold render_effect. now rewrite E, Ha.
Qed.

Lemma chain_rejection_settle (abcjs : Abcjs) (musicData : GeneratedMusic)
      (v : VisualObj) (e : JsError) (st : State) (cs : list ContextState) :
  chain_rejection abcjs musicData v = Some e ->
  contexts st = cs ++ [Running] ->
  snd (effect_settle abcjs musicData v (length cs) st) = AudioError
  /\ renderError (fst (effect_settle abcjs musicData v (length cs) st))
     = Some (msg_audio e)
  /\ visual_innerHTML (fst (effect_settle abcjs musicData v (length cs) st))
     = visual_innerHTML st
  /\ contexts (fst (effect_settle abcjs musicData v (length cs) st))
     = cs ++ [Closed].
Proof.
  unfold chain_rejection, effect_settle. intros H E.
  destruct (synth_init abcjs v) as [e0|e0|u]; [discriminate| |].
  - inversion H; subst e0. now apply audio_failed_spec.
  - destruct (synth_prime abcjs v) as [e1|e1|u1].
    + inversion H; subst e1. now apply (audio_failed_spec e (log CallPrime st)).
    + inversion H; subst e1. now apply (audio_failed_spec e (log CallPrime st)).
    + destruct (renderMidi abcjs (abcNotation musicData)) as [c|e2]; [discriminate|].
      inversion H; subst e2.
      now apply (audio_failed_spec e (log CallRenderMidi (log CallPrime st))).
Qed.

Lemma close_visual (ctx : nat) (st : State) :
  visual_innerHTML (close ctx st) = visual_innerHTML st.
Proof.
  unfold close. now destruct (nth_error (contexts st) ctx) as [[|]|].
Qed.

(** The chain never writes into the score container, however it ends and
    whatever the state it settles in. *)
Lemma effect_settle_visual (abcjs : Abcjs) (musicData : GeneratedMusic)
      (v : VisualObj) (ctx : nat) (st : State) :
  visual_innerHTML (fst (effect_settle abcjs musicData v ctx st)) = visual_innerHTML st.
Proof.
  unfold effect_settle, audio_failed.
  destruct (synth_init abcjs v) as [e0|e0|u]; cbn [fst]; [reflexivity| |].
  - now rewrite close_visual.
  - destruct (synth_prime abcjs v) as [e1|e1|u1]; cbn [fst];
      [now rewrite close_visual|now rewrite close_visual|].
    destruct (renderMidi abcjs (abcNotation musicData)) as [c|e2]; cbn [fst];
      [reflexivity|now rewrite close_visual].
Qed.

End AudioFailure.

(** A run whose guard lets it through: the library is loaded, the notation
    is not empty and the score container carries its ref. *)
Section PastTheGuard.

Variable win : Window.
Variable abcjs : Abcjs.
Variable musicData : GeneratedMusic.
Variable st : State.

Hypothesis Hloaded : ABCJS win = Some abcjs.
Hypothesis Hnotation : truthy (abcNotation musicData) = true.
Hypothesis Hmounted : renderError st = None.

Lemma effect_sync_rendered :
  effect_sync win musicData st =
  let st1 := log CallRenderAbc (setRenderError None (set_audio [] (set_visual [] st))) in
  match renderAbc abcjs (abcNotation musicData) (Some (currentStaffWidth st)) with
  | Throws e => (setRenderError (Some (msg_display e)) st1, DisplayError)
  | Returns (drawn, visualObjs) =>
      match no_visual visualObjs with
      | None => (setRenderError (Some msg_visual) (set_visual drawn st1), VisualError)
      | Some v =>
          match CreateSynth abcjs with
          | Throws e =>
              (setRenderError (Some (msg_display e))
                 (log CallCreateSynth (set_visual drawn st1)), DisplayError)
          | Returns _ =>
              match newAudioContext win with
              | Throws e =>
                  (setRenderError (Some (msg_display e))
                     (log CallNewAudioContext
                        (log CallCreateSynth (set_visual drawn st1))), DisplayError)
              | Returns _ =>
                  match synth_init abcjs v with
                  | ThrowsSync e =>
                      (setRenderError (Some (msg_display e)) (primed_state drawn st),
                       DisplayError)
                  | _ => (primed_state drawn st, PrimingAudio v (length (contexts st)))
                  end
              end
          end
      end
  end.
Proof.
  unfold effect_sync, visualRef_current.
  rewrite Hloaded, Hnotation, Hmounted. reflexivity.
Qed.

Lemma effect_sync_priming (drawn : html) (visualObjs : option (list VisualObj))
      (v : VisualObj) :
  renderAbc abcjs (abcNotation musicData) (Some (currentStaffWidth st))
  = Returns (drawn, visualObjs) ->
  no_visual visualObjs = Some v ->
  CreateSynth abcjs = Returns tt ->
  newAudioContext win = Returns tt ->
  (forall e, synth_init abcjs v <> ThrowsSync e) ->
  effect_sync win musicData st
  = (primed_state drawn st, PrimingAudio v (length (contexts st))).
Proof.
  intros Hr Hv Hc Hx Hi. rewrite effect_sync_rendered. cbv zeta.
  rewrite Hr, Hv, Hc, Hx.
  destruct (synth_init abcjs v) as [e|e|u] eqn:E; [now elim (Hi e)| |]; reflexivity.
Qed.


(** C2: when the score is drawn and the initialization, the priming or the
    drawing of the controls then fails with [e], the run ends in the audio
    error: [renderError] holds the audio message with the text of [e] and
    the audio context of the run is closed.  What was drawn stays: the
    content of the score's node is exactly what [renderAbc] drew, and the
    document still holds it, now in the box that also shows the message; it
    is displayed whenever something was drawn.  The chain never writes into
    that node, in whatever state it comes to settle. *)
Theorem audio_failure_keeps_drawn_score (drawn : html)
        (visualObjs : option (list VisualObj)) (v : VisualObj) (e : JsError) :
  renderAbc abcjs (abcNotation musicData) (Some (currentStaffWidth st))
  = Returns (drawn, visualObjs) ->
  no_visual visualObjs = Some v ->
  CreateSynth abcjs = Returns tt ->
  newAudioContext win = Returns tt ->
  chain_rejection abcjs musicData v = Some e ->
  let r := render_effect win musicData st in
  snd r = AudioError
  /\ renderError (fst r) = Some (msg_audio e)
  /\ visual_innerHTML (fst r) = drawn
  /\ contexts (fst r) = contexts st ++ [Closed]
  /\ view (fst r) = Alert (msg_audio e) drawn
  /\ score_in_document (fst r) = drawn
  /\ score_displayed (fst r) = truthy drawn
  /\ (forall (ctx : nat) (later : State),
        visual_innerHTML (fst (effect_settle abcjs musicData v ctx later))
        = visual_innerHTML later).
Proof.
  intros Hr Hv Hc Hx Hch. cbv zeta.
  assert (Hi : forall e0, synth_init abcjs v <> ThrowsSync e0).
  { intros e0 E. unfold chain_rejection in Hch. now rewrite E in Hch. }
  rewrite (render_effect_priming win abcjs musicData st _ _ _ Hloaded
             (effect_sync_priming drawn visualObjs v Hr Hv Hc Hx Hi)).
  destruct (chain_rejection_settle abcjs musicData v e (primed_state drawn st)
              (contexts st) Hch eq_refl) as [H1 [H2 [H3 H4]]].
  assert (Hview : view (fst (effect_settle abcjs musicData v (length (contexts st))
                               (primed_state drawn st)))
                  = Alert (msg_audio e) drawn).
  { unfold view. now rewrite H2, H3. }
  repeat split; try assumption.
  - unfold score_in_document. now rewrite Hview.
  - unfold score_displayed, score_in_document. now rewrite Hview.
  - intros ctx later. apply effect_settle_visual.
Qed.

(** C5: when the rendering collaborator returns an empty list, or nothing,
    the run ends in the visual error with its message set; the only call of
    the run is the rendering call, so the synthesizer is never constructed,
    no audio context is created and nothing is initialized or primed. *)
Theorem empty_visual_stops_before_audio (drawn : html)
        (visualObjs : option (list VisualObj)) :
  renderAbc abcjs (abcNotation musicData) (Some (currentStaffWidth st))
  = Returns (drawn, visualObjs) ->
  no_visual visualObjs = None ->
  let r := render_effect win musicData st in
  snd r = VisualError
  /\ renderError (fst r) = Some msg_visual
  /\ calls (fst r) = calls st ++ [CallRenderAbc]
  /\ count_calls is_CreateSynth (fst r) = count_calls is_CreateSynth st
  /\ count_calls is_Prime (fst r) = count_calls is_Prime st
  /\ contexts (fst r) = contexts st.
Proof.
  intros Hr Hv. cbv zeta.
  assert (E : render_effect win musicData st
              = (setRenderError (Some msg_visual)
                   (set_visual drawn
                      (log CallRenderAbc
                         (setRenderError None (set_audio [] (set_visual [] st))))),
                 VisualError)).
  { unfold render_effect. rewrite effect_sync_rendered. cbv zeta.
    now rewrite Hr, Hv. }
  rewrite E. unfold count_calls. simpl.
  rewrite !filter_app, !length_app. simpl. repeat split; lia.
Qed.

End PastTheGuard.

(** C2 at a collaborator whose priming rejects: the score drawn stays in
    the document beside the audio message. *)
Lemma audio_failure_keeps_drawn_score_witness :
  let r := render_effect (window_with prime_fails_abcjs) song initial in
  snd r = AudioError
  /\ renderError (fst r) = Some (msg_audio no_audio)
  /\ visual_innerHTML (fst r) = svg
  /\ contexts (fst r) = [Closed]
  /\ view (fst r) = Alert (msg_audio no_audio) svg
  /\ score_in_document (fst r) = svg
  /\ score_displayed (fst r) = true
  /\ (forall (ctx : nat) (later : State),
        visual_innerHTML (fst (effect_settle prime_fails_abcjs song 0 ctx later))
        = visual_innerHTML later).
Proof.
  apply (audio_failure_keeps_drawn_score (window_with prime_fails_abcjs)
           prime_fails_abcjs song initial eq_refl eq_refl eq_refl
           svg (Some [0]) 0 no_audio);
    reflexivity.
Defined.

(** C5 at a collaborator whose rendering returns an empty list, from the
    component's first state: the synthesizer constructor is called 0 times. *)
Lemma empty_visual_stops_before_audio_witness :
  let r := render_effect (window_with empty_render_abcjs) song initial in
  snd r = VisualError
  /\ renderError (fst r) = Some msg_visual
  /\ calls (fst r) = [CallRenderAbc]
  /\ count_calls is_CreateSynth (fst r) = 0
  /\ count_calls is_Prime (fst r) = 0
  /\ contexts (fst r) = [].
Proof.
  apply (empty_visual_stops_before_audio (window_with empty_render_abcjs)
           empty_render_abcjs song initial eq_refl eq_refl eq_refl
           [] (Some [])); reflexivity.
Defined.

(* ================================================================= *)
(** ** The audio contexts *)

(** C7, as the specification words it, fails: after the first run and the
    run that follows a resize, both contexts are running; the second was
    created while the first was still open. *)
Lemma rerender_leaves_two_contexts_running :
  contexts after_first_run = [Running]
  /\ contexts after_resize = [Running; Running]
  /\ running_contexts after_resize = 2.
Proof. vm_compute. repeat split. Qed.

Lemma effect_sync_contexts (win : Window) (musicData : GeneratedMusic) (st : State) :
  match snd (effect_sync win musicData st) with
  | Idle => contexts (fst (effect_sync win musicData st)) = contexts st
  | VisualError => contexts (fst (effect_sync win musicData st)) = contexts st
  | DisplayError =>
      contexts (fst (effect_sync win musicData st)) = contexts st
      \/ contexts (fst (effect_sync win musicData st)) = contexts st ++ [Running]
  | PrimingAudio v ctx =>
      ctx = length (contexts st)
      /\ contexts (fst (effect_sync win musicData st)) = contexts st ++ [Running]
      /\ exists abcjs, ABCJS win = Some abcjs
                       /\ forall e, synth_init abcjs v <> ThrowsSync e
  | AudioError => False
  | Ready => False
  end.
Proof.
  unfold effect_sync.
  destruct (ABCJS win) as [abcjs|]; [|reflexivity].
  destruct (negb (truthy (abcNotation musicData)) || negb (visualRef_current st));
    [reflexivity|].
  cbn [currentStaffWidth log setRenderError set_audio set_visual].
  destruct (renderAbc abcjs (abcNotation musicData) (Some (currentStaffWidth st)))
    as [[drawn visualObjs]|e0]; [|now left].
  destruct (no_visual visualObjs) as [v|]; [|reflexivity].
  destruct (CreateSynth abcjs) as [u|e1]; [|now left].
  destruct (newAudioContext win) as [u'|e2]; [|now left].
  cbn [contexts set_contexts set_visual log setRenderError].
  destruct (synth_init abcjs v) as [e3|e3|u3] eqn:Ei; cbn [fst snd contexts].
  - now right.
  - repeat split. exists abcjs. split; [reflexivity|]. intros e. now rewrite Ei.
  - repeat split. exists abcjs. split; [reflexivity|]. intros e. now rewrite Ei.
Qed.

Lemma effect_settle_contexts (abcjs : Abcjs) (musicData : GeneratedMusic)
      (v : VisualObj) (st : State) (cs : list ContextState) :
  contexts st = cs ++ [Running] ->
  (forall e, synth_init abcjs v <> ThrowsSync e) ->
  match snd (effect_settle abcjs musicData v (length cs) st) with
  | AudioError =>
      contexts (fst (effect_settle abcjs musicData v (length cs) st)) = cs ++ [Closed]
  | Ready =>
      contexts (fst (effect_settle abcjs musicData v (length cs) st)) = cs ++ [Running]
  | _ => False
  end.
Proof.
  intros E Hi.
  destruct (chain_rejection abcjs musicData v) as [e|] eqn:Hch.
  - destruct (chain_rejection_settle abcjs musicData v e st cs Hch E) as [H1 [_ [_ H4]]].
    now rewrite H1.
  - unfold chain_rejection in Hch. unfold effect_settle.
    destruct (synth_init abcjs v) as [e0|e0|u]; [now elim (Hi e0)|discriminate|].
    destruct (synth_prime abcjs v) as [e1|e1|u1]; [discriminate|discriminate|].
    destruct (renderMidi abcjs (abcNotation musicData)) as [c|e2]; [|discriminate].
    exact E.
Qed.

Lemma export_contexts (win : Window) (musicData : GeneratedMusic) (st : State) :
  contexts (fst (handleDownloadMidi win musicData st)) = contexts st
  \/ contexts (fst (handleDownloadMidi win musicData st)) = contexts st ++ [Running].
Proof.
  unfold handleDownloadMidi.
  destruct (negb (truthy (abcNotation musicData))); [now left|].
  destruct (ABCJS win) as [abcjs|]; [|now left].
  destruct (negb (visualRef_current st)); [now left|].
  destruct (renderAbc abcjs (abcNotation musicData) None) as [[d visualObjs]|e];
    [|now left].
  destruct (no_visual visualObjs) as [v|]; [|now left].
  destruct (CreateSynth abcjs); [|now left].
  destruct (newAudioContext win); [|now left].
  destruct (synth_init abcjs v); [now right|now right|].
  destruct (getMidiFile abcjs v); now right.
Qed.

(** C7 (amended): a run of the effect never touches the audio contexts of
    earlier runs.  A run that ends in the audio error has created one
    context of its own and closed it; a run that ends ready has created one
    and left it running; a run that ends in the visual error, or does
    nothing, has created none; a run caught by the outer handler has created
    none or left its own running.  An export closes no context either: it
    creates none or leaves its own running. *)
Theorem run_owns_its_context (win : Window) (musicData : GeneratedMusic) (st : State) :
  let r := render_effect win musicData st in
  match snd r with
  | AudioError => contexts (fst r) = contexts st ++ [Closed]
  | Ready => contexts (fst r) = contexts st ++ [Running]
  | Idle => contexts (fst r) = contexts st
  | VisualError => contexts (fst r) = contexts st
  | DisplayError =>
      contexts (fst r) = contexts st \/ contexts (fst r) = contexts st ++ [Running]
  | PrimingAudio _ _ => False
  end
  /\ (contexts (fst (handleDownloadMidi win musicData st)) = contexts st
      \/ contexts (fst (handleDownloadMidi win musicData st))
         = contexts st ++ [Running]).
Proof.
  cbv zeta. split; [|apply export_contexts]. unfold render_effect.
  pose proof (effect_sync_contexts win musicData st) as Hs.
  destruct (effect_sync win musicData st) as [st1 ph].
  cbn [fst snd] in Hs.
  destruct ph as [| | |v ctx| |]; try exact Hs; try contradiction.
  destruct Hs as [-> [Hc [abcjs [Ha Hi]]]]. rewrite Ha.
  pose proof (effect_settle_contexts abcjs musicData v st1 (contexts st) Hc Hi) as H.
  now destruct (snd (effect_settle abcjs musicData v (length (contexts st)) st1)).
Qed.

(* ================================================================= *)
(** ** The audio export *)

Lemma endsWith_app (x p : jsstring) : endsWith p (x ++ p) = true.
Proof. unfold endsWith. rewrite rev_app_distr. apply startsWith_app. Qed.

(** C6, as the specification words it, fails: while the promise chain of the
    first run is still pending, so before the run is ready, the export
    downloads the file. *)
Lemma export_before_ready_downloads :
  snd (effect_sync (window_with good_abcjs) song initial) = PrimingAudio 0 0
  /\ snd (handleDownloadMidi (window_with good_abcjs) song while_priming)
     = Downloaded (js "Song.mid") [77; 84; 104; 100]%N.
Proof. vm_compute. repeat split. Qed.

(** C6 (amended): the export does not look at where the render effect
    stands.  Whenever the notation is not empty, the library is loaded, the
    score container is in the tree, and the export's own rendering, its
    synthesizer, its audio context, the initialization and [getMidiFile]
    succeed, it downloads the bytes that [getMidiFile] resolved with, under
    the title (or [untitled]) followed by [.mid]. *)
Theorem export_downloads_midi (win : Window) (abcjs : Abcjs)
        (musicData : GeneratedMusic) (st : State) (drawn : html)
        (visualObjs : option (list VisualObj)) (v : VisualObj) (midi : list N) :
  truthy (abcNotation musicData) = true ->
  ABCJS win = Some abcjs ->
  renderError st = None ->
  renderAbc abcjs (abcNotation musicData) None = Returns (drawn, visualObjs) ->
  no_visual visualObjs = Some v ->
  CreateSynth abcjs = Returns tt ->
  newAudioContext win = Returns tt ->
  synth_init abcjs v = Resolves tt ->
  getMidiFile abcjs v = Resolves midi ->
  snd (handleDownloadMidi win musicData st) = Downloaded (midi_filename musicData) midi
  /\ endsWith (js ".mid") (midi_filename musicData) = true
  /\ renderError (fst (handleDownloadMidi win musicData st)) = renderError st
  /\ visual_innerHTML (fst (handleDownloadMidi win musicData st)) = visual_innerHTML st.
Proof.
  intros Hn Ha He Hr Hv Hc Hx Hi Hg.
  unfold handleDownloadMidi, visualRef_current.
  rewrite Hn, Ha, He. cbn [negb]. rewrite Hr, Hv, Hc, Hx, Hi, Hg.
  cbn [fst snd]. split; [reflexivity|].
  split; [unfold midi_filename; apply endsWith_app|].
  split; [simpl; exact He|reflexivity].
Qed.

(** C6 (amended) while the first run is still priming. *)
Lemma export_downloads_midi_witness :
  snd (handleDownloadMidi (window_with good_abcjs) song while_priming)
  = Downloaded (midi_filename song) [77; 84; 104; 100]%N
  /\ endsWith (js ".mid") (midi_filename song) = true
  /\ renderError (fst (handleDownloadMidi (window_with good_abcjs) song while_priming))
     = renderError while_priming
  /\ visual_innerHTML (fst (handleDownloadMidi (window_with good_abcjs) song while_priming))
     = visual_innerHTML while_priming.
Proof.
  apply (export_downloads_midi (window_with good_abcjs) good_abcjs song
           while_priming svg (Some [0]) 0 [77; 84; 104; 100]%N); reflexivity.
Defined.

(** Every failure of the export ends in one of three notices; none tells
    that the render effect is not ready. *)
Ltac notice :=
  let H := fresh "H" in
  intros H; inversion H; auto.

Lemma export_notices (win : Window) (musicData : GeneratedMusic) (st : State) (msg : jsstring) :
  snd (handleDownloadMidi win musicData st) = Alerted msg ->
  msg = msg_no_music \/ msg = msg_no_abcjs \/ msg = msg_export_failed.
Proof.
  unfold handleDownloadMidi.
  destruct (negb (truthy (abcNotation musicData))); [notice|].
  destruct (ABCJS win) as [abcjs|]; [|notice].
  destruct (negb (visualRef_current st)); [notice|].
  destruct (renderAbc abcjs (abcNotation musicData) None) as [[d visualObjs]|e];
    [|notice].
  destruct (no_visual visualObjs) as [v|]; [|notice].
  destruct (CreateSynth abcjs); [|notice].
  destruct (newAudioContext win); [|notice].
  destruct (synth_init abcjs v); [notice|notice|].
  destruct (getMidiFile abcjs v); notice.
Qed.

(** After an audio error the export fails, with the general notice: the
    ref of the score container is detached. *)
Lemma export_after_audio_error :
  snd (handleDownloadMidi (window_with prime_fails_abcjs) song
         (fst (render_effect (window_with prime_fails_abcjs) song initial)))
  = Alerted msg_export_failed.
Proof. vm_compute. reflexivity. Qed.

(** At the export that follows an audio error. *)
Lemma export_notices_witness :
  msg_export_failed = msg_no_music \/ msg_export_failed = msg_no_abcjs
  \/ msg_export_failed = msg_export_failed.
Proof.
  apply (export_notices (window_with prime_fails_abcjs) song
           (fst (render_effect (window_with prime_fails_abcjs) song initial))).
  vm_compute. reflexivity.
Defined.

(* ================================================================= *)
(** ** Further properties of the normalizer *)

Section TitleShape.

(** The title pattern never needs to backtrack: where the tag stands at a
    line start, the white-space run and the run of [.] are both taken whole. *)
Lemma exec_title (prev : option code_unit) (s : jsstring) :
  exec_at re_title prev s =
  if at_bol prev then
    match strip_prefix (js "T:") s with
    | Some s2 =>
        Some (dropWhile isDot (dropWhile isSpace s2),
              Some (takeWhile isDot (dropWhile isSpace s2)))
    | None => None
    end
  else None.
Proof.
  unfold exec_at, re_title. cbn [run].
  destruct (at_bol prev); [|reflexivity].
  destruct (strip_prefix (js "T:") s) as [s2|]; [|reflexivity].
  apply star_accept. cbn [run]. apply star_accept.
  now rewrite at_eol_dropWhile, firstn_takeWhile.
Qed.

Lemma search_title_group (s : jsstring) :
  forall (prev : option code_unit) (m : MatchResult),
    search re_title prev s = Some m ->
    exists s2, group1 m = Some (takeWhile isDot (dropWhile isSpace s2)).
Proof.
  induction s as [|c s IH]; intros prev m H; rewrite search_eq, exec_title in H.
  - destruct (at_bol prev); discriminate.
  - destruct (at_bol prev);
      [destruct (strip_prefix (js "T:") (c :: s)) as [s2|] eqn:E|].
    + inversion H; subst m. now exists s2.
    + destruct (search re_title (Some c) s) as [m'|] eqn:E'; [|discriminate].
      inversion H; subst m. exact (IH _ _ E').
    + destruct (search re_title (Some c) s) as [m'|] eqn:E'; [|discriminate].
      inversion H; subst m. exact (IH _ _ E').
Qed.

Lemma captured_title_shape (s2 : jsstring) :
  forallb isDot (takeWhile isDot (dropWhile isSpace s2)) = true
  /\ match takeWhile isDot (dropWhile isSpace s2) with
     | [] => True
     | c :: _ => isSpace c = false
     end.
Proof.
  split; [apply takeWhile_all|].
  pose proof (dropWhile_head isSpace s2) as H.
  destruct (dropWhile isSpace s2) as [|c r]; [exact I|].
  simpl. destruct (isDot c); [exact H|exact I].
Qed.

Lemma startsWith_app_text (p s t : jsstring) :
  startsWith p s = true -> startsWith p (s ++ t) = true.
Proof.
  unfold startsWith. revert s. induction p as [|c p IH]; intros s; [reflexivity|].
  destruct s as [|d s]; [discriminate|]. simpl.
  destruct (d =? c)%N; [apply IH|discriminate].
Qed.

(** Where the title pattern matches: at the first [T:] that stands at a line
    start; behind the tag come the white-space run, the captured text and
    the rest of the input, which begins at a line end; a capture that is
    empty reaches the end of the input. *)
Lemma search_title_split (s : jsstring) :
  forall (prev : option code_unit) (m : MatchResult),
    search re_title prev s = Some m ->
    exists w,
      s = before m ++ js "T:" ++ w ++ group1_text m ++ after m
      /\ forallb isSpace w = true
      /\ at_bol (last_of prev (before m)) = true
      /\ at_eol (after m) = true
      /\ existsb is_title_line (lines_from prev (before m)) = false
      /\ (group1_text m = [] -> after m = []).
Proof.
  induction s as [|c s IH]; intros prev m H; rewrite search_eq, exec_title in H.
  - destruct (at_bol prev); discriminate.
  - destruct (at_bol prev && match strip_prefix (js "T:") (c :: s) with
                             | Some _ => true | None => false end) eqn:Hhere.
    + apply andb_true_iff in Hhere as [Hb Hs]. rewrite Hb in H.
      destruct (strip_prefix (js "T:") (c :: s)) as [s2|] eqn:E; [|discriminate].
      inversion H; subst m; clear H. cbn [before after group1 group1_text].
      unfold group1_text. cbn [group1].
      exists (takeWhile isSpace s2).
      apply strip_prefix_some in E.
      split; [|split; [apply takeWhile_all|split; [exact Hb|split;
                 [apply at_eol_dropWhile|split]]]].
      * rewrite E. cbn [app]. do 2 f_equal.
        now rewrite (takeWhile_dropWhile isDot), (takeWhile_dropWhile isSpace).
      * rewrite lines_from_nil, Hb. reflexivity.
      * intros Hg. pose proof (dropWhile_head isSpace s2) as Hh.
        destruct (dropWhile isSpace s2) as [|d r]; [reflexivity|].
        cbn [takeWhile] in Hg. unfold isDot in Hg at 1.
        unfold isSpace in Hh. apply orb_false_iff in Hh as [_ Hh].
        rewrite Hh in Hg. discriminate.
    + assert (Hskip : (if at_bol prev
                       then match strip_prefix (js "T:") (c :: s) with
                            | Some s2 =>
                                Some (dropWhile isDot (dropWhile isSpace s2),
                                      Some (takeWhile isDot (dropWhile isSpace s2)))
                            | None => None
                            end
                       else None) = None).
      { destruct (at_bol prev); [|reflexivity].
        now destruct (strip_prefix (js "T:") (c :: s)). }
      rewrite Hskip in H.
      destruct (search re_title (Some c) s) as [m'|] eqn:E'; [|discriminate].
      inversion H; subst m; clear H.
      destruct (IH (Some c) m' E') as [w [Es [Hw [Hb [He [Hno Hg]]]]]].
      exists w. cbn [shift before after group1]. unfold group1_text in *.
      cbn [group1].
      split; [rewrite <- app_comm_cons; f_equal; exact Es|].
      split; [exact Hw|]. split; [now rewrite last_of_cons|]. split; [exact He|].
      split; [|exact Hg].
      rewrite lines_from_cons.
      destruct (at_bol prev) eqn:Hbp; [|exact Hno].
      cbn [existsb]. rewrite Hno, orb_false_r.
      unfold is_title_line. rewrite (startsWith_first_line (js "T:") _ eq_refl).
      destruct (startsWith (js "T:") (c :: before m')) eqn:Est; [|reflexivity].
      assert (Est' : startsWith (js "T:") (c :: s) = true).
      { rewrite Es, app_comm_cons. now apply startsWith_app_text. }
      cbn [andb] in Hhere. unfold startsWith in Est'.
      destruct (strip_prefix (js "T:") (c :: s)); discriminate.
Qed.

(** The title pattern finds a match in every text that holds a title line. *)
Lemma title_line_is_found (c : jsstring) :
  existsb is_title_line (lines c) = true -> String_match re_title c <> None.
Proof.
  intros H. apply existsb_exists in H as [l [Hin Hl]].
  apply in_split in Hin as [pre [post E]].
  unfold String_match.
  apply (search_reaches_line re_title l) with pre post; [|exact E].
  intros prev rest Hb He. rewrite exec_title, Hb.
  unfold is_title_line, startsWith in Hl.
  destruct (strip_prefix (js "T:") l) as [v|] eqn:Ev; [|discriminate].
  apply strip_prefix_some in Ev. subst l. rewrite <- app_assoc, strip_prefix_app.
  discriminate.
Qed.

End TitleShape.

(** The title returned is never empty, holds no line terminator and does
    not begin with white space, whatever the model answered.  It is the
    default title, or the text that stands behind the first [T:] at a line
    start and the white space after it (line breaks included, so the text
    may be that of a later line), up to the end of its line.  It is the
    default title only when the text has no title line, or when its first
    title tag is followed by white space alone to the end of the text. *)
Theorem title_is_one_line (raw : jsstring) :
  (exists c rest,
      title (parseAbcResponse raw) = c :: rest
      /\ isSpace c = false
      /\ forallb isDot (title (parseAbcResponse raw)) = true)
  /\ ((title (parseAbcResponse raw) = js "Untitled Composition"
       /\ (existsb is_title_line (lines (strip_fences raw)) = false
           \/ exists before w,
                strip_fences raw = before ++ js "T:" ++ w
                /\ at_bol (last_of None before) = true
                /\ existsb is_title_line (lines before) = false
                /\ forallb isSpace w = true))
      \/ exists before w rest,
           strip_fences raw
           = before ++ js "T:" ++ w ++ title (parseAbcResponse raw) ++ rest
           /\ at_bol (last_of None before) = true
           /\ existsb is_title_line (lines before) = false
           /\ forallb isSpace w = true
           /\ at_eol rest = true).
Proof.
  rewrite parseAbcResponse_eq. cbn [title].
  unfold with_title.
  destruct (String_match re_title (strip_fences raw)) as [m|] eqn:E.
  - destruct (search_title_group _ _ _ E) as [s2 Hg].
    destruct (search_title_split _ _ _ E) as [w [Es [Hw [Hb [He [Hno Hend]]]]]].
    unfold group1_text in *. rewrite Hg in *.
    destruct (captured_title_shape s2) as [Hd Hs].
    destruct (takeWhile isDot (dropWhile isSpace s2)) as [|c rest] eqn:Et.
    + cbn [truthy fst]. split; [now exists 85%N, (tl default_title)|].
      left. split; [reflexivity|]. right. exists (before m), w.
      rewrite (Hend eq_refl) in Es. cbn [app] in Es. rewrite app_nil_r in Es.
      now repeat split.
    + cbn [truthy fst]. split; [now exists c, rest|].
      right. exists (before m), w, (after m). now repeat split.
  - cbn [fst]. split; [now exists 85%N, (tl default_title)|].
    left. split; [reflexivity|]. left.
    destruct (existsb is_title_line (lines (strip_fences raw))) eqn:Ex; [|reflexivity].
    apply title_line_is_found in Ex. contradiction.
Qed.

Section NoTitleLine.

(** Without a line that begins with the tag, an anchored pattern finds
    nothing. *)
Lemma search_none_without_line (tag : jsstring) (r : regex) (s : jsstring) :
  forallb isDot tag = true ->
  existsb (startsWith tag) (lines s) = false ->
  search (Cat BolM (Cat (Str tag) r)) None s = None.
Proof.
  intros Htag H.
  destruct (search (Cat BolM (Cat (Str tag) r)) None s) as [m|] eqn:E; [|reflexivity].
  apply (search_finds_line tag r Htag) in E. unfold lines_from in E. simpl in E.
  now rewrite E in H.
Qed.

End NoTitleLine.

(** When no line of the unfenced, trimmed text begins with [T:], the default
    title is returned, the default title line is put before the text, and
    the body holds exactly one title line. *)
Theorem default_title_when_no_title_line (raw : jsstring) :
  existsb is_title_line (lines (strip_fences raw)) = false ->
  title (parseAbcResponse raw) = js "Untitled Composition"
  /\ abcNotation (parseAbcResponse raw)
     = complete (js "T:Untitled Composition" ++ LF :: strip_fences raw)
  /\ count_lines is_title_line (abcNotation (parseAbcResponse raw)) = 1.
Proof.
  intros H.
  assert (Hwt : with_title (strip_fences raw)
                = (default_title, js "T:Untitled Composition" ++ LF :: strip_fences raw)).
  { unfold with_title, String_match, re_title.
    now rewrite (search_none_without_line (js "T:") _ (strip_fences raw) eq_refl H). }
  rewrite parseAbcResponse_eq, Hwt. cbn [fst snd title abcNotation].
  split; [reflexivity|]. split; [reflexivity|].
  rewrite complete_title_lines. unfold count_lines.
  rewrite (lines_app_break (js "T:Untitled Composition") LF (strip_fences raw))
    by reflexivity.
  cbn [filter]. change (is_title_line (js "T:Untitled Composition")) with true.
  cbn [length]. f_equal. now apply count_lines_zero.
Qed.

(** At a tune without title line. *)
Lemma default_title_when_no_title_line_witness :
  title (parseAbcResponse (unlines ["X:1"; "K:C"; "CDE|"])) = js "Untitled Composition"
  /\ abcNotation (parseAbcResponse (unlines ["X:1"; "K:C"; "CDE|"]))
     = complete (js "T:Untitled Composition" ++ LF :: strip_fences (unlines ["X:1"; "K:C"; "CDE|"]))
  /\ count_lines is_title_line (abcNotation (parseAbcResponse (unlines ["X:1"; "K:C"; "CDE|"]))) = 1.
Proof.
  apply (default_title_when_no_title_line (unlines ["X:1"; "K:C"; "CDE|"])).
  reflexivity.
Defined.

Section LinesKept.

Lemma subseq_refl (A : Type) (l : list A) : subseq l l.
Proof. induction l; constructor; assumption. Qed.

Lemma subseq_trans (A : Type) (l1 l2 l3 : list A) :
  subseq l1 l2 -> subseq l2 l3 -> subseq l1 l3.
Proof.
  intros H12 H23. revert l1 H12.
  induction H23 as [|y l2 l3 H IH|x l2 l3 H IH]; intros l1 H12.
  - exact H12.
  - constructor. now apply IH.
  - inversion H12; subst.
    + constructor. now apply IH.
    + apply subseq_keep. now apply IH.
Qed.

Lemma subseq_app_r (A : Type) (l t : list A) : subseq l (l ++ t).
Proof.
  induction l as [|x l IH]; simpl.
  - induction t; constructor; assumption.
  - now apply subseq_keep.
Qed.

Lemma insert_after_index_subseq (line : jsstring) (ls : list jsstring) :
  subseq ls (insert_after_index line ls)
  /\ length (insert_after_index line ls) <= S (length ls).
Proof.
  induction ls as [|l ls [IH1 IH2]]; simpl.
  - split; [constructor|lia].
  - destruct (startsWith (js "X:") l); simpl.
    + split; [|lia]. apply subseq_keep, subseq_skip, subseq_refl.
    + split; [|lia]. now apply subseq_keep.
Qed.

Lemma adds_a_line_trans (s1 s2 s3 : jsstring) (n : nat) :
  subseq (lines s1) (lines s2) /\ length (lines s2) <= n + length (lines s1) ->
  adds_a_line s2 s3 ->
  subseq (lines s1) (lines s3) /\ length (lines s3) <= S n + length (lines s1).
Proof.
  intros [H1 H2] [H3 H4]. split; [now apply (subseq_trans _ _ _ _ H1)|lia].
Qed.

Lemma with_title_adds (c : jsstring) : adds_a_line c (snd (with_title c)).
Proof.
  assert (Hdef : adds_a_line c (js "T:Untitled Composition" ++ LF :: c)).
  { unfold adds_a_line.
    rewrite (lines_app_break (js "T:Untitled Composition") LF c) by reflexivity.
    split; [apply subseq_skip, subseq_refl|simpl; lia]. }
  unfold with_title.
  destruct (String_match re_title c) as [m|]; [|exact Hdef].
  destruct (truthy (group1_text m)); [|exact Hdef].
  split; [apply subseq_refl|cbn [snd]; lia].
Qed.

Lemma ensure_index_adds (c : jsstring) : adds_a_line c (ensure_index c).
Proof.
  unfold adds_a_line. rewrite ensure_index_lines.
  destruct (negb (test re_index c)).
  - split; [apply subseq_skip, subseq_refl|simpl; lia].
  - split; [apply subseq_refl|lia].
Qed.

Lemma ensure_field_adds (check : regex) (line c : jsstring) :
  forallb isDot line = true -> adds_a_line c (ensure_field check line c).
Proof.
  intros Hl. unfold adds_a_line. rewrite (ensure_field_lines _ _ _ Hl).
  destruct (negb (test check c)).
  - apply insert_after_index_subseq.
  - split; [apply subseq_refl|lia].
Qed.

Lemma ensure_content_adds (c : jsstring) : adds_a_line c (ensure_content c).
Proof.
  unfold adds_a_line. rewrite ensure_content_lines.
  destruct (negb (test re_bar c) && negb (test re_pitch c)).
  - split; [apply subseq_app_r|rewrite length_app; simpl; lia].
  - split; [apply subseq_refl|lia].
Qed.

End LinesKept.

(** The normalizer only adds lines: the lines of the unfenced, trimmed text
    are all in the body, unchanged and in their order, with at most six
    lines put in between, before or after them. *)
Theorem lines_are_kept (raw : jsstring) :
  subseq (lines (strip_fences raw)) (lines (abcNotation (parseAbcResponse raw)))
  /\ length (lines (abcNotation (parseAbcResponse raw)))
     <= 6 + length (lines (strip_fences raw)).
Proof.
  rewrite parseAbcResponse_eq. cbn [abcNotation]. unfold complete.
  set (c0 := strip_fences raw).
  assert (H0 : subseq (lines c0) (lines c0) /\ length (lines c0) <= 0 + length (lines c0))
    by (split; [apply subseq_refl|lia]).
  pose proof (adds_a_line_trans _ _ _ _ H0 (with_title_adds c0)) as H1.
  pose proof (adds_a_line_trans _ _ _ _ H1 (ensure_index_adds _)) as H2.
  pose proof (adds_a_line_trans _ _ _ _ H2
                (ensure_field_adds re_key (js "K:C") _ eq_refl)) as H3.
  pose proof (adds_a_line_trans _ _ _ _ H3
                (ensure_field_adds re_meter (js "M:4/4") _ eq_refl)) as H4.
  pose proof (adds_a_line_trans _ _ _ _ H4
                (ensure_field_adds re_tempo (js "Q:1/4=120") _ eq_refl)) as H5.
  exact (adds_a_line_trans _ _ _ _ H5 (ensure_content_adds _)).
Qed.

Section HeaderOrder.

(** The text up to its first index line, that line, and the rest. *)
Lemma first_index_line (ls : list jsstring) :
  existsb is_index_line ls = true ->
  exists pre x post,
    ls = pre ++ x :: post
    /\ existsb is_index_line pre = false
    /\ is_index_line x = true.
Proof.
  induction ls as [|l ls IH]; simpl; [discriminate|].
  destruct (is_index_line l) eqn:E; intros H.
  - now exists [], l, ls.
  - destruct (IH H) as [pre [x [post [-> [Hp Hx]]]]].
    exists (l :: pre), x, post. simpl. now rewrite E.
Qed.

Lemma insert_after_index_at (line : jsstring) (pre : list jsstring)
      (x : jsstring) (post : list jsstring) :
  existsb is_index_line pre = false -> is_index_line x = true ->
  insert_after_index line (pre ++ x :: post) = pre ++ x :: line :: post.
Proof.
  intros Hp Hx. induction pre as [|l pre IH]; simpl.
  - unfold is_index_line in Hx. now rewrite Hx.
  - simpl in Hp. apply orb_false_iff in Hp as [Hl Hp].
    unfold is_index_line in Hl. rewrite Hl. now rewrite (IH Hp).
Qed.

Lemma existsb_insert_after_index (P : jsstring -> bool) (line : jsstring)
      (ls : list jsstring) :
  P line = false -> existsb P ls = false ->
  existsb P (insert_after_index line ls) = false.
Proof.
  intros HP. induction ls as [|l ls IH]; simpl; [reflexivity|].
  intros H. apply orb_false_iff in H as [Hl Hls].
  destruct (startsWith (js "X:") l); simpl; rewrite Hl; simpl.
  - now rewrite HP.
  - now apply IH.
Qed.

Lemma test_field_false (tag c : jsstring) :
  forallb isDot tag = true ->
  existsb (startsWith tag) (lines c) = false ->
  test (re_field tag) c = false.
Proof.
  intros Htag H. unfold test, String_match, re_field.
  now rewrite (search_none_without_line tag _ c Htag H).
Qed.

End HeaderOrder.

(** When the unfenced, trimmed text has no key, no meter and no tempo line,
    the three defaults stand right behind the first index line of the body,
    the tempo first, then the meter, then the key. *)
Theorem defaults_follow_first_index_line (raw : jsstring) :
  existsb is_key_line (lines (strip_fences raw)) = false ->
  existsb is_meter_line (lines (strip_fences raw)) = false ->
  existsb is_tempo_line (lines (strip_fences raw)) = false ->
  exists pre x post,
    lines (abcNotation (parseAbcResponse raw))
    = pre ++ x :: js "Q:1/4=120" :: js "M:4/4" :: js "K:C" :: post
    /\ existsb is_index_line pre = false
    /\ is_index_line x = true.
Proof.
  intros Hk Hm Hq. rewrite parseAbcResponse_eq. cbn [abcNotation].
  set (c0 := strip_fences raw) in *.
  assert (H1 : forall P, P (js "T:Untitled Composition") = false ->
                         existsb P (lines c0) = false ->
                         existsb P (lines (snd (with_title c0))) = false).
  { intros P HP H. unfold with_title.
    assert (Hd : existsb P (lines (js "T:Untitled Composition" ++ LF :: c0)) = false).
    { rewrite (lines_app_break (js "T:Untitled Composition") LF c0) by reflexivity.
      simpl. now rewrite HP. }
    destruct (String_match re_title c0) as [m|]; [|exact Hd].
    now destruct (truthy (group1_text m)). }
  set (c1 := snd (with_title c0)) in *.
  assert (H2 : forall P, P (js "X:1") = false ->
                         existsb P (lines c1) = false ->
                         existsb P (lines (ensure_index c1)) = false).
  { intros P HP H. rewrite ensure_index_lines.
    destruct (negb (test re_index c1)); [|exact H]. simpl. now rewrite HP. }
  pose proof (ensure_index_has_index c1) as Hx.
  set (c2 := ensure_index c1) in *.
  destruct (first_index_line _ Hx) as [pre [x [post [E2 [Hpre Hix]]]]].
  assert (Hk2 : existsb is_key_line (lines c2) = false)
    by (apply H2; [reflexivity|]; now apply H1).
  assert (Hm2 : existsb is_meter_line (lines c2) = false)
    by (apply H2; [reflexivity|]; now apply H1).
  assert (Hq2 : existsb is_tempo_line (lines c2) = false)
    by (apply H2; [reflexivity|]; now apply H1).
  unfold complete. fold c2.
  assert (E3 : lines (ensure_field re_key (js "K:C") c2)
               = pre ++ x :: js "K:C" :: post).
  { rewrite (ensure_field_lines re_key (js "K:C") c2 eq_refl).
    unfold re_key. rewrite (test_field_false (js "K:") c2 eq_refl Hk2).
    cbn [negb]. rewrite E2. now apply insert_after_index_at. }
  set (c3 := ensure_field re_key (js "K:C") c2) in *.
  assert (Hm3 : existsb is_meter_line (lines c3) = false).
  { rewrite E3, <- (insert_after_index_at (js "K:C") pre x post Hpre Hix), <- E2.
    now apply existsb_insert_after_index. }
  assert (Hq3 : existsb is_tempo_line (lines c3) = false).
  { rewrite E3, <- (insert_after_index_at (js "K:C") pre x post Hpre Hix), <- E2.
    now apply existsb_insert_after_index. }
  assert (E4 : lines (ensure_field re_meter (js "M:4/4") c3)
               = pre ++ x :: js "M:4/4" :: js "K:C" :: post).
  { rewrite (ensure_field_lines re_meter (js "M:4/4") c3 eq_refl).
    unfold re_meter. rewrite (test_field_false (js "M:") c3 eq_refl Hm3).
    cbn [negb]. rewrite E3. now apply insert_after_index_at. }
  set (c4 := ensure_field re_meter (js "M:4/4") c3) in *.
  assert (Hq4 : existsb is_tempo_line (lines c4) = false).
  { rewrite E4, <- (insert_after_index_at (js "M:4/4") pre x (js "K:C" :: post) Hpre Hix),
      <- E3.
    now apply existsb_insert_after_index. }
  assert (E5 : lines (ensure_field re_tempo (js "Q:1/4=120") c4)
               = pre ++ x :: js "Q:1/4=120" :: js "M:4/4" :: js "K:C" :: post).
  { rewrite (ensure_field_lines re_tempo (js "Q:1/4=120") c4 eq_refl).
    unfold re_tempo. rewrite (test_field_false (js "Q:") c4 eq_refl Hq4).
    cbn [negb]. rewrite E4. now apply insert_after_index_at. }
  rewrite ensure_content_lines, E5.
  match goal with |- context [if ?b then _ else _] => destruct b end.
  - exists pre, x, (post ++ [js "C |"]). split; [|now split].
    rewrite <- app_assoc. reflexivity.
  - now exists pre, x, post.
Qed.

(** At an answer of one blank: the body begins with the index line, the
    tempo, the meter and the key. *)
Lemma defaults_follow_first_index_line_witness :
  exists pre x post,
    lines (abcNotation (parseAbcResponse blank_answer))
    = pre ++ x :: js "Q:1/4=120" :: js "M:4/4" :: js "K:C" :: post
    /\ existsb is_index_line pre = false
    /\ is_index_line x = true.
Proof.
  apply (defaults_follow_first_index_line blank_answer); reflexivity.
Defined.

Section FenceFree.

(** Where the fence pattern matches: at three backticks, with [abc] taken
    too when it follows. *)
Lemma exec_fence (prev : option code_unit) (s : jsstring) :
  exec_at re_fence prev s =
  match strip_prefix (js "```") s with
  | Some s3 =>
      match strip_prefix (js "abc") s3 with
      | Some s6 => Some (s6, Some (firstn (length s3 - length s6) s3))
      | None => Some (s3, None)
      end
  | None => None
  end.
Proof.
  unfold exec_at, re_fence. cbn [run].
  destruct (strip_prefix (js "```") s) as [s3|]; [|reflexivity].
  now destruct (strip_prefix (js "abc") s3).
Qed.

Lemma unfence_prev (s : jsstring) :
  forall (skip : nat) (p q : option code_unit),
    unfence_from p s skip = unfence_from q s skip.
Proof.
  unfold unfence_from.
  induction s as [|c s IH]; intros skip p q; cbn [replace_all_from].
  - now rewrite !exec_fence.
  - destruct skip as [|n]; [|apply IH].
    rewrite !exec_fence. reflexivity.
Qed.

Lemma unfence_skip (s : jsstring) :
  forall (skip : nat) (p : option code_unit),
    unfence_from p s skip = unfence_from None (skipn skip s) 0.
Proof.
  induction s as [|c s IH]; intros skip p.
  - destruct skip; [apply unfence_prev|].
    unfold unfence_from. cbn [replace_all_from skipn]. now rewrite exec_fence.
  - destruct skip as [|n]; [apply unfence_prev|].
    cbn [skipn]. rewrite <- (IH n (Some c)). reflexivity.
Qed.

Lemma length_strip_prefix (p s r : jsstring) :
  strip_prefix p s = Some r -> length s = length p + length r.
Proof.
  intros H. apply strip_prefix_some in H. subst s. apply length_app.
Qed.

Lemma skipn_strip_prefix (p s r : jsstring) :
  strip_prefix p s = Some r -> skipn (length p) s = r.
Proof.
  intros H. apply strip_prefix_some in H. subst s.
  now rewrite skipn_app, Nat.sub_diag, skipn_all.
Qed.

(** The global replacement, one match at a time. *)
Lemma unfence_eq (s : jsstring) :
  replace_all re_fence [] s =
  match strip_prefix (js "```") s with
  | Some s3 =>
      match strip_prefix (js "abc") s3 with
      | Some s6 => replace_all re_fence [] s6
      | None => replace_all re_fence [] s3
      end
  | None =>
      match s with
      | [] => []
      | c :: s' => c :: replace_all re_fence [] s'
      end
  end.
Proof.
  unfold replace_all. fold (unfence_from None s 0).
  destruct s as [|c s']; [reflexivity|].
  unfold unfence_from at 1. cbn [replace_all_from]. rewrite exec_fence.
  destruct (strip_prefix (js "```") (c :: s')) as [s3|] eqn:E3.
  - pose proof (length_strip_prefix _ _ _ E3) as L3.
    pose proof (skipn_strip_prefix _ _ _ E3) as K3.
    destruct (strip_prefix (js "abc") s3) as [s6|] eqn:E6.
    + pose proof (length_strip_prefix _ _ _ E6) as L6.
      pose proof (skipn_strip_prefix _ _ _ E6) as K6.
      change (length (js "```")) with 3 in L3.
      change (length (js "abc")) with 3 in L6.
      replace (length (c :: s') - length s6) with 6 by lia.
      cbn [app]. fold (unfence_from (Some c) s' 5). rewrite unfence_skip.
      change (skipn 5 s') with (skipn 6 (c :: s')).
      change 6 with (3 + 3). rewrite <- skipn_skipn.
      change (length (js "```")) with 3 in K3. rewrite K3.
      change (length (js "abc")) with 3 in K6. now rewrite K6.
    + change (length (js "```")) with 3 in L3.
      replace (length (c :: s') - length s3) with 3 by lia.
      cbn [app]. fold (unfence_from (Some c) s' 2). rewrite unfence_skip.
      change (skipn 2 s') with (skipn 3 (c :: s')).
      change (length (js "```")) with 3 in K3. now rewrite K3.
  - fold (unfence_from (Some c) s' 0). now rewrite (unfence_prev s' 0 (Some c) None).
Qed.

End FenceFree.

Section FenceFreeResult.

Lemma unfence_nil : replace_all re_fence [] [] = [].
Proof. reflexivity. Qed.

Lemma unfence_cons (c : code_unit) (s : jsstring) :
  startsWith (js "```") (c :: s) = false ->
  replace_all re_fence [] (c :: s) = c :: replace_all re_fence [] s.
Proof.
  intros H. rewrite unfence_eq. unfold startsWith in H.
  now destruct (strip_prefix (js "```") (c :: s)).
Qed.

Lemma startsWith_tick (c : code_unit) (s : jsstring) (p : jsstring) :
  startsWith (96%N :: p) (c :: s) = (c =? 96)%N && startsWith p s.
Proof.
  unfold startsWith. cbn [strip_prefix]. now destruct (c =? 96)%N.
Qed.

Lemma unfence_no_tick (s : jsstring) :
  startsWith [96%N] s = false ->
  startsWith [96%N] (replace_all re_fence [] s) = false.
Proof.
  destruct s as [|c s]; [reflexivity|]. intros H.
  rewrite startsWith_tick in H. rewrite unfence_cons.
  - now rewrite startsWith_tick.
  - change (js "```") with (96%N :: [96%N; 96%N]). rewrite startsWith_tick.
    apply andb_false_iff in H as [H|H]; [now rewrite H|discriminate].
Qed.

Lemma startsWith_longer (p q s : jsstring) :
  startsWith p s = false -> startsWith (p ++ q) s = false.
Proof.
  unfold startsWith. revert s. induction p as [|c p IH]; intros s; [discriminate|].
  destruct s as [|d s]; [reflexivity|]. simpl.
  destruct (d =? c)%N; [apply IH|reflexivity].
Qed.

Lemma unfence_no_two_ticks (s : jsstring) :
  startsWith [96%N; 96%N] s = false ->
  startsWith [96%N; 96%N] (replace_all re_fence [] s) = false.
Proof.
  destruct s as [|c s]; [reflexivity|]. intros H.
  pose proof (startsWith_longer [96%N; 96%N] [96%N] (c :: s) H) as H3.
  change ([96%N; 96%N] ++ [96%N]) with (js "```") in H3.
  rewrite (unfence_cons _ _ H3), startsWith_tick.
  rewrite startsWith_tick in H.
  destruct (c =? 96)%N; [|reflexivity]. cbn [andb] in *.
  now apply unfence_no_tick.
Qed.

Lemma unfence_has_no_fence (n : nat) :
  forall s : jsstring, length s <= n ->
    has_fence (replace_all re_fence [] s) = false.
Proof.
  induction n as [|n IH]; intros s Hn.
  - destruct s; [reflexivity|simpl in Hn; lia].
  - destruct s as [|c s]; [reflexivity|].
    destruct (strip_prefix (js "```") (c :: s)) as [s3|] eqn:E3.
    + rewrite unfence_eq, E3.
      pose proof (length_strip_prefix _ _ _ E3) as L3.
      change (length (js "```")) with 3 in L3.
      destruct (strip_prefix (js "abc") s3) as [s6|] eqn:E6.
      * pose proof (length_strip_prefix _ _ _ E6) as L6.
        apply IH. simpl in Hn. simpl in L3. lia.
      * apply IH. simpl in Hn. simpl in L3. lia.
    + assert (H3 : startsWith (js "```") (c :: s) = false)
        by (unfold startsWith; now rewrite E3).
      rewrite (unfence_cons _ _ H3). cbn [has_fence].
      rewrite (IH s) by (simpl in Hn; lia). rewrite orb_false_r.
      change (js "```") with (96%N :: [96%N; 96%N]) in *.
      rewrite startsWith_tick in *.
      destruct (c =? 96)%N; [|reflexivity]. simpl in *.
      now apply unfence_no_two_ticks.
Qed.

Lemma has_fence_tail (c : code_unit) (s : jsstring) :
  has_fence (c :: s) = false -> has_fence s = false.
Proof. cbn [has_fence]. intros H. now apply orb_false_iff in H. Qed.

Lemma has_fence_dropWhile (p : code_unit -> bool) (s : jsstring) :
  has_fence s = false -> has_fence (dropWhile p s) = false.
Proof.
  induction s as [|c s IH]; [reflexivity|]. intros H. simpl dropWhile.
  destruct (p c); [|exact H]. apply IH. exact (has_fence_tail _ _ H).
Qed.

Lemma startsWith_app_l (p s t : jsstring) :
  startsWith p s = true -> startsWith p (s ++ t) = true.
Proof.
  unfold startsWith. revert s. induction p as [|c p IH]; intros s; [reflexivity|].
  destruct s as [|d s]; [discriminate|]. simpl.
  destruct (d =? c)%N; [apply IH|discriminate].
Qed.

Lemma has_fence_prefix (s t : jsstring) :
  has_fence (s ++ t) = false -> has_fence s = false.
Proof.
  induction s as [|c s IH]; [reflexivity|]. simpl app. cbn [has_fence].
  intros H. apply orb_false_iff in H as [H1 H2]. rewrite (IH H2), orb_false_r.
  destruct (startsWith (js "```") (c :: s)) eqn:E; [|reflexivity].
  pose proof (startsWith_app_l _ (c :: s) t E) as E'.
  change ((c :: s) ++ t) with (c :: s ++ t) in E'. now rewrite E' in H1.
Qed.

(** Trimming cuts a piece off each end. *)
Lemma trimEnd_prefix (s : jsstring) : exists t, s = trimEnd s ++ t.
Proof.
  exists (rev (takeWhile isSpace (rev s))). unfold trimEnd.
  rewrite <- rev_app_distr, takeWhile_dropWhile. now rewrite rev_involutive.
Qed.

Lemma has_fence_trim (s : jsstring) :
  has_fence s = false -> has_fence (trim s) = false.
Proof.
  intros H. unfold trim. apply (has_fence_dropWhile isSpace) in H.
  fold (trimStart s) in H.
  destruct (trimEnd_prefix (trimStart s)) as [t Ht].
  rewrite Ht in H. exact (has_fence_prefix _ _ H).
Qed.

Lemma trim_is_trimmed (s : jsstring) : is_trimmed (trim s) = true.
Proof.
  unfold is_trimmed, trim. apply andb_true_iff. split.
  - destruct (trimEnd_prefix (trimStart s)) as [t Ht].
    pose proof (dropWhile_head isSpace s) as Hh. fold (trimStart s) in Hh.
    destruct (trimEnd (trimStart s)) as [|c r]; [reflexivity|].
    rewrite Ht in Hh. simpl in Hh. now rewrite Hh.
  - unfold trimEnd. rewrite rev_involutive.
    pose proof (dropWhile_head isSpace (rev (trimStart s))) as Hh.
    destruct (dropWhile isSpace (rev (trimStart s))) as [|c r]; [reflexivity|].
    now rewrite Hh.
Qed.

End FenceFreeResult.

(** Step 1 leaves no code fence and no white space at either end: every run
    of three backticks is gone, also where removing one fence brings
    backticks together. *)
Theorem strip_fences_is_clean (raw : jsstring) :
  has_fence (strip_fences raw) = false
  /\ is_trimmed (strip_fences raw) = true.
Proof.
  unfold strip_fences. split.
  - apply has_fence_trim. now apply (unfence_has_no_fence (length raw)).
  - apply trim_is_trimmed.
Qed.

Section StepOneTwice.

Lemma unfence_id (s : jsstring) :
  has_fence s = false -> replace_all re_fence [] s = s.
Proof.
  induction s as [|c s IH]; [reflexivity|]. cbn [has_fence]. intros H.
  apply orb_false_iff in H as [H1 H2].
  now rewrite (unfence_cons _ _ H1), (IH H2).
Qed.

Lemma trim_id (s : jsstring) : is_trimmed s = true -> trim s = s.
Proof.
  unfold is_trimmed, trim, trimEnd, trimStart. intros H.
  apply andb_true_iff in H as [H1 H2].
  assert (E1 : dropWhile isSpace s = s).
  { destruct s as [|c s]; [reflexivity|]. simpl.
    apply negb_true_iff in H1. now rewrite H1. }
  rewrite E1.
  assert (E2 : dropWhile isSpace (rev s) = rev s).
  { destruct (rev s) as [|c r]; [reflexivity|]. simpl.
    apply negb_true_iff in H2. now rewrite H2. }
  now rewrite E2, rev_involutive.
Qed.

End StepOneTwice.

(** Step 1 is idempotent: unfencing and trimming a text a second time
    changes nothing. *)
Theorem strip_fences_idempotent (raw : jsstring) :
  strip_fences (strip_fences raw) = strip_fences raw.
Proof.
  assert (Hf : has_fence (strip_fences raw) = false).
  { unfold strip_fences. apply has_fence_trim.
    now apply (unfence_has_no_fence (length raw)). }
  assert (Ht : is_trimmed (strip_fences raw) = true)
    by (unfold strip_fences; apply trim_is_trimmed).
  unfold strip_fences at 1. now rewrite (unfence_id _ Hf), (trim_id _ Ht).
Qed.

(* ================================================================= *)
(** ** Further properties of the display *)

Section RunCalls.

Lemma close_calls (st : State) (cs : list ContextState) :
  contexts st = cs ++ [Running] ->
  calls (close (length cs) st) = calls st ++ [CallClose (length cs)].
Proof.
  intros E. unfold close. rewrite E.
  rewrite nth_error_app2 by lia. now rewrite Nat.sub_diag.
Qed.

Lemma effect_sync_calls (win : Window) (musicData : GeneratedMusic) (st : State) :
  match snd (effect_sync win musicData st) with
  | PrimingAudio v ctx =>
      calls (fst (effect_sync win musicData st)) = calls st ++ firstn 4 DisplayLife.full_run
  | AudioError => False
  | Ready => False
  | _ => exists k, calls (fst (effect_sync win musicData st))
                   = calls st ++ firstn k DisplayLife.full_run
  end.
Proof.
  unfold effect_sync.
  destruct (ABCJS win) as [abcjs|]; [|exists 0; cbn; now rewrite app_nil_r].
  destruct (negb (truthy (abcNotation musicData)) || negb (visualRef_current st));
    [exists 0; cbn; now rewrite app_nil_r|].
  cbn [currentStaffWidth log setRenderError set_audio set_visual].
  destruct (renderAbc abcjs (abcNotation musicData) (Some (currentStaffWidth st)))
    as [[drawn visualObjs]|e0]; [|now exists 1].
  destruct (no_visual visualObjs) as [v|]; [|now exists 1].
  destruct (CreateSynth abcjs) as [u|e1];
    [|exists 2; cbn; now rewrite <- app_assoc].
  destruct (newAudioContext win) as [u'|e2];
    [|exists 3; cbn; now rewrite <- !app_assoc].
  destruct (synth_init abcjs v) as [e3|e3|u3]; cbn; rewrite <- !app_assoc;
    [now exists 4|reflexivity|reflexivity].
Qed.

Lemma audio_failed_calls (e : JsError) (st : State) (cs : list ContextState) :
  contexts st = cs ++ [Running] ->
  calls (fst (audio_failed e (length cs) st)) = calls st ++ [CallClose (length cs)].
Proof.
  intros E. unfold audio_failed. cbn [fst].
  now rewrite (close_calls (setRenderError (Some (msg_audio e)) st) cs E).
Qed.

Lemma effect_settle_calls (abcjs : Abcjs) (musicData : GeneratedMusic)
      (v : VisualObj) (st : State) (cs : list ContextState) :
  contexts st = cs ++ [Running] ->
  (forall e, synth_init abcjs v <> ThrowsSync e) ->
  (snd (effect_settle abcjs musicData v (length cs) st) = Ready
   /\ calls (fst (effect_settle abcjs musicData v (length cs) st))
      = calls st ++ [CallPrime; CallRenderMidi])
  \/ (snd (effect_settle abcjs musicData v (length cs) st) = AudioError
      /\ exists j, j <= 2
         /\ calls (fst (effect_settle abcjs musicData v (length cs) st))
            = calls st ++ firstn j [CallPrime; CallRenderMidi]
              ++ [CallClose (length cs)]).
Proof.
  intros E Hi. unfold effect_settle.
  destruct (synth_init abcjs v) as [e0|e0|u]; [now elim (Hi e0)| |].
  - right. split; [reflexivity|]. exists 0. split; [lia|].
    now rewrite (audio_failed_calls e0 st cs E).
  - destruct (synth_prime abcjs v) as [e1|e1|u1].
    + right. split; [reflexivity|]. exists 1. split; [lia|].
      rewrite (audio_failed_calls e1 (log CallPrime st) cs E). cbn.
      now rewrite <- app_assoc.
    + right. split; [reflexivity|]. exists 1. split; [lia|].
      rewrite (audio_failed_calls e1 (log CallPrime st) cs E). cbn.
      now rewrite <- app_assoc.
    + destruct (renderMidi abcjs (abcNotation musicData)) as [c|e2].
      * left. split; [reflexivity|]. cbn. now rewrite <- app_assoc.
      * right. split; [reflexivity|]. exists 2. split; [lia|].
        rewrite (audio_failed_calls e2 (log CallRenderMidi (log CallPrime st)) cs E).
        cbn. now rewrite <- !app_assoc.
Qed.

End RunCalls.

(** The calls of one run of the effect always come in the same order:
    rendering, synthesizer, audio context, init, prime, controls; a run stops
    somewhere in this list, and only a run that ends in the audio error adds
    one more call, the closing of its own audio context. *)
Theorem run_calls_in_order (win : Window) (musicData : GeneratedMusic) (st : State) :
  exists k tail,
    calls (fst (render_effect win musicData st))
    = calls st ++ firstn k DisplayLife.full_run ++ tail
    /\ (tail = []
        \/ (snd (render_effect win musicData st) = AudioError
            /\ tail = [CallClose (length (contexts st))])).
Proof.
  unfold render_effect.
  pose proof (effect_sync_calls win musicData st) as Hc.
  pose proof (effect_sync_contexts win musicData st) as Hs.
  destruct (effect_sync win musicData st) as [st1 ph]. cbn [fst snd] in *.
  destruct ph as [| | |v ctx| |]; try contradiction.
  - destruct Hc as [k Hk]. exists k, []. rewrite app_nil_r. split; [exact Hk|now left].
  - destruct Hc as [k Hk]. exists k, []. rewrite app_nil_r. split; [exact Hk|now left].
  - destruct Hc as [k Hk]. exists k, []. rewrite app_nil_r. split; [exact Hk|now left].
  - destruct Hs as [-> [Hctx [abcjs [Ha Hi]]]]. rewrite Ha.
    destruct (effect_settle_calls abcjs musicData v st1 (contexts st) Hctx Hi)
      as [[Hr Hcalls]|[Hr [j [Hj Hcalls]]]].
    + exists 6, []. rewrite Hcalls, Hc, app_nil_r, <- app_assoc.
      split; [reflexivity|now left].
    + exists (4 + j), [CallClose (length (contexts st))].
      rewrite Hcalls, Hc, <- !app_assoc. split; [reflexivity|right; now split].
Qed.

Section HappyPath.

Variable win : Window.
Variable abcjs : Abcjs.
Variable musicData : GeneratedMusic.
Variable st : State.

Hypothesis Hloaded : ABCJS win = Some abcjs.
Hypothesis Hnotation : truthy (abcNotation musicData) = true.
Hypothesis Hmounted : renderError st = None.

(** When every collaborator call succeeds, the run ends ready: no error is
    set, the score container holds what was drawn and is shown, the audio
    container holds the controls, all six calls were made in order, and one
    more audio context is running than before. *)
Theorem successful_run_is_ready (drawn controls : html)
        (visualObjs : option (list VisualObj)) (v : VisualObj) :
  renderAbc abcjs (abcNotation musicData) (Some (currentStaffWidth st))
  = Returns (drawn, visualObjs) ->
  no_visual visualObjs = Some v ->
  CreateSynth abcjs = Returns tt ->
  newAudioContext win = Returns tt ->
  synth_init abcjs v = Resolves tt ->
  synth_prime abcjs v = Resolves tt ->
  renderMidi abcjs (abcNotation musicData) = Returns controls ->
  let r := render_effect win musicData st in
  snd r = Ready
  /\ renderError (fst r) = None
  /\ view (fst r) = SheetMusic drawn
  /\ audio_innerHTML (fst r) = controls
  /\ calls (fst r) = calls st ++ DisplayLife.full_run
  /\ contexts (fst r) = contexts st ++ [Running]
  /\ running_contexts (fst r) = S (running_contexts st)
  /\ currentStaffWidth (fst r) = currentStaffWidth st.
Proof.
  intros Hr Hv Hc Hx Hi Hp Hm. cbv zeta.
  assert (Hns : forall e, synth_init abcjs v <> ThrowsSync e)
    by (intros e; rewrite Hi; discriminate).
  rewrite (render_effect_priming win abcjs musicData st _ _ _ Hloaded
             (effect_sync_priming win abcjs musicData st Hloaded Hnotation Hmounted
                drawn visualObjs v Hr Hv Hc Hx Hns)).
  unfold effect_settle. rewrite Hi, Hp, Hm.
  cbn [fst snd]. unfold view, running_contexts, primed_state. cbn.
  rewrite <- !app_assoc. repeat split.
  rewrite filter_app, length_app. simpl. lia.
Qed.

End HappyPath.

(** At the collaborator for which every call succeeds, from the component's
    first state. *)
Lemma successful_run_is_ready_witness :
  let r := render_effect (window_with good_abcjs) song initial in
  snd r = Ready
  /\ renderError (fst r) = None
  /\ view (fst r) = SheetMusic svg
  /\ audio_innerHTML (fst r) = js "<div>controls</div>"
  /\ calls (fst r) = DisplayLife.full_run
  /\ contexts (fst r) = [Running]
  /\ running_contexts (fst r) = 1
  /\ currentStaffWidth (fst r) = 0%Z.
Proof.
  apply (successful_run_is_ready (window_with good_abcjs) good_abcjs song initial
           eq_refl eq_refl eq_refl svg (js "<div>controls</div>") (Some [0]) 0);
    reflexivity.
Defined.

Section DisplayInvariants.

Lemma effect_sync_skipped (win : Window) (musicData : GeneratedMusic) (st : State)
      (msg : jsstring) :
  renderError st = Some msg -> effect_sync win musicData st = (st, Idle).
Proof.
  intros He. unfold effect_sync, visualRef_current. rewrite He.
  destruct (ABCJS win); [|reflexivity].
  now rewrite orb_true_r.
Qed.

Lemma effect_skipped (win : Window) (musicData : GeneratedMusic) (st : State)
      (msg : jsstring) :
  renderError st = Some msg -> render_effect win musicData st = (st, Idle).
Proof.
  intros He. unfold render_effect. now rewrite (effect_sync_skipped win musicData st msg He).
Qed.

Lemma act_with_error (a : DisplayLife.Action) (life : DisplayLife.Life) (msg : jsstring) :
  renderError (DisplayLife.shown life) = Some msg -> DisplayLife.act a life = life.
Proof.
  intros He. destruct life as [st cs]. cbn [DisplayLife.shown] in He.
  destruct a as [win musicData|w|win musicData];
    cbn [DisplayLife.act DisplayLife.shown DisplayLife.chains].
  - unfold DisplayLife.start_effect. cbn [DisplayLife.shown DisplayLife.chains].
    now rewrite (effect_sync_skipped win musicData st msg He).
  - unfold calculateStaffWidth, visualRef_current. now rewrite He.
  - unfold handleDownloadMidi, visualRef_current. rewrite He.
    destruct (negb (truthy (abcNotation musicData))); [reflexivity|].
    now destruct (ABCJS win).
Qed.

Lemma acts_with_error (acts : list DisplayLife.Action) (life : DisplayLife.Life)
      (msg : jsstring) :
  renderError (DisplayLife.shown life) = Some msg ->
  DisplayLife.run (map DisplayLife.Does acts) life = life.
Proof.
  intros He. induction acts as [|a acts IH]; [reflexivity|].
  cbn [map DisplayLife.run DisplayLife.step].
  now rewrite (act_with_error a life msg He).
Qed.

Lemma audio_failed_error (e : JsError) (ctx : nat) (st : State) :
  renderError (fst (audio_failed e ctx st)) = Some (msg_audio e).
Proof.
  unfold audio_failed, close. cbn [fst].
  destruct (nth_error (contexts (setRenderError (Some (msg_audio e)) st)) ctx)
    as [[|]|]; reflexivity.
Qed.

(** No handler of a chain clears the error. *)
Lemma chain_step_keeps_error (c : DisplayLife.Chain) (st : State) (msg : jsstring) :
  renderError st = Some msg ->
  exists msg', renderError (fst (DisplayLife.chain_step c st)) = Some msg'.
Proof.
  intros He. unfold DisplayLife.chain_step.
  destruct (DisplayLife.chain_stage c).
  - destruct (synth_init (DisplayLife.chain_abcjs c) (DisplayLife.chain_visual c))
      as [e0|e0|u]; cbn [fst].
    + now exists msg.
    + eexists. apply audio_failed_error.
    + destruct (synth_prime (DisplayLife.chain_abcjs c) (DisplayLife.chain_visual c))
        as [e1|e1|u1]; cbn [fst].
      * eexists. apply audio_failed_error.
      * now exists msg.
      * now exists msg.
  - destruct (synth_prime (DisplayLife.chain_abcjs c) (DisplayLife.chain_visual c))
      as [e1|e1|u1]; cbn [fst].
    + now exists msg.
    + eexists. apply audio_failed_error.
    + destruct (renderMidi (DisplayLife.chain_abcjs c)
                  (abcNotation (DisplayLife.chain_music c))) as [controls|e2]; cbn [fst].
      * now exists msg.
      * eexists. apply audio_failed_error.
Qed.

Lemma step_keeps_error (ev : DisplayLife.Event) (life : DisplayLife.Life) (msg : jsstring) :
  renderError (DisplayLife.shown life) = Some msg ->
  exists msg', renderError (DisplayLife.shown (DisplayLife.step ev life)) = Some msg'.
Proof.
  intros He. destruct ev as [a|i]; cbn [DisplayLife.step].
  - rewrite (act_with_error a life msg He). now exists msg.
  - unfold DisplayLife.settle.
    destruct (nth_error (DisplayLife.chains life) i) as [c|]; [|now exists msg].
    cbn [DisplayLife.shown]. now apply (chain_step_keeps_error c _ msg).
Qed.

Lemma run_keeps_error (evs : list DisplayLife.Event) :
  forall (life : DisplayLife.Life) (msg : jsstring),
    renderError (DisplayLife.shown life) = Some msg ->
    exists msg', renderError (DisplayLife.shown (DisplayLife.run evs life)) = Some msg'.
Proof.
  induction evs as [|ev evs IH]; intros life msg He; [now exists msg|].
  cbn [DisplayLife.run].
  destruct (step_keeps_error ev life msg He) as [msg1 H1].
  exact (IH _ msg1 H1).
Qed.

(** The export leaves the component as it was, but for the calls it logs
    and the audio context it may create. *)
Lemma export_frame (win : Window) (musicData : GeneratedMusic) (st : State) :
  renderError (fst (handleDownloadMidi win musicData st)) = renderError st
  /\ currentStaffWidth (fst (handleDownloadMidi win musicData st)) = currentStaffWidth st
  /\ visual_innerHTML (fst (handleDownloadMidi win musicData st)) = visual_innerHTML st
  /\ audio_innerHTML (fst (handleDownloadMidi win musicData st)) = audio_innerHTML st.
Proof.
  unfold handleDownloadMidi.
  destruct (negb (truthy (abcNotation musicData))); [now repeat split|].
  destruct (ABCJS win) as [abcjs|]; [|now repeat split].
  destruct (negb (visualRef_current st)); [now repeat split|].
  destruct (renderAbc abcjs (abcNotation musicData) None) as [[d visualObjs]|e];
    [|now repeat split].
  destruct (no_visual visualObjs) as [v|]; [|now repeat split].
  destruct (CreateSynth abcjs); [|now repeat split].
  destruct (newAudioContext win); [|now repeat split].
  destruct (synth_init abcjs v); [now repeat split|now repeat split|].
  destruct (getMidiFile abcjs v); now repeat split.
Qed.

Lemma audio_failed_audio (e : JsError) (ctx : nat) (st : State) :
  audio_innerHTML (fst (audio_failed e ctx st)) = audio_innerHTML st.
Proof.
  unfold audio_failed, close. cbn [fst].
  destruct (nth_error (contexts (setRenderError (Some (msg_audio e)) st)) ctx)
    as [[|]|]; reflexivity.
Qed.

(** *** The audio contexts over the life of the component *)

Lemma nth_error_replaced (A : Type) (x : A) (l : list A) :
  forall n i : nat,
    n < length l -> i <> n ->
    nth_error (firstn n l ++ x :: skipn (S n) l) i = nth_error l i.
Proof.
  induction l as [|a l IH]; intros n i Hn Hi; simpl in Hn; [lia|].
  destruct n as [|n]; destruct i as [|i]; try reflexivity; try contradiction.
  cbn [firstn skipn app nth_error]. apply IH; lia.
Qed.

Lemma length_replaced (A : Type) (x : A) (l : list A) (n : nat) :
  n < length l -> length (firstn n l ++ x :: skipn (S n) l) = length l.
Proof.
  intros Hn. rewrite length_app, length_firstn. cbn [length]. rewrite length_skipn. lia.
Qed.

(** What [close] does to the contexts depends on the contexts only. *)
Lemma close_contexts (ctx : nat) (st : State) :
  contexts (close ctx st) =
  match nth_error (contexts st) ctx with
  | Some Running => firstn ctx (contexts st) ++ Closed :: skipn (S ctx) (contexts st)
  | _ => contexts st
  end.
Proof.
  unfold close. now destruct (nth_error (contexts st) ctx) as [[|]|].
Qed.

Lemma close_length (ctx : nat) (st : State) :
  length (contexts (close ctx st)) = length (contexts st).
Proof.
  rewrite close_contexts.
  destruct (nth_error (contexts st) ctx) as [[|]|] eqn:E; try reflexivity.
  apply length_replaced. apply nth_error_Some. now rewrite E.
Qed.

Lemma close_other (ctx i : nat) (st : State) :
  i <> ctx -> nth_error (contexts (close ctx st)) i = nth_error (contexts st) i.
Proof.
  intros Hi. rewrite close_contexts.
  destruct (nth_error (contexts st) ctx) as [[|]|] eqn:E; try reflexivity.
  apply nth_error_replaced; [|exact Hi]. apply nth_error_Some. now rewrite E.
Qed.

Lemma close_closed (ctx i : nat) (st : State) :
  nth_error (contexts st) i = Some Closed ->
  nth_error (contexts (close ctx st)) i = Some Closed.
Proof.
  intros H. destruct (Nat.eq_dec i ctx) as [->|Hne].
  - rewrite close_contexts. now rewrite H.
  - now rewrite (close_other ctx i st Hne).
Qed.

(** A handler of a chain leaves the contexts as they are or closes the
    chain's own. *)
Lemma chain_step_contexts (c : DisplayLife.Chain) (st : State) :
  contexts (fst (DisplayLife.chain_step c st)) = contexts st
  \/ contexts (fst (DisplayLife.chain_step c st))
     = contexts (close (DisplayLife.chain_context c) st).
Proof.
  assert (Hf : forall e st', contexts st' = contexts st ->
                contexts (fst (audio_failed e (DisplayLife.chain_context c) st'))
                = contexts (close (DisplayLife.chain_context c) st)).
  { intros e st' E. unfold audio_failed. cbn [fst].
    rewrite !close_contexts. cbn [contexts setRenderError]. now rewrite E. }
  unfold DisplayLife.chain_step.
  destruct (DisplayLife.chain_stage c).
  - destruct (synth_init (DisplayLife.chain_abcjs c) (DisplayLife.chain_visual c))
      as [e0|e0|u]; cbn [fst].
    + now left.
    + right. now apply Hf.
    + destruct (synth_prime (DisplayLife.chain_abcjs c) (DisplayLife.chain_visual c))
        as [e1|e1|u1]; cbn [fst].
      * right. now apply Hf.
      * now left.
      * now left.
  - destruct (synth_prime (DisplayLife.chain_abcjs c) (DisplayLife.chain_visual c))
      as [e1|e1|u1]; cbn [fst].
    + now left.
    + right. now apply Hf.
    + destruct (renderMidi (DisplayLife.chain_abcjs c)
                  (abcNotation (DisplayLife.chain_music c))) as [controls|e2]; cbn [fst].
      * now left.
      * right. now apply Hf.
Qed.

(** A chain that goes on holds the context it held. *)
Lemma chain_step_next (c c' : DisplayLife.Chain) (st : State) :
  snd (DisplayLife.chain_step c st) = Some c' ->
  DisplayLife.chain_context c' = DisplayLife.chain_context c.
Proof.
  unfold DisplayLife.chain_step.
  destruct (DisplayLife.chain_stage c).
  - destruct (synth_init (DisplayLife.chain_abcjs c) (DisplayLife.chain_visual c))
      as [e0|e0|u]; cbn [snd]; try discriminate.
    destruct (synth_prime (DisplayLife.chain_abcjs c) (DisplayLife.chain_visual c))
      as [e1|e1|u1]; cbn [snd]; try discriminate; intros H; inversion H; reflexivity.
  - destruct (synth_prime (DisplayLife.chain_abcjs c) (DisplayLife.chain_visual c))
      as [e1|e1|u1]; cbn [snd]; try discriminate.
    destruct (renderMidi (DisplayLife.chain_abcjs c)
                (abcNotation (DisplayLife.chain_music c))); discriminate.
Qed.

Lemma In_firstn (A : Type) (x : A) (l : list A) :
  forall n : nat, In x (firstn n l) -> In x l.
Proof.
  induction l as [|a l IH]; intros [|n]; simpl; try contradiction.
  intros [H|H]; [now left|right; exact (IH n H)].
Qed.

Lemma In_skipn (A : Type) (x : A) (l : list A) :
  forall n : nat, In x (skipn n l) -> In x l.
Proof.
  induction l as [|a l IH]; intros [|n]; simpl; try contradiction.
  - intros H; exact H.
  - intros H. right. exact (IH n H).
Qed.

(** What one event does to the contexts: the list grows at its end only, a
    closed context stays closed, and a running one that no pending chain
    holds stays running and unheld. *)
Lemma step_contexts (ev : DisplayLife.Event) (life : DisplayLife.Life) :
  length (contexts (DisplayLife.shown life))
  <= length (contexts (DisplayLife.shown (DisplayLife.step ev life)))
  /\ (forall i, nth_error (contexts (DisplayLife.shown life)) i = Some Closed ->
                nth_error (contexts (DisplayLife.shown (DisplayLife.step ev life))) i
                = Some Closed)
  /\ (forall i, nth_error (contexts (DisplayLife.shown life)) i = Some Running ->
                DisplayLife.unheld i life ->
                nth_error (contexts (DisplayLife.shown (DisplayLife.step ev life))) i
                = Some Running
                /\ DisplayLife.unheld i (DisplayLife.step ev life)).
Proof.
  assert (Hgrow : forall (cs cs' : list ContextState),
             cs' = cs \/ cs' = cs ++ [Running] ->
             length cs <= length cs'
             /\ forall i x, nth_error cs i = Some x -> nth_error cs' i = Some x).
  { intros cs cs' [->| ->]; split; try lia; try (intros i x H; exact H).
    - rewrite length_app. simpl. lia.
    - intros i x H. rewrite nth_error_app1; [exact H|].
      apply nth_error_Some. now rewrite H. }
  destruct life as [st cs]. destruct ev as [[win musicData|w|win musicData]|k];
    cbn [DisplayLife.step DisplayLife.act].
  - (* the body of the effect *)
    unfold DisplayLife.start_effect. cbn [DisplayLife.shown DisplayLife.chains].
    pose proof (effect_sync_contexts win musicData st) as Hs.
    destruct (effect_sync win musicData st) as [st1 ph]. cbn [fst snd] in Hs.
    destruct ph as [| | |v ctx| |]; try contradiction.
    + destruct (Hgrow _ _ (or_introl Hs)) as [Hl Hn].
      split; [exact Hl|]. split; [intros i; apply Hn|].
      intros i Hi Hu. split; [now apply Hn|exact Hu].
    + destruct (Hgrow _ _ (or_introl Hs)) as [Hl Hn].
      split; [exact Hl|]. split; [intros i; apply Hn|].
      intros i Hi Hu. split; [now apply Hn|exact Hu].
    + destruct (Hgrow _ _ Hs) as [Hl Hn].
      split; [exact Hl|]. split; [intros i; apply Hn|].
      intros i Hi Hu. split; [now apply Hn|exact Hu].
    + destruct Hs as [-> [Hc [abcjs [Ha Hi]]]]. rewrite Ha.
      cbn [DisplayLife.shown DisplayLife.chains].
      destruct (Hgrow _ _ (or_intror Hc)) as [Hl Hn].
      split; [exact Hl|]. split; [intros i; apply Hn|].
      intros i Hrun Hu. split; [now apply Hn|].
      intros c Hin. unfold DisplayLife.unheld in Hu.
      cbn [DisplayLife.chains] in Hin, Hu.
      apply in_app_or in Hin as [Hin|[<-|[]]]; [now apply Hu|].
      cbn [DisplayLife.chain_context].
      assert (i < length (contexts st)) by (apply nth_error_Some; now rewrite Hrun).
      lia.
  - (* a resize *)
    cbn [DisplayLife.shown DisplayLife.chains].
    assert (E : contexts (calculateStaffWidth w st) = contexts st)
      by (unfold calculateStaffWidth; now destruct (visualRef_current st)).
    rewrite E. split; [lia|]. split; [intros i H; exact H|].
    intros i H Hu. split; [exact H|exact Hu].
  - (* the export *)
    cbn [DisplayLife.shown DisplayLife.chains].
    destruct (Hgrow _ _ (export_contexts win musicData st)) as [Hl Hn].
    split; [exact Hl|]. split; [intros i; apply Hn|].
    intros i H Hu. split; [now apply Hn|exact Hu].
  - (* a chain moves on *)
    unfold DisplayLife.settle. cbn [DisplayLife.shown DisplayLife.chains].
    destruct (nth_error cs k) as [c|] eqn:Ek.
    2:{ cbn [DisplayLife.shown]. split; [lia|]. split; [intros i H; exact H|].
        intros i H Hu. split; [exact H|exact Hu]. }
    cbn [DisplayLife.shown DisplayLife.chains].
    assert (Hin : In c cs) by (apply nth_error_In with k; exact Ek).
    split; [|split].
    + destruct (chain_step_contexts c st) as [E|E]; rewrite E; [lia|].
      rewrite close_length. lia.
    + intros i H. destruct (chain_step_contexts c st) as [E|E]; rewrite E; [exact H|].
      now apply close_closed.
    + intros i H Hu. split.
      * destruct (chain_step_contexts c st) as [E|E]; rewrite E; [exact H|].
        rewrite close_other; [exact H|]. intros Heq. exact (Hu c Hin (eq_sym Heq)).
      * intros c' Hin'. cbn [DisplayLife.chains] in Hin'.
        apply in_app_or in Hin' as [Hin'|Hin'];
          [apply (Hu c'); cbn [DisplayLife.chains]; exact (In_firstn _ _ _ _ Hin')|].
        apply in_app_or in Hin' as [Hin'|Hin'];
          [|apply (Hu c'); cbn [DisplayLife.chains]; exact (In_skipn _ _ _ _ Hin')].
        destruct (snd (DisplayLife.chain_step c st)) as [c1|] eqn:En; [|contradiction].
        destruct Hin' as [<-|[]].
        rewrite (chain_step_next c c1 st En). exact (Hu c Hin).
Qed.

(** *** Runs that overlap *)

Lemma close_at (st : State) (cs rest : list ContextState) :
  contexts st = cs ++ Running :: rest ->
  contexts (close (length cs) st) = cs ++ Closed :: rest
  /\ renderError (close (length cs) st) = renderError st
  /\ visual_innerHTML (close (length cs) st) = visual_innerHTML st
  /\ audio_innerHTML (close (length cs) st) = audio_innerHTML st.
Proof.
  intros E. unfold close. rewrite E.
  rewrite nth_error_app2 by lia. rewrite Nat.sub_diag. cbn [nth_error].
  cbn [log set_contexts contexts renderError visual_innerHTML audio_innerHTML].
  rewrite firstn_app, Nat.sub_diag, firstn_all, skipn_app.
  rewrite (skipn_all2 cs) by lia.
  replace (S (length cs) - length cs) with 1 by lia.
  cbn. now rewrite app_nil_r.
Qed.

End DisplayInvariants.

(** When nothing comes between the body of the effect and the two promises
    of its chain, the component ends where [render_effect] says. *)
Lemma uninterrupted_run (win : Window) (musicData : GeneratedMusic) (st : State) :
  DisplayLife.run
    [DisplayLife.Does (DisplayLife.EffectRun win musicData);
     DisplayLife.ChainSettles 0; DisplayLife.ChainSettles 0]
    (DisplayLife.mounted st)
  = DisplayLife.mounted (fst (render_effect win musicData st)).
Proof.
  cbn [DisplayLife.run DisplayLife.step DisplayLife.act].
  unfold DisplayLife.start_effect, render_effect.
  cbn [DisplayLife.shown DisplayLife.chains DisplayLife.mounted].
  pose proof (effect_sync_contexts win musicData st) as Hs.
  destruct (effect_sync win musicData st) as [st1 ph]. cbn [fst snd] in Hs.
  destruct ph as [| | |v ctx| |]; try reflexivity.
  destruct Hs as [-> [Hc [abcjs [Ha Hi]]]]. rewrite Ha.
  unfold DisplayLife.settle at 2.
  cbn [DisplayLife.chains DisplayLife.shown app nth_error firstn skipn].
  unfold DisplayLife.chain_step at 1 2, effect_settle.
  cbn [DisplayLife.chain_stage DisplayLife.chain_abcjs DisplayLife.chain_visual
       DisplayLife.chain_context DisplayLife.chain_music].
  destruct (synth_init abcjs v) as [e0|e0|u] eqn:Ei; [now elim (Hi e0)| |].
  - reflexivity.
  - destruct (synth_prime abcjs v) as [e1|e1|u1] eqn:Ep; cbn [fst snd app].
    + reflexivity.
    + unfold DisplayLife.settle. cbn [DisplayLife.chains DisplayLife.shown nth_error].
      unfold DisplayLife.chain_step.
      cbn [DisplayLife.awaiting_prime DisplayLife.chain_stage DisplayLife.chain_abcjs
           DisplayLife.chain_visual DisplayLife.chain_context DisplayLife.chain_music].
      rewrite Ep. reflexivity.
    + unfold DisplayLife.settle. cbn [DisplayLife.chains DisplayLife.shown nth_error].
      unfold DisplayLife.chain_step.
      cbn [DisplayLife.awaiting_prime DisplayLife.chain_stage DisplayLife.chain_abcjs
           DisplayLife.chain_visual DisplayLife.chain_context DisplayLife.chain_music].
      rewrite Ep.
      now destruct (renderMidi abcjs (abcNotation musicData)).
Qed.

(** The body of the effect when every call up to [init] succeeds: the chain
    is left pending. *)
Lemma start_effect_priming (win : Window) (abcjs : Abcjs) (musicData : GeneratedMusic)
      (life : DisplayLife.Life) (drawn : html) (visualObjs : option (list VisualObj))
      (v : VisualObj) :
  ABCJS win = Some abcjs ->
  truthy (abcNotation musicData) = true ->
  renderError (DisplayLife.shown life) = None ->
  renderAbc abcjs (abcNotation musicData)
    (Some (currentStaffWidth (DisplayLife.shown life)))
  = Returns (drawn, visualObjs) ->
  no_visual visualObjs = Some v ->
  CreateSynth abcjs = Returns tt ->
  newAudioContext win = Returns tt ->
  (forall e, synth_init abcjs v <> ThrowsSync e) ->
  DisplayLife.start_effect win musicData life
  = {| DisplayLife.shown := primed_state drawn (DisplayLife.shown life);
       DisplayLife.chains :=
         DisplayLife.chains life
         ++ [{| DisplayLife.chain_abcjs := abcjs; DisplayLife.chain_music := musicData;
                DisplayLife.chain_visual := v;
                DisplayLife.chain_context := length (contexts (DisplayLife.shown life));
                DisplayLife.chain_stage := DisplayLife.AwaitsInit |}] |}.
Proof.
  intros Ha Hn He Hr Hv Hc Hx Hi. unfold DisplayLife.start_effect.
  now rewrite (effect_sync_priming win abcjs musicData (DisplayLife.shown life)
                 Ha Hn He drawn visualObjs v Hr Hv Hc Hx Hi), Ha.
Qed.

(** Two runs of the effect that overlap, as at mount, where the first width
    makes the effect run again: the chain of the first run fails at [init]
    with [e], the second run gets through. *)
Section OverlappingRuns.

Variables win1 win2 : Window.
Variables abcjs1 abcjs2 : Abcjs.
Variables music1 music2 : GeneratedMusic.
Variable st : State.
Variable clientWidth : Z.
Variables drawn1 drawn2 controls : html.
Variables objs1 objs2 : option (list VisualObj).
Variables v1 v2 : VisualObj.
Variable e : JsError.

Hypothesis Hmounted : renderError st = None.
Hypothesis Hloaded1 : ABCJS win1 = Some abcjs1.
Hypothesis Hnotation1 : truthy (abcNotation music1) = true.
Hypothesis Hdrawn1 :
  renderAbc abcjs1 (abcNotation music1) (Some (currentStaffWidth st))
  = Returns (drawn1, objs1).
Hypothesis Hobj1 : no_visual objs1 = Some v1.
Hypothesis Hsynth1 : CreateSynth abcjs1 = Returns tt.
Hypothesis Hctx1 : newAudioContext win1 = Returns tt.
Hypothesis Hinit1 : synth_init abcjs1 v1 = Rejects e.
Hypothesis Hloaded2 : ABCJS win2 = Some abcjs2.
Hypothesis Hnotation2 : truthy (abcNotation music2) = true.
Hypothesis Hdrawn2 :
  renderAbc abcjs2 (abcNotation music2) (Some (clientWidth - 40)%Z)
  = Returns (drawn2, objs2).
Hypothesis Hobj2 : no_visual objs2 = Some v2.
Hypothesis Hsynth2 : CreateSynth abcjs2 = Returns tt.
Hypothesis Hctx2 : newAudioContext win2 = Returns tt.
Hypothesis Hinit2 : synth_init abcjs2 v2 = Resolves tt.
Hypothesis Hprime2 : synth_prime abcjs2 v2 = Resolves tt.
Hypothesis Hmidi2 : renderMidi abcjs2 (abcNotation music2) = Returns controls.

Lemma both_started :
  DisplayLife.run
    [DisplayLife.Does (DisplayLife.EffectRun win1 music1);
     DisplayLife.Does (DisplayLife.Resized clientWidth);
     DisplayLife.Does (DisplayLife.EffectRun win2 music2)]
    (DisplayLife.mounted st)
  = {| DisplayLife.shown :=
         primed_state drawn2
           (setCurrentStaffWidth (clientWidth - 40) (primed_state drawn1 st));
       DisplayLife.chains :=
         [{| DisplayLife.chain_abcjs := abcjs1; DisplayLife.chain_music := music1;
             DisplayLife.chain_visual := v1;
             DisplayLife.chain_context := length (contexts st);
             DisplayLife.chain_stage := DisplayLife.AwaitsInit |};
          {| DisplayLife.chain_abcjs := abcjs2; DisplayLife.chain_music := music2;
             DisplayLife.chain_visual := v2;
             DisplayLife.chain_context := length (contexts st ++ [Running]);
             DisplayLife.chain_stage := DisplayLife.AwaitsInit |}] |}.
Proof.
  assert (Hi1 : forall e0, synth_init abcjs1 v1 <> ThrowsSync e0)
    by (intros e0; rewrite Hinit1; discriminate).
  assert (Hi2 : forall e0, synth_init abcjs2 v2 <> ThrowsSync e0)
    by (intros e0; rewrite Hinit2; discriminate).
  cbn [DisplayLife.run DisplayLife.step DisplayLife.act].
  rewrite (start_effect_priming win1 abcjs1 music1 (DisplayLife.mounted st)
             drawn1 objs1 v1 Hloaded1 Hnotation1 Hmounted Hdrawn1 Hobj1 Hsynth1 Hctx1 Hi1).
  cbn [DisplayLife.shown DisplayLife.chains DisplayLife.mounted app].
  change (calculateStaffWidth clientWidth (primed_state drawn1 st))
    with (setCurrentStaffWidth (clientWidth - 40) (primed_state drawn1 st)).
  exact (start_effect_priming win2 abcjs2 music2
           {| DisplayLife.shown :=
                setCurrentStaffWidth (clientWidth - 40) (primed_state drawn1 st);
              DisplayLife.chains :=
                [{| DisplayLife.chain_abcjs := abcjs1; DisplayLife.chain_music := music1;
                    DisplayLife.chain_visual := v1;
                    DisplayLife.chain_context := length (contexts st);
                    DisplayLife.chain_stage := DisplayLife.AwaitsInit |}] |}
           drawn2 objs2 v2 Hloaded2 Hnotation2 eq_refl Hdrawn2 Hobj2 Hsynth2 Hctx2 Hi2).
Qed.

(** Runs that overlap leave an error beside working controls.  When the
    second run of the effect starts before the chain of the first has
    settled, and the first chain then fails while the second gets through,
    the component ends, in whichever order the two chains settle, with the
    audio error of the first run set, over the score the second run drew,
    and with the playback controls of the second run in place; the context
    of the first run is closed, that of the second is running.  The
    [.catch] handler does not ask whether its run is still the last one. *)
Theorem stale_failure_beside_controls (settles : list DisplayLife.Event) :
  In settles
     [[DisplayLife.ChainSettles 0; DisplayLife.ChainSettles 0; DisplayLife.ChainSettles 0];
      [DisplayLife.ChainSettles 1; DisplayLife.ChainSettles 1; DisplayLife.ChainSettles 0]] ->
  let life :=
    DisplayLife.run
      ([DisplayLife.Does (DisplayLife.EffectRun win1 music1);
        DisplayLife.Does (DisplayLife.Resized clientWidth);
        DisplayLife.Does (DisplayLife.EffectRun win2 music2)] ++ settles)
      (DisplayLife.mounted st) in
  renderError (DisplayLife.shown life) = Some (msg_audio e)
  /\ audio_innerHTML (DisplayLife.shown life) = controls
  /\ view (DisplayLife.shown life) = Alert (msg_audio e) drawn2
  /\ contexts (DisplayLife.shown life) = contexts st ++ [Closed; Running]
  /\ DisplayLife.chains life = [].
Proof.
  intros Hin. cbv zeta.
  assert (Hrun : forall evs1 evs2 life0,
             DisplayLife.run (evs1 ++ evs2) life0
             = DisplayLife.run evs2 (DisplayLife.run evs1 life0)).
  { induction evs1 as [|ev evs1 IH]; intros evs2 life0; [reflexivity|]. apply IH. }
  rewrite Hrun, both_started.
  set (c1 := {| DisplayLife.chain_abcjs := abcjs1; DisplayLife.chain_music := music1;
                DisplayLife.chain_visual := v1;
                DisplayLife.chain_context := length (contexts st);
                DisplayLife.chain_stage := DisplayLife.AwaitsInit |}).
  set (c2 := {| DisplayLife.chain_abcjs := abcjs2; DisplayLife.chain_music := music2;
                DisplayLife.chain_visual := v2;
                DisplayLife.chain_context := length (contexts st ++ [Running]);
                DisplayLife.chain_stage := DisplayLife.AwaitsInit |}).
  set (s2 := primed_state drawn2
               (setCurrentStaffWidth (clientWidth - 40) (primed_state drawn1 st))).
  assert (H1 : forall s, DisplayLife.chain_step c1 s
                         = (fst (audio_failed e (length (contexts st)) s), None)).
  { intros s. unfold DisplayLife.chain_step. subst c1.
    cbn [DisplayLife.chain_stage DisplayLife.chain_abcjs DisplayLife.chain_visual
         DisplayLife.chain_context]. now rewrite Hinit1. }
  assert (H2 : forall s, DisplayLife.chain_step c2 s
                         = (log CallPrime s, Some (DisplayLife.awaiting_prime c2))).
  { intros s. unfold DisplayLife.chain_step. subst c2.
    cbn [DisplayLife.chain_stage DisplayLife.chain_abcjs DisplayLife.chain_visual
         DisplayLife.chain_context]. now rewrite Hinit2, Hprime2. }
  assert (H3 : forall s, DisplayLife.chain_step (DisplayLife.awaiting_prime c2) s
                         = (set_audio controls (log CallRenderMidi s), None)).
  { intros s. unfold DisplayLife.chain_step. subst c2.
    cbn [DisplayLife.awaiting_prime DisplayLife.chain_stage DisplayLife.chain_abcjs
         DisplayLife.chain_visual DisplayLife.chain_context DisplayLife.chain_music].
    now rewrite Hprime2, Hmidi2. }
  assert (Hs2 : contexts s2 = contexts st ++ Running :: [Running]).
  { subst s2. cbn. now rewrite <- app_assoc. }
  assert (Hfail : forall s,
             contexts s = contexts st ++ Running :: [Running] ->
             renderError (fst (audio_failed e (length (contexts st)) s)) = Some (msg_audio e)
             /\ audio_innerHTML (fst (audio_failed e (length (contexts st)) s))
                = audio_innerHTML s
             /\ visual_innerHTML (fst (audio_failed e (length (contexts st)) s))
                = visual_innerHTML s
             /\ contexts (fst (audio_failed e (length (contexts st)) s))
                = contexts st ++ [Closed; Running]).
  { intros s Hs. unfold audio_failed. cbn [fst].
    destruct (close_at (setRenderError (Some (msg_audio e)) s) (contexts st) [Running] Hs)
      as [Hc [Hr [Hv Ha]]].
    now rewrite Hc, Hr, Hv, Ha. }
  destruct Hin as [<-|[<-|[]]].
  - assert (E : DisplayLife.run
                  [DisplayLife.ChainSettles 0; DisplayLife.ChainSettles 0;
                   DisplayLife.ChainSettles 0]
                  {| DisplayLife.shown := s2; DisplayLife.chains := [c1; c2] |}
                = DisplayLife.mounted
                    (set_audio controls
                       (log CallRenderMidi
                          (log CallPrime
                             (fst (audio_failed e (length (contexts st)) s2)))))).
    { cbn [DisplayLife.run DisplayLife.step]. unfold DisplayLife.settle.
      cbn [DisplayLife.chains DisplayLife.shown nth_error firstn skipn app].
      rewrite H1. cbn [fst snd app nth_error DisplayLife.shown DisplayLife.chains].
      rewrite H2. cbn [fst snd app nth_error DisplayLife.shown DisplayLife.chains].
      rewrite H3. reflexivity. }
    rewrite E. cbn [DisplayLife.mounted DisplayLife.shown DisplayLife.chains].
    destruct (Hfail s2 Hs2) as [Hr [Ha [Hv Hc]]].
    unfold view.
    cbn [renderError audio_innerHTML visual_innerHTML contexts set_audio log].
    rewrite Hr, Hv, Hc. now repeat split.
  - assert (E : DisplayLife.run
                  [DisplayLife.ChainSettles 1; DisplayLife.ChainSettles 1;
                   DisplayLife.ChainSettles 0]
                  {| DisplayLife.shown := s2; DisplayLife.chains := [c1; c2] |}
                = DisplayLife.mounted
                    (fst (audio_failed e (length (contexts st))
                            (set_audio controls
                               (log CallRenderMidi (log CallPrime s2)))))).
    { cbn [DisplayLife.run DisplayLife.step]. unfold DisplayLife.settle.
      cbn [DisplayLife.chains DisplayLife.shown nth_error firstn skipn app].
      rewrite H2. cbn [fst snd app nth_error firstn skipn DisplayLife.shown DisplayLife.chains].
      rewrite H3. cbn [fst snd app nth_error firstn skipn DisplayLife.shown DisplayLife.chains].
      rewrite H1. reflexivity. }
    rewrite E. cbn [DisplayLife.mounted DisplayLife.shown DisplayLife.chains].
    destruct (Hfail (set_audio controls (log CallRenderMidi (log CallPrime s2))) Hs2)
      as [Hr [Ha [Hv Hc]]].
    unfold view. rewrite Hr, Ha, Hv, Hc. now repeat split.
Qed.

End OverlappingRuns.

(** At mount: the first run's [init] rejects, the run that follows the
    first width gets through and settles first. *)
Lemma stale_failure_beside_controls_witness :
  let life :=
    DisplayLife.run
      ([DisplayLife.Does (DisplayLife.EffectRun (window_with init_fails_abcjs) song);
        DisplayLife.Does (DisplayLife.Resized 800);
        DisplayLife.Does (DisplayLife.EffectRun (window_with good_abcjs) song)]
       ++ [DisplayLife.ChainSettles 1; DisplayLife.ChainSettles 1;
           DisplayLife.ChainSettles 0])
      (DisplayLife.mounted initial) in
  renderError (DisplayLife.shown life) = Some (msg_audio no_audio)
  /\ audio_innerHTML (DisplayLife.shown life) = js "<div>controls</div>"
  /\ view (DisplayLife.shown life) = Alert (msg_audio no_audio) svg
  /\ contexts (DisplayLife.shown life) = [Closed; Running]
  /\ DisplayLife.chains life = [].
Proof.
  apply (stale_failure_beside_controls
           (window_with init_fails_abcjs) (window_with good_abcjs)
           init_fails_abcjs good_abcjs song song initial 800
           svg svg (js "<div>controls</div>") (Some [0]) (Some [0]) 0 0 no_audio);
    try reflexivity.
  right. left. reflexivity.
Defined.

(** An error, once set, stays for the life of the component.  No later run
    of the effect, resize or export changes anything: each of them stops at
    the detached ref of the score container.  The chains still pending may
    settle, but none of their handlers clears the error; so from then on the
    SVG export always ends in its first notice and the MIDI export in a
    notice, also when the score had been drawn before the error. *)
Theorem error_is_sticky (acts : list DisplayLife.Action) (evs : list DisplayLife.Event)
        (life : DisplayLife.Life) (msg : jsstring) :
  renderError (DisplayLife.shown life) = Some msg ->
  DisplayLife.run (map DisplayLife.Does acts) life = life
  /\ (exists msg',
        renderError (DisplayLife.shown (DisplayLife.run evs life)) = Some msg')
  /\ (forall serialize musicData,
        DisplayLife.handleDownloadSvg serialize musicData
          (DisplayLife.shown (DisplayLife.run evs life))
        = DisplayLife.SvgAlerted DisplayLife.msg_no_sheet)
  /\ (forall win musicData,
        exists notice,
          snd (handleDownloadMidi win musicData
                 (DisplayLife.shown (DisplayLife.run evs life)))
          = Alerted notice).
Proof.
  intros He. split; [now apply (acts_with_error acts life msg)|].
  destruct (run_keeps_error evs life msg He) as [msg' He'].
  split; [now exists msg'|]. split.
  - intros serialize musicData. unfold DisplayLife.handleDownloadSvg, visualRef_current.
    rewrite He'. now rewrite orb_true_r.
  - intros win musicData. unfold handleDownloadMidi, visualRef_current. rewrite He'.
    destruct (negb (truthy (abcNotation musicData))); [now eexists|].
    destruct (ABCJS win); now eexists.
Qed.

(** After the audio error of the sample collaborator: a new run with a
    collaborator that works, a resize and an export change nothing. *)
Lemma error_is_sticky_witness :
  let life :=
    DisplayLife.mounted (fst (render_effect (window_with prime_fails_abcjs) song initial)) in
  let acts :=
    [DisplayLife.EffectRun (window_with good_abcjs) song; DisplayLife.Resized 800;
     DisplayLife.ExportMidi (window_with good_abcjs) song] in
  DisplayLife.run (map DisplayLife.Does acts) life = life
  /\ (exists msg',
        renderError (DisplayLife.shown (DisplayLife.run (map DisplayLife.Does acts) life))
        = Some msg')
  /\ (forall serialize musicData,
        DisplayLife.handleDownloadSvg serialize musicData
          (DisplayLife.shown (DisplayLife.run (map DisplayLife.Does acts) life))
        = DisplayLife.SvgAlerted DisplayLife.msg_no_sheet)
  /\ (forall win musicData,
        exists notice,
          snd (handleDownloadMidi win musicData
                 (DisplayLife.shown (DisplayLife.run (map DisplayLife.Does acts) life)))
          = Alerted notice).
Proof.
  apply (error_is_sticky _ _ _ (msg_audio no_audio)). reflexivity.
Defined.

(** No audio context is ever removed, a closed one stays closed, and a
    running one that no pending chain holds stays running whatever happens
    later: the only code that closes a context is the [.catch] handler of
    the chain that holds it.  So the context of a run that ended ready, of
    a run whose [init] threw and of every export is never released. *)
Theorem contexts_are_never_released (evs : list DisplayLife.Event)
        (life : DisplayLife.Life) :
  length (contexts (DisplayLife.shown life))
  <= length (contexts (DisplayLife.shown (DisplayLife.run evs life)))
  /\ (forall i, nth_error (contexts (DisplayLife.shown life)) i = Some Closed ->
                nth_error (contexts (DisplayLife.shown (DisplayLife.run evs life))) i
                = Some Closed)
  /\ (forall i, nth_error (contexts (DisplayLife.shown life)) i = Some Running ->
                DisplayLife.unheld i life ->
                nth_error (contexts (DisplayLife.shown (DisplayLife.run evs life))) i
                = Some Running).
Proof.
  revert life. induction evs as [|ev evs IH]; intros life.
  - cbn [DisplayLife.run]. split; [lia|]. split; intros i H; [exact H|intros _; exact H].
  - cbn [DisplayLife.run].
    destruct (step_contexts ev life) as [L1 [C1 R1]].
    destruct (IH (DisplayLife.step ev life)) as [L2 [C2 R2]].
    split; [lia|]. split.
    + intros i H. apply C2, C1, H.
    + intros i H Hu. destruct (R1 i H Hu) as [H1 Hu1]. exact (R2 i H1 Hu1).
Qed.

(** After the first run of the sample collaborator has ended ready: another
    run whose chain fails and closes its own context, and an export, leave
    the context of the first run running. *)
Lemma contexts_are_never_released_witness :
  nth_error
    (contexts
       (DisplayLife.shown
          (DisplayLife.run
             [DisplayLife.Does (DisplayLife.EffectRun (window_with init_fails_abcjs) song);
              DisplayLife.ChainSettles 0;
              DisplayLife.Does (DisplayLife.ExportMidi (window_with good_abcjs) song)]
             (DisplayLife.mounted after_first_run)))) 0
  = Some Running.
Proof.
  apply (proj2 (proj2 (contexts_are_never_released
                         [DisplayLife.Does
                            (DisplayLife.EffectRun (window_with init_fails_abcjs) song);
                          DisplayLife.ChainSettles 0;
                          DisplayLife.Does
                            (DisplayLife.ExportMidi (window_with good_abcjs) song)]
                         (DisplayLife.mounted after_first_run))) 0).
  - reflexivity.
  - intros c H. destruct H.
Defined.

(** The MIDI export never touches what the component shows: the error, the
    width and both containers are as before, whatever the export ends with. *)
Theorem export_changes_nothing_shown (win : Window) (musicData : GeneratedMusic)
        (st : State) :
  renderError (fst (handleDownloadMidi win musicData st)) = renderError st
  /\ currentStaffWidth (fst (handleDownloadMidi win musicData st)) = currentStaffWidth st
  /\ visual_innerHTML (fst (handleDownloadMidi win musicData st)) = visual_innerHTML st
  /\ audio_innerHTML (fst (handleDownloadMidi win musicData st)) = audio_innerHTML st
  /\ view (fst (handleDownloadMidi win musicData st)) = view st.
Proof.
  destruct (export_frame win musicData st) as [E1 [E2 [E3 E4]]].
  repeat split; try assumption. unfold view. now rewrite E1, E3.
Qed.

(* ================================================================= *)
(** ** The request and the page *)

Section Request.

Lemma parsed_is_filled (raw : jsstring) :
  truthy (title (parseAbcResponse raw)) = true
  /\ truthy (abcNotation (parseAbcResponse raw)) = true
  /\ has_content (abcNotation (parseAbcResponse raw)) = true.
Proof.
  rewrite parseAbcResponse_eq. cbn [title abcNotation].
  destruct (with_title_has_title (strip_fences raw)) as [_ Ht].
  pose proof (ensure_content_has_content
                (ensure_field re_tempo (js "Q:1/4=120")
                   (ensure_field re_meter (js "M:4/4")
                      (ensure_field re_key (js "K:C")
                         (ensure_index (snd (with_title (strip_fences raw)))))))) as Hc.
  fold (complete (snd (with_title (strip_fences raw)))) in Hc.
  split; [exact Ht|]. split; [|exact Hc].
  destruct (complete (snd (with_title (strip_fences raw)))); [discriminate|reflexivity].
Qed.

Lemma submits_not_loading (key : jsstring) (shiftKey isLoading : bool) :
  PromptForm.submits (PromptForm.handleKeyDown key shiftKey isLoading) = true ->
  isLoading = false.
Proof.
  unfold PromptForm.handleKeyDown.
  destruct (JS.eqb key (js "Enter") && negb shiftKey);
    cbn [PromptForm.submits]; [|discriminate].
  now destruct isLoading.
Qed.

End Request.

Example minimum_length_in_instruction :
  GeminiRequest.ToString GeminiRequest.MIN_MUSIC_LENGTH_SECONDS = js "150".
Proof. reflexivity. Qed.

(** [generateMusic] makes one call, to the text model, with the instruction
    built from the prompt.  Its promise rejects with the reason of the call
    when the call throws or rejects, and with the error "Music generation
    failed to return any text." when the answer has no text or an empty one;
    otherwise it resolves with the parsed answer.  So it never resolves with
    empty music: whatever it resolves with is the parse of a text that is
    not empty, and has a title and a notation that are not empty. *)
Theorem generateMusic_never_resolves_empty (ai : GeminiRequest.GoogleGenAI)
        (prompt : jsstring) :
  let answer :=
    GeminiRequest.generateContent ai GeminiRequest.textModel
      (GeminiRequest.musicPrompt prompt) in
  let settled := snd (GeminiRequest.generateMusic ai prompt) in
  fst (GeminiRequest.generateMusic ai prompt)
  = (GeminiRequest.textModel, GeminiRequest.musicPrompt prompt)
  /\ match answer with
     | ThrowsSync e => settled = inl e
     | Rejects e => settled = inl e
     | Resolves None => settled = inl GeminiRequest.no_text
     | Resolves (Some musicText) =>
         if truthy musicText
         then settled = inr (parseAbcResponse musicText)
         else settled = inl GeminiRequest.no_text
     end
  /\ (forall music,
        settled = inr music ->
        (exists musicText,
            answer = Resolves (Some musicText)
            /\ truthy musicText = true
            /\ music = parseAbcResponse musicText)
        /\ truthy (title music) = true
        /\ truthy (abcNotation music) = true)
  /\ (forall e,
        settled = inl e ->
        answer = ThrowsSync e \/ answer = Rejects e \/ e = GeminiRequest.no_text).
Proof.
  cbv zeta. split; [reflexivity|].
  unfold GeminiRequest.generateMusic, GeminiRequest.generateMusic_settles. cbn [snd].
  destruct (GeminiRequest.generateContent ai GeminiRequest.textModel
              (GeminiRequest.musicPrompt prompt)) as [e|e|[t|]].
  - split; [reflexivity|]. split; [discriminate|].
    intros e' H. inversion H. now left.
  - split; [reflexivity|]. split; [discriminate|].
    intros e' H. inversion H. right. now left.
  - destruct (truthy t) eqn:Et; cbn [negb].
    + split; [reflexivity|]. split; [|discriminate].
      intros music H. inversion H; subst music.
      destruct (parsed_is_filled t) as [H1 [H2 _]].
      split; [now exists t|now split].
    + split; [reflexivity|]. split; [discriminate|].
      intros e' H. inversion H. right. now right.
  - split; [reflexivity|]. split; [discriminate|].
    intros e' H. inversion H. right. now right.
Qed.

(** Only an unshifted Enter pressed while nothing is loading submits the
    form; Shift+Enter and every other key are left to the textarea. *)
Theorem only_plain_enter_submits (key : jsstring) (shiftKey isLoading : bool) :
  (PromptForm.submits (PromptForm.handleKeyDown key shiftKey isLoading) = true ->
   key = js "Enter" /\ shiftKey = false /\ isLoading = false)
  /\ (PromptForm.defaultPrevented (PromptForm.handleKeyDown key shiftKey isLoading) = true ->
      key = js "Enter" /\ shiftKey = false).
Proof.
  unfold PromptForm.handleKeyDown.
  destruct (JS.eqb key (js "Enter")) eqn:Ek; cbn [andb].
  - apply eqb_eq in Ek. destruct shiftKey; cbn [negb]; split;
      cbn [PromptForm.submits PromptForm.defaultPrevented]; try discriminate.
    + destruct isLoading; [discriminate|now repeat split].
    + now split.
  - split; discriminate.
Qed.

Section PageInvariant.

Variable ai : GeminiRequest.GoogleGenAI.

Lemma initial_consistent : App.consistent App.initial.
Proof.
  unfold App.consistent. cbn.
  repeat split; try discriminate; try lia; try constructor.
  intros H. now elim H.
Qed.

Lemma setPrompt_consistent (v : jsstring) (st : App.State) :
  App.consistent st -> App.consistent (App.setPrompt v st).
Proof. intros H. exact H. Qed.

Lemma request_is_parsed (p : jsstring) :
  match snd (GeminiRequest.generateMusic ai p) with
  | inr m => exists raw, truthy raw = true /\ m = parseAbcResponse raw
  | inl _ => True
  end.
Proof.
  unfold GeminiRequest.generateMusic, GeminiRequest.generateMusic_settles. cbn [snd].
  destruct (GeminiRequest.generateContent ai GeminiRequest.textModel
              (GeminiRequest.musicPrompt p)) as [e|e|[t|]]; try exact I.
  destruct (truthy t) eqn:Et; cbn [negb]; [now exists t|exact I].
Qed.

Lemma handleGenerate_consistent (st : App.State) :
  App.consistent st -> App.isLoading st = false ->
  App.consistent (App.handleGenerate ai st).
Proof.
  intros [H1 [H2 [H3 [H4 [H5 [H6 H7]]]]]] Hl. unfold App.handleGenerate.
  assert (Hp : App.pending st = []).
  { destruct (App.pending st) as [|r rest] eqn:E; [reflexivity|].
    assert (Hne : r :: rest <> []) by discriminate.
    apply H2 in Hne. congruence. }
  destruct (truthy (trim (App.prompt st))) eqn:Et; cbn [negb].
  - unfold App.consistent. cbn. rewrite Hp. cbn.
    split; [lia|]. split; [split; [discriminate|reflexivity]|].
    split; [now split|]. split; [discriminate|].
    split; [|split; [discriminate|]].
    + apply Forall_app. split; [exact H5|]. constructor; [|constructor].
      now exists (App.prompt st).
    + constructor; [|constructor]. apply request_is_parsed.
  - unfold App.consistent. cbn. rewrite Hp, Hl.
    split; [simpl; lia|]. split; [split; [discriminate|intros H; now elim H]|].
    split; [discriminate|]. split; [intros e m He _; now inversion He|].
    split; [exact H5|]. split; [exact H6|constructor].
Qed.

Lemma settle_consistent (st : App.State) :
  App.consistent st -> App.consistent (App.settle st).
Proof.
  intros H. pose proof H as [H1 [H2 [H3 [H4 [H5 [H6 H7]]]]]]. unfold App.settle.
  destruct (App.pending st) as [|r rest] eqn:E; [exact H|].
  assert (Hrest : rest = []).
  { destruct rest; [reflexivity|]. simpl in H1. lia. }
  subst rest.
  assert (Hl : App.isLoading st = true) by (apply H2; discriminate).
  destruct (H3 Hl) as [He Hm].
  destruct r as [e|result]; unfold App.consistent; cbn.
  - rewrite Hm. split; [lia|]. split; [split; [discriminate|intros Hf; now elim Hf]|].
    split; [discriminate|]. split; [discriminate|].
    split; [exact H5|]. split; [discriminate|constructor].
  - rewrite He. split; [lia|]. split; [split; [discriminate|intros Hf; now elim Hf]|].
    split; [discriminate|]. split; [discriminate|].
    split; [exact H5|]. split; [|constructor].
    intros m Hm'. inversion Hm'; subst m. now inversion H7.
Qed.

Lemma step_consistent (ev : App.Event) (st : App.State) :
  App.consistent st -> App.consistent (App.step ai ev st).
Proof.
  intros H. destruct ev as [v|key shiftKey| |]; cbn [App.step].
  - exact H.
  - destruct (PromptForm.submits
                (PromptForm.handleKeyDown key shiftKey (App.isLoading st))) eqn:E;
      [|exact H].
    apply handleGenerate_consistent; [exact H|].
    exact (submits_not_loading key shiftKey (App.isLoading st) E).
  - unfold PromptForm.button_submits. destruct (App.isLoading st) eqn:E; [exact H|].
    now apply handleGenerate_consistent.
  - now apply settle_consistent.
Qed.

Lemma run_consistent (evs : list App.Event) :
  forall st, App.consistent st -> App.consistent (App.run ai evs st).
Proof.
  induction evs as [|ev evs IH]; intros st H; [exact H|].
  cbn [App.run]. apply IH. now apply step_consistent.
Qed.

End PageInvariant.

(** At most one request is ever in flight: the form cannot start a second
    one while the first is pending.  The page is loading exactly while a
    request is pending, and then shows the spinner and nothing else. *)
Theorem one_request_at_a_time (ai : GeminiRequest.GoogleGenAI) (evs : list App.Event) :
  length (App.pending (App.run ai evs App.initial)) <= 1
  /\ (App.isLoading (App.run ai evs App.initial) = true
      <-> App.pending (App.run ai evs App.initial) <> [])
  /\ (App.isLoading (App.run ai evs App.initial) = true ->
      App.panels (App.run ai evs App.initial) = [App.Spinner]).
Proof.
  destruct (run_consistent ai evs App.initial initial_consistent)
    as [H1 [H2 [H3 _]]].
  split; [exact H1|]. split; [exact H2|].
  intros Hl. destruct (H3 Hl) as [He Hm].
  unfold App.panels, App.error_shown. now rewrite He, Hm, Hl.
Qed.

(** Every instruction sent to the model is built around a prompt that is
    not blank.  For a prompt of white space only, [handleGenerate] sets the
    notice "Please enter a prompt." and does nothing else: no call is made,
    nothing is pending, the page does not start loading and the music it
    holds stays.  For any other prompt it sends exactly the instruction
    built around that prompt, clears the error and the music, and starts
    loading. *)
Theorem only_nonblank_prompts_are_sent (ai : GeminiRequest.GoogleGenAI)
        (evs : list App.Event) :
  Forall (fun i => exists p, truthy (trim p) = true
                             /\ i = (GeminiRequest.textModel, GeminiRequest.musicPrompt p))
         (App.sent (App.run ai evs App.initial))
  /\ (forall st : App.State,
        truthy (trim (App.prompt st)) = false ->
        App.handleGenerate ai st
        = {| App.prompt := App.prompt st; App.isLoading := App.isLoading st;
             App.generatedMusic := App.generatedMusic st;
             App.error := Some App.msg_enter_prompt;
             App.sent := App.sent st; App.pending := App.pending st |})
  /\ (forall st : App.State,
        truthy (trim (App.prompt st)) = true ->
        App.sent (App.handleGenerate ai st)
        = App.sent st ++ [(GeminiRequest.textModel,
                           GeminiRequest.musicPrompt (App.prompt st))]
        /\ length (App.pending (App.handleGenerate ai st)) = S (length (App.pending st))
        /\ App.isLoading (App.handleGenerate ai st) = true
        /\ App.error (App.handleGenerate ai st) = None
        /\ App.generatedMusic (App.handleGenerate ai st) = None).
Proof.
  split; [|split].
  - now destruct (run_consistent ai evs App.initial initial_consistent)
      as [_ [_ [_ [_ [H5 _]]]]].
  - intros st H. unfold App.handleGenerate. now rewrite H.
  - intros st H. unfold App.handleGenerate. rewrite H. cbn.
    rewrite length_app. cbn. repeat split. lia.
Qed.

(** A message about a failed generation never stands beside a score: when
    the page holds both an error and music, the error is the notice for a
    blank prompt. *)
Theorem failure_never_beside_score (ai : GeminiRequest.GoogleGenAI)
        (evs : list App.Event) (e : jsstring) (m : GeneratedMusic) :
  App.error (App.run ai evs App.initial) = Some e ->
  App.generatedMusic (App.run ai evs App.initial) = Some m ->
  e = App.msg_enter_prompt.
Proof.
  destruct (run_consistent ai evs App.initial initial_consistent)
    as [_ [_ [_ [H4 _]]]].
  apply H4.
Qed.

(** After a score was made, a click with a blank prompt: the notice for the
    blank prompt stands beside the score. *)
Lemma failure_never_beside_score_witness :
  App.error (App.run (answering (abcNotation song)) blank_after_success App.initial)
  = Some App.msg_enter_prompt
  /\ App.generatedMusic (App.run (answering (abcNotation song)) blank_after_success App.initial)
     = Some song
  /\ App.msg_enter_prompt = App.msg_enter_prompt.
Proof.
  split; [vm_compute; reflexivity|]. split; [vm_compute; reflexivity|].
  apply (failure_never_beside_score (answering (abcNotation song)) blank_after_success
           App.msg_enter_prompt song);
    vm_compute; reflexivity.
Defined.

(** The music the page holds is always filled: its title and its notation
    are not empty and the notation holds a bar separator or a pitch letter,
    so the display's guard for an empty notation never stops it, and both
    exports name their file after the title, never [untitled]. *)
Theorem shown_music_is_filled (ai : GeminiRequest.GoogleGenAI)
        (evs : list App.Event) (m : GeneratedMusic) :
  App.generatedMusic (App.run ai evs App.initial) = Some m ->
  truthy (title m) = true
  /\ truthy (abcNotation m) = true
  /\ has_content (abcNotation m) = true
  /\ midi_filename m = title m ++ js ".mid"
  /\ DisplayLife.svg_filename m = title m ++ js ".svg".
Proof.
  intros Hm.
  destruct (run_consistent ai evs App.initial initial_consistent)
    as [_ [_ [_ [_ [_ [H6 _]]]]]].
  destruct (H6 m Hm) as [raw [_ ->]].
  destruct (parsed_is_filled raw) as [H1 [H2 H3]].
  unfold midi_filename, DisplayLife.svg_filename. rewrite H1. now repeat split.
Qed.

(** After a click and the model's answer. *)
Lemma shown_music_is_filled_witness :
  truthy (title song) = true
  /\ truthy (abcNotation song) = true
  /\ has_content (abcNotation song) = true
  /\ midi_filename song = title song ++ js ".mid"
  /\ DisplayLife.svg_filename song = title song ++ js ".svg".
Proof.
  apply (shown_music_is_filled (answering (abcNotation song)) [App.Click; App.Settle] song).
  vm_compute. reflexivity.
Defined.

(** The page is never blank: in every state at least one of the four blocks
    is rendered, and the placeholder only when it is alone. *)
Theorem page_is_never_blank (st : App.State) :
  1 <= length (App.panels st)
  /\ (In App.Placeholder (App.panels st) -> App.panels st = [App.Placeholder]).
Proof.
  unfold App.panels.
  destruct (App.error_shown st) as [e|]; destruct (App.isLoading st);
    destruct (App.generatedMusic st) as [m|]; cbn; split; try lia;
    try reflexivity; intros H; repeat (destruct H as [H|H]; try discriminate);
    try contradiction.
Qed.
